(** * Sparse-matrix storage: COO / COOmap dynamic backends, YALE compressed
    backend and the Matrix facade, embedded from the C++ sources.

    Conventions of the embedding.
    - [size_t] is [N]; the only places where the 64-bit wrap-around can be
      observed ([x + 1], [x - 1]) go through [size_add] / [size_sub].
    - Positions inside a [std::vector] / [std::forward_list] are [nat].
    - Every operation that can hit an [assert] (DEBUG build only), read a
      container out of range, dereference a released pointer or read a
      variable that was never written returns an [outcome]. *)

From Stdlib Require Import NArith ZArith Lia Bool.
From stdpp Require Import base option list numbers sorting.

Local Open Scope N_scope.

(** ** Machine integers *)

Abbreviation size_t := N.
Definition SIZE_WIDTH : N := 64.
Definition SIZE_MOD : N := 2 ^ SIZE_WIDTH.
Definition size_add (a b : size_t) : size_t := (a + b) mod SIZE_MOD.
Definition size_sub (a b : size_t) : size_t := (a + SIZE_MOD - b mod SIZE_MOD) mod SIZE_MOD.

(** ** Outcomes of a call *)

(** The assertion messages of the sources, one constructor per message. *)
Inductive assertion :=
| SizesDontMatch        (* "sizes don't match" *)
| IndexTooBig           (* "indexes out of bounds (too big)" *)
| IndexNegative         (* "indexes out of bounds (negative)" *)
| Redefinition          (* "redefinition of the same element" *)
| CallOutOfBounds       (* "Error in call to operator(): indexes out of bounds" *)
| AlreadyCompressed     (* "matrix already compressed" *)
| AlreadyUncompressed   (* "matrix already uncompressed" *)
| NonMatchingDimensions (* "non-matching dimensions" *)
| CannotOpenFile
| InvalidMatrixMarket.

(** The ways a call leaves the defined behaviour of C++. *)
Inductive undefined :=
| OutOfRange        (* element access outside the container *)
| NullPointer       (* dereference of a reset / never set unique_ptr *)
| Indeterminate     (* read of a variable that was never initialised *)
| OutOfFuel.        (* a loop of the model did not finish within its fuel *)

Inductive outcome (A : Type) :=
| Done (a : A)
| Abort (msg : assertion)
| UB (why : undefined).
Arguments Done {A} a.
Arguments Abort {A} msg.
Arguments UB {A} why.

#[global] Instance outcome_ret : MRet outcome := fun A a => Done a.
#[global] Instance outcome_bind : MBind outcome := fun A B f m =>
  match m with
  | Done a => f a
  | Abort msg => Abort msg
  | UB why => UB why
  end.

(** [assert(cond && msg)] under [#ifdef DEBUG]. *)
Definition assert (DEBUG : bool) (cond : bool) (msg : assertion) : outcome unit :=
  if DEBUG && negb cond then Abort msg else Done tt.

(** [vec[i]] for a vector; out of range is undefined. *)
Definition at_ {A} (vec : list A) (i : nat) : outcome A :=
  match vec !! i with
  | Some x => Done x
  | None => UB OutOfRange
  end.

(** [vec[i] = x]. *)
Definition put {A} (vec : list A) (i : nat) (x : A) : outcome (list A) :=
  if decide (i < length vec)%nat then Done (<[i:=x]> vec) else UB OutOfRange.

(** [*ptr] for a [std::unique_ptr]. *)
Definition deref {A} (ptr : option A) : outcome A :=
  match ptr with
  | Some x => Done x
  | None => UB NullPointer
  end.

(** [vec.insert(vec.begin() + k, x)] and [vec.erase(vec.begin() + k)]. *)
Definition vinsert {A} (k : nat) (x : A) (vec : list A) : list A :=
  take k vec ++ x :: drop k vec.
Definition verase {A} (k : nat) (vec : list A) : list A :=
  take k vec ++ drop (S k) vec.

(** [for (k = a; k < b; ++k) body], as a fold over the values [k] takes. *)
Fixpoint for_each {A St} (ks : list A) (body : A → St → outcome St) (st : St)
    : outcome St :=
  match ks with
  | [] => Done st
  | k :: ks => st ← body k st; for_each ks body st
  end.
Definition range (a b : nat) : list nat := seq a (b - a).

(** ** Utils/Comparators.hpp *)

Inductive NormType := One | Infinity | Frobenius.
Inductive StorageOrder := rowMajor | columnMajor.

Definition index := (size_t * size_t)%type.

(** [Comparators.hpp], lines 18-43. *)
Definition Comparator (SO : StorageOrder) (a b : index) : bool :=
  match SO with
  | rowMajor =>
      if negb (a.1 =? b.1) then a.1 <? b.1 else a.2 <? b.2
  | columnMajor =>
      if negb (a.2 =? b.2) then a.2 <? b.2 else a.1 <? b.1
  end.

(** [std::sort]: the standard fixes the result up to the order of equivalent
    elements; the model is insertion sort. *)
Section std_sort.
Context {A : Type} (comp : A → A → bool).

Fixpoint sort_insert (x : A) (l : list A) : list A :=
  match l with
  | [] => [x]
  | y :: l' => if comp y x then y :: sort_insert x l' else x :: l
  end.

Definition std_sort (l : list A) : list A := foldr sort_insert [] l.
End std_sort.

(** [sort_permutation]: [p] is [iota 0 .. n-1] sorted by the keys it points to.
    ([Comparators.hpp], lines 52-62.) *)
Definition sort_permutation (SO : StorageOrder) (vec : list index) : list nat :=
  let p := seq 0 (length vec) in
  std_sort (fun i j => Comparator SO (vec !!! i) (vec !!! j)) p.

Section apply_permutation.
Context {A : Type}.

(** [std::swap(vec[a], vec[b])]. *)
Definition vswap (vec : list A) (a b : nat) : outcome (list A) :=
  x ← at_ vec a; y ← at_ vec b;
  vec ← put vec a y; put vec b x.

(** The inner [while (i != j)] loop. The source has no bound on it; the
    outer loop gives it [vec.size()] rounds, which [apply_cycle_spec] shows
    to be enough when [p] is a permutation of the positions. *)
Fixpoint apply_cycle (fuel : nat) (p : list nat) (i prev_j j : nat)
    (vec : list A) (done : list bool) : outcome (list A * list bool) :=
  if decide (i = j) then Done (vec, done) else
  match fuel with
  | O => UB OutOfFuel
  | S fuel =>
      vec ← vswap vec prev_j j;
      done ← put done j true;
      j' ← at_ p j;
      apply_cycle fuel p i j j' vec done
  end.

(** The outer [for] loop, over the positions [todo]. *)
Fixpoint apply_outer (p : list nat) (todo : list nat)
    (vec : list A) (done : list bool) : outcome (list A) :=
  match todo with
  | [] => Done vec
  | i :: todo =>
      d ← at_ done i;
      if (d : bool) then apply_outer p todo vec done else
      done ← put done i true;
      j ← at_ p i;
      '(vec, done) ← apply_cycle (length vec) p i i j vec done;
      apply_outer p todo vec done
  end.

(** [Comparators.hpp], lines 68-86. *)
Definition apply_permutation (vec : list A) (p : list nat) : outcome (list A) :=
  apply_outer p (seq 0 (length vec)) vec (replicate (length vec) false).
End apply_permutation.

(** ** Utils/Concepts.hpp: the scalar types *)

(** [double] with the operations the norms use. *)
Class DoubleOps (D : Type) := {
  d_zero : D;
  d_add : D → D → D;
  d_mul : D → D → D;
  d_ltb : D → D → bool;
  d_sqrt : D → D
}.

(** [NumericOrComplex T]: [T{}], [+], [*] and [std::abs] (whose result is
    converted to [double] where the norms accumulate it). *)
Class NumericOrComplex (T D : Type) := {
  t_zero : T;
  t_add : T → T → T;
  t_mul : T → T → T;
  t_abs : T → D
}.

Section std_algorithms.
Context {D : Type} `{!DoubleOps D}.

(** [std::max(a, b)] is [(a < b) ? b : a]. *)
Definition std_max (a b : D) : D := if d_ltb a b then b else a.

(** [*std::max_element(first, last)]: the first greatest element;
    dereferencing the result on an empty range is undefined. *)
Fixpoint max_element_from (largest : D) (l : list D) : D :=
  match l with
  | [] => largest
  | x :: l => max_element_from (if d_ltb largest x then x else largest) l
  end.
Definition max_element (l : list D) : outcome D :=
  match l with
  | [] => UB OutOfRange
  | x :: l => Done (max_element_from x l)
  end.
End std_algorithms.

(** ** Dimensions.hpp, Dimensions.cpp *)

Record Dimensions := { rows : size_t; columns : size_t }.

Definition get_rows (d : Dimensions) : size_t := rows d.
Definition get_columns (d : Dimensions) : size_t := columns d.
(** [Dimensions.cpp], lines 22-25. *)
Definition resize (d : Dimensions) (r c : size_t) : Dimensions :=
  {| rows := r; columns := c |}.

(** [Dimensions(r, c)] when the constructor is given [r] and [c]. *)
Definition given_dimensions (rc : option (size_t * size_t)) : option Dimensions :=
  (fun rc => {| rows := rc.1; columns := rc.2 |}) <$> rc.

(** A matrix element in transit between two representations. *)
Definition ivtuple (T : Type) := (size_t * size_t * T)%type.

(** A Matrix Market file as the constructors see it through [std::ifstream]:
    whether it opens, whether its first line starts with the banner, the
    size line, and the entry lines that follow (1-based coordinates). *)
Record MatrixMarket (T : Type) := {
  mm_opens : bool;
  mm_banner : bool;
  mm_rows : size_t;
  mm_columns : size_t;
  mm_nnz : size_t;
  mm_lines : list (size_t * size_t * T)
}.
Arguments mm_opens {T}. Arguments mm_banner {T}. Arguments mm_rows {T}.
Arguments mm_columns {T}. Arguments mm_nnz {T}. Arguments mm_lines {T}.

(** ** Implementation/COOImpl.hpp *)

Module COO.
Section COO.
Context {T D : Type} `{!DoubleOps D} `{!NumericOrComplex T D} (SO : StorageOrder).

(** Modelled from the spec: the class declaration [Dynamic/COO.hpp], with
    the members [indexptr] and [valuesptr] and the types [indexlist] and
    [valueslist], is not among the sources. The specification describes
    this backend as "a linked-order-preserving list", and COOImpl.hpp goes
    through both members with [push_front], [before_begin], [insert_after]
    and [erase_after] only: two singly linked lists, one of coordinates and
    one of values, advanced in step. *)
Record t := { indexlist : list index; valueslist : list T }.

(** The [while] loop shared by the constructors, over the reversed
    temporaries; [prev] is the element [--compare] lands on,
    [check_dup] tells the constructors with the redefinition assert from
    the map constructor, which has none. *)
Fixpoint fill (DEBUG check_dup : bool) (BD : option Dimensions)
    (it1 : list index) (it2 : list T) (prev : option index)
    (max_index_r max_index_c : size_t) (il : list index) (vl : list T)
    : outcome (size_t * size_t * t) :=
  match it1, it2 with
  | x :: it1, v :: it2 =>
      _ ← match BD with
          | Some d => assert DEBUG ((x.1 <? rows d) && (x.2 <? columns d)) IndexTooBig
          | None => Done tt
          end;
      _ ← assert DEBUG ((0 <=? x.1) && (0 <=? x.2)) IndexNegative;
      _ ← match prev with
          | Some c => if check_dup then assert DEBUG (negb (bool_decide (x = c))) Redefinition
                      else Done tt
          | None => Done tt
          end;
      let max_index_r := if BD is None then N.max max_index_r x.1 else max_index_r in
      let max_index_c := if BD is None then N.max max_index_c x.2 else max_index_c in
      fill DEBUG check_dup BD it1 it2 (Some x) max_index_r max_index_c (x :: il) (v :: vl)
  | _, _ => Done (max_index_r, max_index_c, {| indexlist := il; valueslist := vl |})
  end.

(** [if constexpr (!B) this->resize(max_index_r + 1, max_index_c + 1)];
    without [B] the base was default-initialised and both of its fields
    are overwritten here. *)
Definition finish_dimensions (BD : option Dimensions)
    (max_index_r max_index_c : size_t) : Dimensions :=
  match BD with
  | Some d => d
  | None => resize {| rows := 0; columns := 0 |}
              (size_add max_index_r 1) (size_add max_index_c 1)
  end.

(** Sorting of the two temporaries by one permutation. *)
Definition sort_temporaries (tempindexes : list index) (tempvalues : list T)
    : outcome (list index * list T) :=
  let p := sort_permutation SO tempindexes in
  ti ← apply_permutation tempindexes p;
  tv ← apply_permutation tempvalues p;
  Done (ti, tv).

(** [COO(std::bool_constant<B>, indexes, values)]; [BD] is [Some d] when
    [B] is true and the base was built by [Dimensions(r, c)].
    ([COOImpl.hpp], lines 27-88.) *)
Definition from_triplets (DEBUG : bool) (BD : option Dimensions)
    (indexes : list index) (values : list T) : outcome (Dimensions * t) :=
  _ ← assert DEBUG (bool_decide (length indexes = length values)) SizesDontMatch;
  '(tempindexes, tempvalues) ← sort_temporaries indexes values;
  '(max_index_r, max_index_c, c) ←
    fill DEBUG true BD (reverse tempindexes) (reverse tempvalues) None 0 0 [] [];
  Done (finish_dimensions BD max_index_r max_index_c, c).

(** [COO(std::bool_constant<B>, std::map const& m)]; [m] is given by its
    in-order traversal.
    ([COOImpl.hpp], lines 99-151.) *)
Definition from_map (DEBUG : bool) (BD : option Dimensions)
    (m : list (index * T)) : outcome (Dimensions * t) :=
  let tempvalues := m.*2 in
  let tempindexes := m.*1 in
  '(tempindexes, tempvalues) ← sort_temporaries tempindexes tempvalues;
  '(max_index_r, max_index_c, c) ←
    fill DEBUG false BD (reverse tempindexes) (reverse tempvalues) None 0 0 [] [];
  Done (finish_dimensions BD max_index_r max_index_c, c).

(** [COO(std::string& file_name)], on the file as the stream operators
    read it.
    ([COOImpl.hpp], lines 160-233.) *)
Definition from_file (DEBUG : bool) (f : MatrixMarket T) : outcome (Dimensions * t) :=
  _ ← assert DEBUG (mm_opens f) CannotOpenFile;
  _ ← assert DEBUG (mm_banner f) InvalidMatrixMarket;
  let d := {| rows := mm_rows f; columns := mm_columns f |} in
  let lines := take (N.to_nat (mm_nnz f)) (mm_lines f) in
  let tempvalues := (fun l => l.2) <$> lines in
  let tempindexes := (fun l => (size_sub l.1.1 1, size_sub l.1.2 1)) <$> lines in
  '(tempindexes, tempvalues) ← sort_temporaries tempindexes tempvalues;
  '(_, _, c) ←
    fill DEBUG true (Some d) (reverse tempindexes) (reverse tempvalues) None 0 0 [] [];
  Done (d, c).

(** [find_dynamic_const]: the scan over both lists. *)
Fixpoint find_const_scan (it1 : list index) (it2 : list T) (i j : size_t) : outcome T :=
  match it1 with
  | [] => Done t_zero
  | x :: it1 =>
      if (x.1 =? i) && (x.2 =? j) then at_ it2 0%nat
      else if negb (Comparator SO x (i, j)) then Done t_zero
      else find_const_scan it1 (tail it2) i j
  end.

(** [COOImpl.hpp], lines 243-260. *)
Definition find_dynamic_const (c : t) (i j : size_t) : outcome (t * T) :=
  v ← find_const_scan (indexlist c) (valueslist c) i j;
  Done (c, v).

(** [find_dynamic]: where the scan stops ([k] elements were passed) and
    whether it stopped on the coordinate itself. *)
Fixpoint find_scan (k : nat) (it1 : list index) (i j : size_t) : bool * nat :=
  match it1 with
  | [] => (false, k)
  | x :: it1 =>
      if (x.1 =? i) && (x.2 =? j) then (true, k)
      else if negb (Comparator SO x (i, j)) then (false, k)
      else find_scan (S k) it1 i j
  end.

(** The reference [find_dynamic] returns is the position of the slot in
    the values list.
    ([COOImpl.hpp], lines 270-297.) *)
Definition find_dynamic (c : t) (i j : size_t) : outcome (t * nat) :=
  let '(found, k) := find_scan 0 (indexlist c) i j in
  if found then
    _ ← at_ (valueslist c) k;
    Done (c, k)
  else if decide (k ≤ length (valueslist c))%nat then
    Done ({| indexlist := vinsert k (i, j) (indexlist c);
             valueslist := vinsert k t_zero (valueslist c) |}, k)
  else UB OutOfRange.

Definition read_slot (c : t) (k : nat) : outcome T := at_ (valueslist c) k.
Definition write_slot (c : t) (k : nat) (v : T) : outcome t :=
  vl ← put (valueslist c) k v;
  Done {| indexlist := indexlist c; valueslist := vl |}.

(** [compress_from_dynamic]; the static iterators [valuesit] and
    [indexit] advance together and are the position [cursor].
    ([COOImpl.hpp], lines 307-323.) *)
Definition compress_from_dynamic (first_it : bool) (cursor : nat) (c : t)
    : outcome (nat * ivtuple T) :=
  let cursor := if first_it then 0%nat else cursor in
  x ← at_ (indexlist c) cursor;
  v ← at_ (valueslist c) cursor;
  Done (S cursor, (x.1, x.2, v)).

(** [uncompress_from_triplets]; [cursor] counts the elements up to and
    including the one [lastind] / [lastval] point to.
    ([COOImpl.hpp], lines 332-347.) *)
Definition uncompress_from_triplets (first_it : bool) (cursor : nat)
    (tuple : ivtuple T) (c : t) : outcome (nat * t) :=
  let cursor := if first_it then 0%nat else cursor in
  if decide (cursor ≤ length (indexlist c) ∧ cursor ≤ length (valueslist c))%nat then
    Done (S cursor,
          {| indexlist := vinsert cursor (tuple.1.1, tuple.1.2) (indexlist c);
             valueslist := vinsert cursor tuple.2 (valueslist c) |})
  else UB OutOfRange.

(** [COOImpl.hpp], lines 355-359. *)
Definition get_num_elements_dynamic (c : t) : size_t :=
  N.of_nat (length (valueslist c)).

(** [COOImpl.hpp], lines 365-369. *)
Definition initialize_dynamic : t := {| indexlist := []; valueslist := [] |}.

(** [COOImpl.hpp], lines 388-396. *)
Definition next_line (i : size_t) : index :=
  match SO with
  | rowMajor => (size_add i 1, 0)
  | columnMajor => (0, size_add i 1)
  end.

(** The line scan of [norm_dynamic] ([int i] is kept unbounded). *)
Fixpoint norm_line_scan (it : list index) (it2 : list T) (res sum : D) (i : N)
    : outcome D :=
  match it with
  | [] => Done (std_max sum res)
  | x :: it =>
      v ← at_ it2 0%nat;
      if Comparator SO x (next_line i)
      then norm_line_scan it (tail it2) res (d_add sum (t_abs v)) i
      else norm_line_scan it (tail it2) (std_max sum res) (t_abs v) (i + 1)
  end.

(** The scan that accumulates into [partial_res], indexed by [key]. *)
Fixpoint norm_partial_scan (key : index → size_t) (it : list index) (it2 : list T)
    (partial_res : list D) : outcome (list D) :=
  match it with
  | [] => Done partial_res
  | x :: it =>
      v ← at_ it2 0%nat;
      old ← at_ partial_res (N.to_nat (key x));
      partial_res ← put partial_res (N.to_nat (key x)) (d_add old (t_abs v));
      norm_partial_scan key it (tail it2) partial_res
  end.

(** [COOImpl.hpp], lines 405-458. *)
Definition norm_dynamic (N0 : NormType) (d : Dimensions) (c : t) : outcome D :=
  match N0, SO with
  | Infinity, rowMajor | One, columnMajor =>
      norm_line_scan (indexlist c) (valueslist c) d_zero d_zero 0
  | One, rowMajor =>
      partial_res ← norm_partial_scan snd (indexlist c) (valueslist c)
                       (replicate (N.to_nat (columns d)) d_zero);
      max_element partial_res
  | Infinity, columnMajor =>
      partial_res ← norm_partial_scan fst (indexlist c) (valueslist c)
                       (replicate (N.to_nat (rows d)) d_zero);
      max_element partial_res
  | Frobenius, _ =>
      Done (d_sqrt (foldl (fun sum v => d_add sum (d_mul (t_abs v) (t_abs v)))
                      d_zero (valueslist c)))
  end.

(** [remove_dynamic]: position of the first exact match. *)
Fixpoint remove_scan (k : nat) (it1 : list index) (i j : size_t) : option nat :=
  match it1 with
  | [] => None
  | x :: it1 =>
      if (x.1 =? i) && (x.2 =? j) then Some k
      else remove_scan (S k) it1 i j
  end.

(** [COOImpl.hpp], lines 468-483. *)
Definition remove_dynamic (c : t) (i j : size_t) : outcome (t * bool) :=
  match remove_scan 0 (indexlist c) i j with
  | Some k =>
      _ ← at_ (valueslist c) k;
      Done ({| indexlist := verase k (indexlist c);
               valueslist := verase k (valueslist c) |}, true)
  | None => Done (c, false)
  end.

(** [by_vector_dynamic]. *)
Fixpoint by_vector_scan (indexit : list index) (valuesit : list T) (v result : list T)
    : outcome (list T) :=
  match indexit with
  | [] => Done result
  | x :: indexit =>
      val ← at_ valuesit 0%nat;
      vx ← at_ v (N.to_nat x.2);
      old ← at_ result (N.to_nat x.1);
      result ← put result (N.to_nat x.1) (t_add old (t_mul val vx));
      by_vector_scan indexit (tail valuesit) v result
  end.

(** [COOImpl.hpp], lines 544-558. *)
Definition by_vector_dynamic (d : Dimensions) (c : t) (v : list T) : outcome (list T) :=
  by_vector_scan (indexlist c) (valueslist c) v (replicate (N.to_nat (rows d)) t_zero).
End COO.
End COO.

(** ** [std::map<Key, V, Compare>] *)

(** A map is the list of its elements in iteration order; every operation
    locates a key with the comparison object only, as the tree does. *)
Section std_map.
Context {K V : Type} (comp : K → K → bool).

(** Number of elements that precede [k]. *)
Fixpoint map_lower_bound (m : list (K * V)) (k : K) : nat :=
  match m with
  | [] => 0%nat
  | x :: m => if comp x.1 k then S (map_lower_bound m k) else 0%nat
  end.

(** [m.find(k)]: the position of the element, [None] for [m.end()]. *)
Definition map_find (m : list (K * V)) (k : K) : option nat :=
  let p := map_lower_bound m k in
  match m !! p with
  | Some x => if comp k x.1 then None else Some p
  | None => None
  end.

(** [m[k]]: the map afterwards and the position of the element referred to. *)
Definition map_subscript (dflt : V) (m : list (K * V)) (k : K) : list (K * V) * nat :=
  match map_find m k with
  | Some p => (m, p)
  | None => let p := map_lower_bound m k in (vinsert p (k, dflt) m, p)
  end.

(** [m[k] = v]. *)
Definition map_assign (dflt : V) (m : list (K * V)) (k : K) (v : V) : list (K * V) :=
  let '(m, p) := map_subscript dflt m k in
  alter (fun x => (x.1, v)) p m.

(** [m.erase(k)]: the map afterwards and the number of elements removed. *)
Definition map_erase (m : list (K * V)) (k : K) : list (K * V) * nat :=
  match map_find m k with
  | Some p => (verase p m, 1%nat)
  | None => (m, 0%nat)
  end.
End std_map.

(** ** Implementation/COOmapImpl.hpp *)

Module COOmap.
Section COOmap.
Context {T D : Type} `{!DoubleOps D} `{!NumericOrComplex T D} (SO : StorageOrder).

(** The [valuesmap] behind [matrixptr]. *)
Definition t := list (index * T).

Definition finish_dimensions (BD : option Dimensions)
    (max_index_r max_index_c : size_t) : Dimensions :=
  match BD with
  | Some d => d
  | None => resize {| rows := 0; columns := 0 |}
              (size_add max_index_r 1) (size_add max_index_c 1)
  end.

(** The [for] loop of the triplet constructor. *)
Fixpoint fill_triplets (DEBUG : bool) (BD : option Dimensions)
    (it1 : list index) (it2 : list T)
    (max_index_r max_index_c : size_t) (m : t) : outcome (size_t * size_t * t) :=
  match it1 with
  | [] => Done (max_index_r, max_index_c, m)
  | x :: it1 =>
      _ ← match BD with
          | Some d => assert DEBUG ((x.1 <? rows d) && (x.2 <? columns d)) IndexTooBig
          | None => Done tt
          end;
      _ ← assert DEBUG ((0 <=? x.1) && (0 <=? x.2)) IndexNegative;
      _ ← assert DEBUG (bool_decide (map_find (Comparator SO) m x = None)) Redefinition;
      let max_index_r := if BD is None then N.max max_index_r x.1 else max_index_r in
      let max_index_c := if BD is None then N.max max_index_c x.2 else max_index_c in
      v ← at_ it2 0%nat;
      fill_triplets DEBUG BD it1 (tail it2) max_index_r max_index_c
        (map_assign (Comparator SO) t_zero m x v)
  end.

(** [COOmapImpl.hpp], lines 25-70. *)
Definition from_triplets (DEBUG : bool) (BD : option Dimensions)
    (indexes : list index) (values : list T) : outcome (Dimensions * t) :=
  _ ← assert DEBUG (bool_decide (length indexes = length values)) SizesDontMatch;
  '(max_index_r, max_index_c, m) ← fill_triplets DEBUG BD indexes values 0 0 [];
  Done (finish_dimensions BD max_index_r max_index_c, m).

(** The range-[for] of the map constructor. *)
Fixpoint fill_map (DEBUG : bool) (BD : option Dimensions) (src : list (index * T))
    (max_index_r max_index_c : size_t) (m : t) : outcome (size_t * size_t * t) :=
  match src with
  | [] => Done (max_index_r, max_index_c, m)
  | (key, val) :: src =>
      _ ← match BD with
          | Some d => assert DEBUG ((key.1 <? rows d) && (key.2 <? columns d)) IndexTooBig
          | None => Done tt
          end;
      _ ← assert DEBUG ((0 <=? key.1) && (0 <=? key.2)) IndexNegative;
      let m := map_assign (Comparator SO) t_zero m key val in
      let max_index_r := if BD is None then N.max max_index_r key.1 else max_index_r in
      let max_index_c := if BD is None then N.max max_index_c key.2 else max_index_c in
      fill_map DEBUG BD src max_index_r max_index_c m
  end.

(** [COOmapImpl.hpp], lines 81-110. *)
Definition from_map (DEBUG : bool) (BD : option Dimensions)
    (src : list (index * T)) : outcome (Dimensions * t) :=
  '(max_index_r, max_index_c, m) ← fill_map DEBUG BD src 0 0 [];
  Done (finish_dimensions BD max_index_r max_index_c, m).

(** [COOmapImpl.hpp], lines 119-152. *)
Definition from_file (DEBUG : bool) (f : MatrixMarket T) : outcome (Dimensions * t) :=
  _ ← assert DEBUG (mm_opens f) CannotOpenFile;
  _ ← assert DEBUG (mm_banner f) InvalidMatrixMarket;
  let d := {| rows := mm_rows f; columns := mm_columns f |} in
  let lines := take (N.to_nat (mm_nnz f)) (mm_lines f) in
  let m := foldl (fun m l => map_assign (Comparator SO) t_zero m
                               (size_sub l.1.1 1, size_sub l.1.2 1) l.2) [] lines in
  Done (d, m).

(** [find_dynamic]: the slot is the position of the element in the map.
    ([COOmapImpl.hpp], lines 162-165.) *)
Definition find_dynamic (m : t) (i j : size_t) : outcome (t * nat) :=
  Done (map_subscript (Comparator SO) t_zero m (i, j)).

Definition read_slot (m : t) (k : nat) : outcome T := x ← at_ m k; Done x.2.
Definition write_slot (m : t) (k : nat) (v : T) : outcome t :=
  x ← at_ m k; put m k (x.1, v).

(** [find_dynamic_const]: [const] protects [matrixptr], not the map it
    points to, and the found case goes through [operator[]].
    ([COOmapImpl.hpp], lines 175-181.) *)
Definition find_dynamic_const (m : t) (i j : size_t) : outcome (t * T) :=
  if bool_decide (map_find (Comparator SO) m (i, j) ≠ None) then
    let '(m, p) := map_subscript (Comparator SO) t_zero m (i, j) in
    v ← read_slot m p;
    Done (m, v)
  else Done (m, t_zero).

(** [compress_from_dynamic]; the static [matrixit] is the position [cursor].
    ([COOmapImpl.hpp], lines 191-204.) *)
Definition compress_from_dynamic (first_it : bool) (cursor : nat) (m : t)
    : outcome (nat * ivtuple T) :=
  let cursor := if first_it then 0%nat else cursor in
  x ← at_ m cursor;
  Done (S cursor, (x.1.1, x.1.2, x.2)).

(** [COOmapImpl.hpp], lines 213-219. *)
Definition uncompress_from_triplets (first_it : bool) (cursor : nat)
    (tuple : ivtuple T) (m : t) : outcome (nat * t) :=
  Done (cursor, map_assign (Comparator SO) t_zero m (tuple.1.1, tuple.1.2) tuple.2).

(** [COOmapImpl.hpp], lines 227-230. *)
Definition get_num_elements_dynamic (m : t) : size_t := N.of_nat (length m).

(** [COOmapImpl.hpp], lines 236-239. *)
Definition initialize_dynamic : t := [].

Fixpoint norm_partial_scan (key : index → size_t) (it : t)
    (partial_res : list D) : outcome (list D) :=
  match it with
  | [] => Done partial_res
  | el :: it =>
      old ← at_ partial_res (N.to_nat (key el.1));
      partial_res ← put partial_res (N.to_nat (key el.1)) (d_add old (t_abs el.2));
      norm_partial_scan key it partial_res
  end.

(** [COOmapImpl.hpp], lines 257-285. *)
Definition norm_dynamic (N0 : NormType) (d : Dimensions) (m : t) : outcome D :=
  match N0 with
  | Infinity =>
      partial_res ← norm_partial_scan fst m (replicate (N.to_nat (rows d)) d_zero);
      max_element partial_res
  | One =>
      partial_res ← norm_partial_scan snd m (replicate (N.to_nat (columns d)) d_zero);
      max_element partial_res
  | Frobenius =>
      Done (d_sqrt (foldl (fun sum el => d_add sum (d_mul (t_abs el.2) (t_abs el.2)))
                      d_zero m))
  end.

(** [COOmapImpl.hpp], lines 295-298. *)
Definition remove_dynamic (m : t) (i j : size_t) : outcome (t * bool) :=
  let '(m, n) := map_erase (Comparator SO) m (i, j) in
  Done (m, bool_decide (n ≠ 0%nat)).

Fixpoint by_vector_scan (mapit : t) (v result : list T) : outcome (list T) :=
  match mapit with
  | [] => Done result
  | el :: mapit =>
      vx ← at_ v (N.to_nat el.1.2);
      old ← at_ result (N.to_nat el.1.1);
      result ← put result (N.to_nat el.1.1) (t_add old (t_mul el.2 vx));
      by_vector_scan mapit v result
  end.

(** [COOmapImpl.hpp], lines 352-364. *)
Definition by_vector_dynamic (d : Dimensions) (m : t) (v : list T) : outcome (list T) :=
  by_vector_scan m v (replicate (N.to_nat (rows d)) t_zero).
End COOmap.
End COOmap.

(** ** Implementation/YALEImpl.hpp *)

(** [std::lower_bound(first, last, val)] on positions of [vec], as libstdc++
    computes it: the length [last - first] is signed and the loop runs
    while it is positive, so on a range with [last < first] the result is
    [first]. *)
Fixpoint lower_bound_loop (fuel : nat) (vec : list size_t) (first len : Z)
    (val : size_t) : outcome Z :=
  if decide (0 < len)%Z then
    match fuel with
    | O => UB OutOfFuel
    | S fuel =>
        let half := Z.shiftr len 1 in
        let middle := (first + half)%Z in
        x ← at_ vec (Z.to_nat middle);
        if x <? val
        then lower_bound_loop fuel vec (middle + 1)%Z (len - half - 1)%Z val
        else lower_bound_loop fuel vec first half val
    end
  else Done first.

Definition lower_bound (vec : list size_t) (first last : Z) (val : size_t) : outcome Z :=
  lower_bound_loop (Z.to_nat (last - first)) vec first (last - first)%Z val.

Module YALE.
Section YALE.
Context {T D : Type} `{!DoubleOps D} `{!NumericOrComplex T D} (SO : StorageOrder).

(** The three vectors behind [outerindex_ptr], [innerindex_ptr] and
    [values_ptr]. *)
Record t := {
  outerindex : list size_t;
  innerindex : list size_t;
  values : list T
}.

(** [YALEImpl.hpp], lines 365-373. *)
Definition inner_outer (i j : size_t) : size_t * size_t :=
  match SO with
  | rowMajor => (i, j)
  | columnMajor => (j, i)
  end.

(** The search both lookups start with: the position [lower] and the
    element [*lower]. The offsets are widened to [Z]: [cumulated] and
    [current_line] are [int] in the read-only lookup and [size_t] in the
    other, and the iterator arithmetic is signed in both. *)
Definition search (y : t) (in_ out : size_t) : outcome (Z * size_t) :=
  c ← at_ (innerindex y) (N.to_nat in_);
  n ← at_ (innerindex y) (N.to_nat (size_add in_ 1));
  let cumulated := Z.of_N c in
  let current_line := (Z.of_N n - cumulated)%Z in
  lower ← lower_bound (outerindex y) cumulated (current_line + cumulated - 1)%Z out;
  x ← at_ (outerindex y) (Z.to_nat lower);
  Done (lower, x).

(** [YALEImpl.hpp], lines 125-140. *)
Definition find_compressed_const (y : t) (i j : size_t) : outcome (t * T) :=
  let '(in_, out) := inner_outer i j in
  '(lower, x) ← search y in_ out;
  if x =? out then
    v ← at_ (values y) (Z.to_nat lower);
    Done (y, v)
  else Done (y, t_zero).

(** [find_compressed]; the reference returned is the position in [values].
    ([YALEImpl.hpp], lines 150-182.) *)
Definition find_compressed (d : Dimensions) (y : t) (i j : size_t) : outcome (t * nat) :=
  let '(in_, out) := inner_outer i j in
  '(lower, x) ← search y in_ out;
  if x =? out then
    _ ← at_ (values y) (Z.to_nat lower);
    Done (y, Z.to_nat lower)
  else
    let diff := Z.to_nat lower in
    let pos := if out <? x then diff else S diff in
    if decide (pos ≤ length (values y) ∧ pos ≤ length (outerindex y))%nat then
      let vals := vinsert pos t_zero (values y) in
      let outer := vinsert pos out (outerindex y) in
      inner ← for_each (range (N.to_nat (size_add 1 in_)) (N.to_nat (size_add (rows d) 1)))
                 (fun i inner => a ← at_ inner i; put inner i (size_add a 1))
                 (innerindex y);
      Done ({| outerindex := outer; innerindex := inner; values := vals |}, pos)
    else UB OutOfRange.

Definition read_slot (y : t) (k : nat) : outcome T := at_ (values y) k.
Definition write_slot (y : t) (k : nat) (v : T) : outcome t :=
  vals ← put (values y) k v;
  Done {| outerindex := outerindex y; innerindex := innerindex y; values := vals |}.

(** [uncompress_from_compressed]; the static iterators are the positions
    [(innerit, outerit, valuesit)].
    ([YALEImpl.hpp], lines 191-222.) *)
Definition uncompress_from_compressed (first_it : bool) (cursor : nat * nat * nat)
    (y : t) : outcome (nat * nat * nat * ivtuple T) :=
  let '(innerit, outerit, valuesit) := if first_it then (0, 0, 0)%nat else cursor in
  let next := S innerit in
  o ← at_ (outerindex y) outerit;
  v ← at_ (values y) valuesit;
  let tuple : ivtuple T :=
    match SO with
    | rowMajor => (N.of_nat innerit, o, v)
    | columnMajor => (o, N.of_nat innerit, v)
    end in
  let outerit := S outerit in
  let valuesit := S valuesit in
  nx ← at_ (innerindex y) next;
  let innerit := if nx <=? N.of_nat valuesit then S innerit else innerit in
  Done (innerit, outerit, valuesit, tuple).

(** The running sum of the last iteration: [*next += *prev]. *)
Fixpoint running_sum (prev : size_t) (next : list size_t) : list size_t :=
  match next with
  | [] => []
  | x :: next => let x := size_add x prev in x :: running_sum x next
  end.

(** [YALEImpl.hpp], lines 232-255. *)
Definition compress_from_triplets (last_it : bool) (tuple : ivtuple T) (y : t)
    : outcome t :=
  let '(line, out) := inner_outer tuple.1.1 tuple.1.2 in
  a ← at_ (innerindex y) (N.to_nat (size_add line 1));
  inner ← put (innerindex y) (N.to_nat (size_add line 1)) (size_add a 1);
  let outer := outerindex y ++ [out] in
  let vals := values y ++ [tuple.2] in
  inner ← (if last_it then
             match inner with
             | [] => UB OutOfRange
             | x :: next => Done (x :: running_sum x next)
             end
           else Done inner);
  Done {| outerindex := outer; innerindex := inner; values := vals |}.

(** [YALEImpl.hpp], lines 263-266. *)
Definition get_num_elements_compressed (y : t) : size_t := N.of_nat (length (values y)).

(** [YALEImpl.hpp], lines 276-286. *)
Definition initialize_compressed (insize outsize valsize : size_t) : t :=
  {| outerindex := []; innerindex := replicate (N.to_nat insize) 0; values := [] |}.

Definition norm_par (size : size_t) (y : t) : outcome D :=
  par ← for_each (range 0 (length (values y)))
           (fun i par =>
              o ← at_ (outerindex y) i;
              v ← at_ (values y) i;
              old ← at_ par (N.to_nat o);
              put par (N.to_nat o) (d_add old (t_abs v)))
           (replicate (N.to_nat size) d_zero);
  max_element par.

(** The inner loop of the line norm: [it] runs from [begin + from] until
    it equals [begin + to], adding the magnitude it points to. *)
Fixpoint norm_line (fuel : nat) (vals : list T) (it to : nat) (sum : D) : outcome D :=
  if decide (it = to) then Done sum else
  match fuel with
  | O => UB OutOfFuel
  | S fuel => v ← at_ vals it; norm_line fuel vals (S it) to (d_add sum (t_abs v))
  end.

(** [YALEImpl.hpp], lines 307-355. *)
Definition norm_compressed (N0 : NormType) (d : Dimensions) (y : t) : outcome D :=
  match N0, SO with
  | One, rowMajor => norm_par (columns d) y
  | Infinity, columnMajor => norm_par (rows d) y
  | Infinity, rowMajor | One, columnMajor =>
      for_each (range 1 (length (innerindex y)))
        (fun k res =>
           cumulated ← at_ (innerindex y) k;
           from ← at_ (innerindex y) (k - 1);
           sum ← norm_line (S (length (values y))) (values y)
                   (N.to_nat from) (N.to_nat cumulated) d_zero;
           Done (std_max res sum))
        d_zero
  | Frobenius, _ =>
      Done (d_sqrt (foldl (fun sum el => d_add sum (d_mul (t_abs el) (t_abs el)))
                      d_zero (values y)))
  end.

(** [remove_compressed]: the first position of the line holding [out]. *)
Fixpoint remove_scan (outer_indices : list size_t) (ks : list nat) (out : size_t)
    : outcome (option nat) :=
  match ks with
  | [] => Done None
  | k :: ks =>
      current_outer_index ← at_ outer_indices k;
      if current_outer_index =? out then Done (Some k)
      else remove_scan outer_indices ks out
  end.

(** [YALEImpl.hpp], lines 383-417. *)
Definition remove_compressed (y : t) (i j : size_t) : outcome (t * bool) :=
  let '(inner_index_to_find, outer_index_to_find) := inner_outer i j in
  row_start ← at_ (innerindex y) (N.to_nat inner_index_to_find);
  row_end ← at_ (innerindex y) (N.to_nat (size_add inner_index_to_find 1));
  found ← remove_scan (outerindex y) (range (N.to_nat row_start) (N.to_nat row_end))
            outer_index_to_find;
  match found with
  | Some k =>
      if decide (k < length (values y))%nat then
        inner ← for_each (range (N.to_nat (size_add inner_index_to_find 1))
                            (length (innerindex y)))
                   (fun l inner => a ← at_ inner l; put inner l (size_sub a 1))
                   (innerindex y);
        Done ({| outerindex := verase k (outerindex y); innerindex := inner;
                 values := verase k (values y) |}, true)
      else UB OutOfRange
  | None => Done (y, false)
  end.

(** [YALEImpl.hpp], lines 449-477. *)
Definition by_vector_compressed (d : Dimensions) (y : t) (v : list T) : outcome (list T) :=
  let num_rows := rows d in
  for_each (range 0 (N.to_nat num_rows))
    (fun i result =>
       start ← at_ (innerindex y) i;
       end_ ← at_ (innerindex y) (S i);
       for_each (range (N.to_nat start) (N.to_nat end_))
         (fun j result =>
            outer_index ← at_ (outerindex y) j;
            value ← at_ (values y) j;
            match SO with
            | rowMajor =>
                vx ← at_ v (N.to_nat outer_index);
                old ← at_ result i;
                put result i (t_add old (t_mul value vx))
            | columnMajor =>
                vx ← at_ v i;
                old ← at_ result (N.to_nat outer_index);
                put result (N.to_nat outer_index) (t_add old (t_mul value vx))
            end)
         result)
    (replicate (N.to_nat num_rows) t_zero).

(** The inner [while] of the constructor: the elements of [in] from
    [inner_it] on are copied for as long as they do not exceed [pos], the
    number of entries read so far; [rest] is what [inner_it] has before it. *)
Fixpoint copy_inner (rest : list size_t) (pos : size_t) (inner_it : nat)
    (inner : list size_t) : nat * list size_t :=
  match rest with
  | [] => (inner_it, inner)
  | x :: rest =>
      if x <=? pos then copy_inner rest pos (S inner_it) (inner ++ [x])
      else (inner_it, inner)
  end.

(** The [while] loop of the constructor over [val]. The three iterators
    are positions: [outer_it] and [val_it] advance together and are [pos],
    [inner_it] is a position in [in]. Both "too big" assertions abort with
    [IndexTooBig]. *)
Fixpoint from_arrays_loop (DEBUG : bool) (BD : option Dimensions)
    (out in_ : list size_t) (val_it : list T) (pos inner_it : nat)
    (max_size_outer : size_t) (y : t) : outcome (size_t * t) :=
  match val_it with
  | [] => Done (max_size_outer, y)
  | v :: val_it =>
      _ ← (if DEBUG then
             o ← at_ out pos;
             _ ← match BD with
                 | Some d =>
                     assert true (o <? match SO with
                                       | rowMajor => columns d
                                       | columnMajor => rows d
                                       end) IndexTooBig
                 | None => Done tt
                 end;
             i ← at_ in_ inner_it;
             _ ← assert true (i <=? N.of_nat (length out)) IndexTooBig;
             _ ← assert true ((0 <=? o) && (0 <=? i)) IndexNegative;
             if decide (pos ≠ 0)%nat then
               prev_outer ← at_ out (pos - 1);
               prev_inner ← (if decide (inner_it = 0)%nat then UB OutOfRange
                             else at_ in_ (inner_it - 1));
               assert true ((prev_outer <? o) || (prev_inner <=? N.of_nat pos)) Redefinition
             else Done tt
           else Done tt);
      o ← at_ out pos;
      let max_size_outer := if BD is None then N.max max_size_outer o else max_size_outer in
      let '(inner_it, inner) :=
        copy_inner (drop inner_it in_) (N.of_nat (S pos)) inner_it (innerindex y) in
      from_arrays_loop DEBUG BD out in_ val_it (S pos) inner_it max_size_outer
        {| outerindex := outerindex y ++ [o]; innerindex := inner;
           values := values y ++ [v] |}
  end.

(** [YALE(std::bool_constant<B>, out, in, val)]; [BD] is [Some d] when [B]
    is true and the base was built by [Dimensions(r, c)].
    ([YALEImpl.hpp], lines 24-114.) *)
Definition from_arrays (DEBUG : bool) (BD : option Dimensions)
    (out in_ : list size_t) (val : list T) : outcome (Dimensions * t) :=
  let inner_index_size := N.of_nat (length in_) in
  _ ← assert DEBUG (bool_decide (length out = length val)) SizesDontMatch;
  _ ← match BD with
      | Some d =>
          assert DEBUG (inner_index_size =? size_add (match SO with
                                                      | rowMajor => rows d
                                                      | columnMajor => columns d
                                                      end) 1) SizesDontMatch
      | None => Done tt
      end;
  '(max_size_outer, y) ←
    from_arrays_loop DEBUG BD out in_ val 0 0 0
      {| outerindex := []; innerindex := []; values := [] |};
  Done (match BD, SO with
        | Some d, _ => d
        | None, rowMajor =>
            resize {| rows := 0; columns := 0 |}
              (size_sub inner_index_size 1) (size_add max_size_outer 1)
        | None, columnMajor =>
            resize {| rows := 0; columns := 0 |}
              (size_add max_size_outer 1) (size_sub inner_index_size 1)
        end, y).
End YALE.
End YALE.

(** ** Matrix.hpp, Implementation/MatrixImpl.hpp *)

(** What [Matrix<T, Compressed, Dynamic, S>] asks of [Dynamic<T, S>]. *)
Class Dynamic (SO : StorageOrder) (T D Dyn : Type) := {
  from_triplets : bool → option Dimensions → list index → list T → outcome (Dimensions * Dyn);
  from_map : bool → option Dimensions → list (index * T) → outcome (Dimensions * Dyn);
  from_file : bool → MatrixMarket T → outcome (Dimensions * Dyn);
  find_dynamic_const : Dyn → size_t → size_t → outcome (Dyn * T);
  find_dynamic : Dyn → size_t → size_t → outcome (Dyn * nat);
  read_slot_dynamic : Dyn → nat → outcome T;
  write_slot_dynamic : Dyn → nat → T → outcome Dyn;
  compress_from_dynamic : bool → nat → Dyn → outcome (nat * ivtuple T);
  uncompress_from_triplets : bool → nat → ivtuple T → Dyn → outcome (nat * Dyn);
  get_num_elements_dynamic : Dyn → size_t;
  initialize_dynamic : Dyn;
  norm_dynamic : NormType → Dimensions → Dyn → outcome D;
  remove_dynamic : Dyn → size_t → size_t → outcome (Dyn * bool);
  by_vector_dynamic : Dimensions → Dyn → list T → outcome (list T)
}.

#[global] Instance COO_Dynamic {T D} `{!DoubleOps D} `{!NumericOrComplex T D}
    (SO : StorageOrder) : Dynamic SO T D (@COO.t T) := {|
  from_triplets := COO.from_triplets SO;
  from_map := COO.from_map SO;
  from_file := COO.from_file SO;
  find_dynamic_const := COO.find_dynamic_const SO;
  find_dynamic := COO.find_dynamic SO;
  read_slot_dynamic := COO.read_slot;
  write_slot_dynamic := COO.write_slot;
  compress_from_dynamic := COO.compress_from_dynamic;
  uncompress_from_triplets := COO.uncompress_from_triplets;
  get_num_elements_dynamic := COO.get_num_elements_dynamic;
  initialize_dynamic := COO.initialize_dynamic;
  norm_dynamic := COO.norm_dynamic SO;
  remove_dynamic := COO.remove_dynamic;
  by_vector_dynamic := COO.by_vector_dynamic
|}.

#[global] Instance COOmap_Dynamic {T D} `{!DoubleOps D} `{!NumericOrComplex T D}
    (SO : StorageOrder) : Dynamic SO T D (@COOmap.t T) := {|
  from_triplets := COOmap.from_triplets SO;
  from_map := COOmap.from_map SO;
  from_file := COOmap.from_file SO;
  find_dynamic_const := COOmap.find_dynamic_const SO;
  find_dynamic := COOmap.find_dynamic SO;
  read_slot_dynamic := COOmap.read_slot;
  write_slot_dynamic := COOmap.write_slot;
  compress_from_dynamic := COOmap.compress_from_dynamic;
  uncompress_from_triplets := COOmap.uncompress_from_triplets SO;
  get_num_elements_dynamic := COOmap.get_num_elements_dynamic;
  initialize_dynamic := COOmap.initialize_dynamic;
  norm_dynamic := COOmap.norm_dynamic;
  remove_dynamic := COOmap.remove_dynamic SO;
  by_vector_dynamic := COOmap.by_vector_dynamic
|}.

Module Matrix.
Section Matrix.
Context {T D Dyn : Type} `{!DoubleOps D} `{!NumericOrComplex T D}.
Context (SO : StorageOrder) `{!Dynamic SO T D Dyn}.

(** [Matrix<T, YALE, Dynamic, S>]: the virtual base, the two storages
    ([None] while the pointers are null) and the flag ([None] until a
    first write). *)
Record t := {
  dims : Dimensions;
  compressed : option (@YALE.t T);
  dynamic : option Dyn;
  isCompressed : option bool
}.

Definition flag (m : t) : outcome bool :=
  match isCompressed m with
  | Some b => Done b
  | None => UB Indeterminate
  end.

(** [Matrix(UseDynamic, indexes, values)] and, with [rc],
    [Matrix(UseDynamic, r, c, indexes, values)].
    ([MatrixImpl.hpp], lines 18-41 and 63-105.) *)
Definition of_triplets (DEBUG : bool) (rc : option (size_t * size_t))
    (indexes : list index) (values : list T) : outcome t :=
  let BD := given_dimensions rc in
  '(d, dyn) ← from_triplets DEBUG BD indexes values;
  Done {| dims := d; compressed := None; dynamic := Some dyn; isCompressed := Some false |}.

(** [Matrix(UseDynamic, map)] and [Matrix(UseDynamic, r, c, map)].
    ([MatrixImpl.hpp], lines 18-41 and 63-105.) *)
Definition of_map (DEBUG : bool) (rc : option (size_t * size_t))
    (src : list (index * T)) : outcome t :=
  let BD := given_dimensions rc in
  '(d, dyn) ← from_map DEBUG BD src;
  Done {| dims := d; compressed := None; dynamic := Some dyn; isCompressed := Some false |}.

(** [Matrix(std::string& file_name)]: the body is empty.
    ([MatrixImpl.hpp], lines 111-113.) *)
Definition of_file (DEBUG : bool) (f : MatrixMarket T) : outcome t :=
  '(d, dyn) ← from_file DEBUG f;
  Done {| dims := d; compressed := None; dynamic := Some dyn; isCompressed := None |}.

(** [Matrix(UseCompressed, out, in, val)] and, with [rc],
    [Matrix(UseCompressed, r, c, out, in, val)]; the dynamic side is
    default-constructed, its pointers are null.
    ([MatrixImpl.hpp], lines 49-55 and 79-87.) *)
Definition of_compressed (DEBUG : bool) (rc : option (size_t * size_t))
    (out in_ : list size_t) (val : list T) : outcome t :=
  let BD := given_dimensions rc in
  '(d, y) ← YALE.from_arrays SO DEBUG BD out in_ val;
  Done {| dims := d; compressed := Some y; dynamic := None; isCompressed := Some true |}.

Definition in_bounds (m : t) (i j : size_t) : bool :=
  (i <? rows (dims m)) && (j <? columns (dims m)) && (0 <=? i) && (0 <=? j).

(** [T operator()(i, j) const]. ([MatrixImpl.hpp], lines 121-133.) *)
Definition call_const (DEBUG : bool) (m : t) (i j : size_t) : outcome (t * T) :=
  _ ← assert DEBUG (in_bounds m i j) CallOutOfBounds;
  b ← flag m;
  if negb b then
    dyn ← deref (dynamic m);
    '(dyn, v) ← find_dynamic_const dyn i j;
    Done ({| dims := dims m; compressed := compressed m; dynamic := Some dyn;
             isCompressed := isCompressed m |}, v)
  else
    y ← deref (compressed m);
    '(y, v) ← YALE.find_compressed_const SO y i j;
    Done ({| dims := dims m; compressed := Some y; dynamic := dynamic m;
             isCompressed := isCompressed m |}, v).

(** [T& operator()(i, j)]: the matrix afterwards and the slot referred to.
    ([MatrixImpl.hpp], lines 142-154.) *)
Definition call (DEBUG : bool) (m : t) (i j : size_t) : outcome (t * nat) :=
  _ ← assert DEBUG (in_bounds m i j) CallOutOfBounds;
  b ← flag m;
  if negb b then
    dyn ← deref (dynamic m);
    '(dyn, k) ← find_dynamic dyn i j;
    Done ({| dims := dims m; compressed := compressed m; dynamic := Some dyn;
             isCompressed := isCompressed m |}, k)
  else
    y ← deref (compressed m);
    '(y, k) ← YALE.find_compressed SO (dims m) y i j;
    Done ({| dims := dims m; compressed := Some y; dynamic := dynamic m;
             isCompressed := isCompressed m |}, k).

(** The statement [m(i, j) = v]. *)
Definition assign (DEBUG : bool) (m : t) (i j : size_t) (v : T) : outcome t :=
  '(m, k) ← call DEBUG m i j;
  b ← flag m;
  if negb b then
    dyn ← deref (dynamic m);
    dyn ← write_slot_dynamic dyn k v;
    Done {| dims := dims m; compressed := compressed m; dynamic := Some dyn;
            isCompressed := isCompressed m |}
  else
    y ← deref (compressed m);
    y ← YALE.write_slot y k v;
    Done {| dims := dims m; compressed := Some y; dynamic := dynamic m;
            isCompressed := isCompressed m |}.

(** [MatrixImpl.hpp], lines 159-160. *)
Definition is_compressed (m : t) : outcome bool := flag m.

(** [MatrixImpl.hpp], lines 166-174. *)
Definition get_num_elements (m : t) : outcome size_t :=
  b ← flag m;
  if negb b then dyn ← deref (dynamic m); Done (get_num_elements_dynamic dyn)
  else y ← deref (compressed m); Done (YALE.get_num_elements_compressed y).

Definition resize (m : t) (r c : size_t) : t :=
  {| dims := resize (dims m) r c; compressed := compressed m; dynamic := dynamic m;
     isCompressed := isCompressed m |}.

(** [compress()]. The state of the loop is the cursor of
    [compress_from_dynamic] and the compressed storage being filled.
    ([MatrixImpl.hpp], lines 180-206.) *)
Definition compress (DEBUG : bool) (m : t) : outcome t :=
  b ← flag m;
  _ ← assert DEBUG (bool_decide (b = false)) AlreadyCompressed;
  num_elements ← get_num_elements m;
  let lines := match SO with
               | rowMajor => get_rows (dims m)
               | columnMajor => get_columns (dims m)
               end in
  let y := YALE.initialize_compressed (size_add lines 1) num_elements num_elements in
  '(_, y) ← for_each (range 0 (N.to_nat num_elements))
              (fun i '(cursor, y) =>
                 dyn ← deref (dynamic m);
                 '(cursor, tuple) ← compress_from_dynamic (bool_decide (i = 0%nat)) cursor dyn;
                 y ← YALE.compress_from_triplets SO
                       (bool_decide (N.of_nat i = size_sub num_elements 1)) tuple y;
                 Done (cursor, y))
              (0%nat, y);
  Done {| dims := dims m; compressed := Some y; dynamic := None; isCompressed := Some true |}.

(** [uncompress()]. The state of the loop is the cursors of both sides
    and the dynamic storage being filled.
    ([MatrixImpl.hpp], lines 212-232.) *)
Definition uncompress (DEBUG : bool) (m : t) : outcome t :=
  b ← flag m;
  _ ← assert DEBUG (bool_decide (b = true)) AlreadyUncompressed;
  num_elements ← get_num_elements m;
  '(_, _, dyn) ← for_each (range 0 (N.to_nat num_elements))
              (fun i '(ycursor, dcursor, dyn) =>
                 y ← deref (compressed m);
                 '(ycursor, tuple) ← YALE.uncompress_from_compressed SO
                                        (bool_decide (i = 0%nat)) ycursor y;
                 '(dcursor, dyn) ← uncompress_from_triplets
                                      (bool_decide (i = 0%nat)) dcursor tuple dyn;
                 Done (ycursor, dcursor, dyn))
              ((0, 0, 0)%nat, 0%nat, initialize_dynamic);
  Done {| dims := dims m; compressed := None; dynamic := Some dyn; isCompressed := Some false |}.

(** [MatrixImpl.hpp], lines 239-248. *)
Definition norm (N0 : NormType) (m : t) : outcome D :=
  b ← flag m;
  if negb b then dyn ← deref (dynamic m); norm_dynamic N0 (dims m) dyn
  else y ← deref (compressed m); YALE.norm_compressed SO N0 (dims m) y.

(** [MatrixImpl.hpp], lines 256-268. *)
Definition remove (DEBUG : bool) (m : t) (i j : size_t) : outcome (t * bool) :=
  _ ← assert DEBUG (in_bounds m i j) CallOutOfBounds;
  b ← flag m;
  if negb b then
    dyn ← deref (dynamic m);
    '(dyn, r) ← remove_dynamic dyn i j;
    Done ({| dims := dims m; compressed := compressed m; dynamic := Some dyn;
             isCompressed := isCompressed m |}, r)
  else
    y ← deref (compressed m);
    '(y, r) ← YALE.remove_compressed SO y i j;
    Done ({| dims := dims m; compressed := Some y; dynamic := dynamic m;
             isCompressed := isCompressed m |}, r).

(** [operator*(m, v)]. ([MatrixImpl.hpp], lines 290-303.) *)
Definition times (DEBUG : bool) (m : t) (v : list T) : outcome (list T) :=
  _ ← assert DEBUG (bool_decide (columns (dims m) = N.of_nat (length v))) NonMatchingDimensions;
  b ← flag m;
  if negb b then dyn ← deref (dynamic m); by_vector_dynamic (dims m) dyn v
  else y ← deref (compressed m); YALE.by_vector_compressed SO (dims m) y v.
End Matrix.
End Matrix.

(** ** The scalar type [int] *)

(** [double] restricted to the integers it represents exactly: sums,
    products and comparisons of such values are exact; [d_sqrt] is exact on
    perfect squares. *)
#[global] Instance Z_double : DoubleOps Z := {|
  d_zero := 0%Z; d_add := Z.add; d_mul := Z.mul; d_ltb := Z.ltb; d_sqrt := Z.sqrt
|}.
#[global] Instance int_numeric : NumericOrComplex Z Z := {|
  t_zero := 0%Z; t_add := Z.add; t_mul := Z.mul; t_abs := Z.abs
|}.

(** ** The invariants of the compressed format, as the specification words
    them (section 3) *)

Fixpoint non_decreasing (l : list size_t) : bool :=
  match l with
  | x :: (y :: _) as l' => (x <=? y) && non_decreasing l'
  | _ => true
  end.

Fixpoint strictly_ascending (l : list size_t) : bool :=
  match l with
  | x :: (y :: _) as l' => (x <? y) && strictly_ascending l'
  | _ => true
  end.

(** The slice of [outer] that belongs to line [l]. *)
Definition line_slice {T} (y : @YALE.t T) (l : nat) : list size_t :=
  let start := N.to_nat (YALE.innerindex y !!! l) in
  let stop := N.to_nat (YALE.innerindex y !!! S l) in
  take (stop - start) (drop start (YALE.outerindex y)).

(** [lineStart] is non-decreasing, [lineStart[0] = 0], the last entry of
    [lineStart] is [values.length]; within the slice of each line the outer
    indices are strictly ascending. *)
Definition compressed_invariants {T} (y : @YALE.t T) : bool :=
  non_decreasing (YALE.innerindex y)
  && bool_decide (YALE.innerindex y !! 0%nat = Some 0)
  && bool_decide (last (YALE.innerindex y) = Some (N.of_nat (length (YALE.values y))))
  && forallb (fun l => strictly_ascending (line_slice y l))
       (seq 0 (length (YALE.innerindex y) - 1)).



(** ** Matrices used below: [Matrix<int, YALE, COO, S>] and
    [Matrix<int, YALE, COOmap, S>] in a DEBUG build *)

Module Examples.
Definition build (Dyn : Type) (SO : StorageOrder) `{!Dynamic SO Z Z Dyn}
    (rc : option (size_t * size_t)) (indexes : list index) (values : list Z)
    : outcome (@Matrix.t Z Dyn) :=
  Matrix.of_triplets SO true rc indexes values.

(** Rows 0 and 2 hold one entry each, row 1 holds none. *)
Definition gap (Dyn : Type) `{!Dynamic rowMajor Z Z Dyn} :=
  build Dyn rowMajor None [(0, 0); (2, 0)] [1; 5]%Z.

(** Two rows, one column; the second row holds no entry. *)
Definition tail_gap (Dyn : Type) `{!Dynamic rowMajor Z Z Dyn} :=
  build Dyn rowMajor (Some (2, 1)) [(0, 0)] [1]%Z.

(** One row, two columns, stored by columns. *)
Definition wide (Dyn : Type) `{!Dynamic columnMajor Z Z Dyn} :=
  build Dyn columnMajor None [(0, 0); (0, 1)] [1; 2]%Z.

(** Two rows, three columns, stored by columns; the second row is empty,
    no column is. *)
Definition wide3 (Dyn : Type) `{!Dynamic columnMajor Z Z Dyn} :=
  build Dyn columnMajor (Some (2, 3)) [(0, 0); (0, 1); (0, 2)] [1; 2; 3]%Z.

(** Three rows and columns, stored by rows; row 1 is empty. *)
Definition gap3 (Dyn : Type) `{!Dynamic rowMajor Z Z Dyn} :=
  build Dyn rowMajor (Some (3, 3)) [(0, 0); (2, 1)] [1; 5]%Z.

(** Row 2 holds two entries, row 1 none. *)
Definition split_row (Dyn : Type) `{!Dynamic rowMajor Z Z Dyn} :=
  build Dyn rowMajor None [(0, 0); (2, 0); (2, 1)] [1; 3; 4]%Z.

(** A 2x2 file with the entries (1,1) = 1 and (2,2) = 5. *)
Definition diagonal_file : MatrixMarket Z :=
  {| mm_opens := true; mm_banner := true; mm_rows := 2; mm_columns := 2;
     mm_nnz := 2; mm_lines := [(1, 1, 1%Z); (2, 2, 5%Z)] |}.
End Examples.

(** ** The inferred dimensions, as the specification words them
    (section 4.2): the maximum row and the maximum column over the input *)

Definition max_row (indexes : list index) : size_t :=
  foldr (fun x acc => N.max x.1 acc) 0 indexes.
Definition max_col (indexes : list index) : size_t :=
  foldr (fun x acc => N.max x.2 acc) 0 indexes.

(** A coordinate lies within the dimensions given to a constructor, if any
    were given. *)
Definition fits (BD : option Dimensions) (x : index) : Prop :=
  match BD with
  | Some d => x.1 < rows d ∧ x.2 < columns d
  | None => True
  end.

(** The elements of a map are in strictly ascending order of their keys. *)
Definition map_sorted {V} (SO : StorageOrder) (m : list (index * V)) : Prop :=
  StronglySorted (fun a b => Comparator SO a.1 b.1 = true) m.

(** ** Invariants of [apply_permutation], used in its proof *)

Section permutation_invariants.
Context {A : Type} (vec0 : list A) (p : list nat).

(** Positions the outer loop has not marked yet. *)
Definition pending (done : list bool) : nat :=
  length (filter (fun b => b = false) done).

(** Between two rounds of the outer loop: a marked position holds its final
    element, an unmarked one its initial element, and the marked positions
    are closed under [p] in both directions. *)
Record outer_inv (vec : list A) (done : list bool) : Prop := {
  oi_len_vec : length vec = length vec0;
  oi_len_done : length done = length vec0;
  oi_moved : ∀ k x, done !! k = Some true → p !! k = Some x → vec !! k = vec0 !! x;
  oi_kept : ∀ k, done !! k = Some false → vec !! k = vec0 !! k;
  oi_fwd : ∀ k x, done !! k = Some true → p !! k = Some x → done !! x = Some true;
  oi_bwd : ∀ x, done !! x = Some true → ∃ k, p !! k = Some x ∧ done !! k = Some true
}.

(** At the head of the inner loop started at [i]: position [prev_j] holds
    the initial element of [i] and is the only marked position that does
    not hold its final element. *)
Record cycle_inv (i prev_j j : nat) (vec : list A) (done : list bool) : Prop := {
  ci_len_vec : length vec = length vec0;
  ci_len_done : length done = length vec0;
  ci_start : done !! i = Some true;
  ci_prev : done !! prev_j = Some true;
  ci_next : p !! prev_j = Some j;
  ci_moved : ∀ k x, k ≠ prev_j → done !! k = Some true → p !! k = Some x →
                    vec !! k = vec0 !! x;
  ci_hole : vec !! prev_j = vec0 !! i;
  ci_kept : ∀ k, done !! k = Some false → vec !! k = vec0 !! k;
  ci_fwd : ∀ k x, k ≠ prev_j → done !! k = Some true → p !! k = Some x →
                  done !! x = Some true;
  ci_bwd : ∀ x, x ≠ i → done !! x = Some true →
                ∃ k, k ≠ prev_j ∧ p !! k = Some x ∧ done !! k = Some true
}.
End permutation_invariants.

(** ** Vocabulary of the statements about stored entries *)

(** The coordinates are in strictly ascending storage order. *)
Definition ascending (SO : StorageOrder) (il : list index) : Prop :=
  StronglySorted (fun a b => Comparator SO a b = true) il.

(** The entries of the list backend: coordinate and value, position by
    position. *)
Definition entries {T} (c : @COO.t T) : list (index * T) :=
  zip (COO.indexlist c) (COO.valueslist c).

(** The dimensions a constructor ends with: the given ones, or one more
    than the greatest row and column of the input. *)
Definition constructed_dimensions (BD : option Dimensions) (indexes : list index)
    : Dimensions :=
  match BD with
  | Some d => d
  | None => {| rows := size_add (max_row indexes) 1;
               columns := size_add (max_col indexes) 1 |}
  end.

(** The value a map with the elements [m] holds under [k]: the one of the
    element [find] returns, [T{}] where it returns [end()]. *)
Definition map_value {T D} `{!NumericOrComplex T D} (SO : StorageOrder)
    (m : list (index * T)) (k : index) : T :=
  match map_find (Comparator SO) m k with
  | Some p => match m !! p with Some x => x.2 | None => t_zero end
  | None => t_zero
  end.

(** The value an outcome carries, without the state that comes with it. *)
Definition result {St A} (o : outcome (St * A)) : outcome A := r ← o; Done r.2.

(** A matrix in dynamic state over the storage [c]. *)
Definition dynamic_state {T Dyn} (m : @Matrix.t T Dyn) (c : Dyn) : Prop :=
  Matrix.isCompressed m = Some false ∧ Matrix.dynamic m = Some c.

(** The two lists of the list backend have the same length. *)
Definition aligned {T} (c : @COO.t T) : Prop :=
  length (COO.indexlist c) = length (COO.valueslist c).

(** What the facade needs to know of a dynamic backend: on the storages
    that satisfy [wf] it behaves as the association list [ent], kept in
    storage order and searched as [std::map] searches. *)
Class AssociationList (SO : StorageOrder) {T D Dyn : Type} `{!DoubleOps D}
    `{!NumericOrComplex T D} `{!Dynamic SO T D Dyn}
    (ent : Dyn → list (index * T)) (wf : Dyn → Prop) : Prop := {
  law_const : ∀ c i j, wf c →
    find_dynamic_const c i j = Done (c, map_value SO (ent c) (i, j));
  law_find : ∀ c i j, wf c →
    ∃ c', find_dynamic c i j
            = Done (c', (map_subscript (Comparator SO) t_zero (ent c) (i, j)).2)
          ∧ ent c' = (map_subscript (Comparator SO) t_zero (ent c) (i, j)).1 ∧ wf c';
  law_read : ∀ c k, wf c →
    read_slot_dynamic c k = x ← at_ (ent c) k; Done x.2;
  law_write : ∀ c k v, wf c → (k < length (ent c))%nat →
    ∃ c', write_slot_dynamic c k v = Done c'
          ∧ ent c' = alter (fun x => (x.1, v)) k (ent c) ∧ wf c';
  law_remove : ∀ c i j, wf c → map_sorted SO (ent c) →
    ∃ c', remove_dynamic c i j
            = Done (c', bool_decide ((map_erase (Comparator SO) (ent c) (i, j)).2 ≠ 0%nat))
          ∧ ent c' = (map_erase (Comparator SO) (ent c) (i, j)).1 ∧ wf c';
  law_count : ∀ c, wf c → get_num_elements_dynamic c = N.of_nat (length (ent c));
  law_compress : ∀ c first_it cursor, wf c →
    compress_from_dynamic first_it cursor c
    = (let k := if (first_it : bool) then 0%nat else cursor in
       e ← at_ (ent c) k; Done (S k, (e.1.1, e.1.2, e.2)));
  law_by_vector : ∀ c d v, wf c →
    by_vector_dynamic d c v = COOmap.by_vector_dynamic d (ent c) v;
  law_norm : ∀ c d N0, wf c →
    match N0, SO with
    | Infinity, rowMajor | One, columnMajor => True
    | _, _ => norm_dynamic N0 d c = COOmap.norm_dynamic N0 d (ent c)
    end;
  law_initialize : wf initialize_dynamic ∧ ent initialize_dynamic = [];
  law_uncompress : ∃ cur : nat → Dyn → Prop,
    ∀ (first_it : bool) cursor k v c,
      wf c → (if first_it then ent c = [] else cur cursor c) →
      map_sorted SO (ent c ++ [(k, v)]) →
      ∃ cursor' c',
        uncompress_from_triplets first_it cursor (k.1, k.2, v) c = Done (cursor', c')
        ∧ ent c' = ent c ++ [(k, v)] ∧ wf c' ∧ cur cursor' c'
}.

(** The line of a coordinate (its row under row-major storage, its column
    under column-major storage) and its place within the line. *)
Definition line_index (SO : StorageOrder) (x : index) : size_t :=
  (YALE.inner_outer SO x.1 x.2).1.
Definition outer_index (SO : StorageOrder) (x : index) : size_t :=
  (YALE.inner_outer SO x.1 x.2).2.

(** The number of lines of a matrix. *)
Definition num_lines (SO : StorageOrder) (d : Dimensions) : size_t :=
  match SO with
  | rowMajor => get_rows d
  | columnMajor => get_columns d
  end.

(** How many of the coordinates [keys] lie in line [l], and how many in
    the lines before [l]. *)
Definition line_count (SO : StorageOrder) (keys : list index) (l : nat) : nat :=
  length (filter (fun x => line_index SO x = N.of_nat l) keys).
Definition line_start (SO : StorageOrder) (keys : list index) (l : nat) : nat :=
  length (filter (fun x => line_index SO x < N.of_nat l) keys).

(** The compressed arrays of the entries [es] of a matrix with [lines]
    lines: the outer indices and the values in the order of [es], and for
    every line the number of entries in the lines before it. *)
Definition csr {T} (SO : StorageOrder) (lines : size_t) (es : list (index * T))
    : @YALE.t T :=
  {| YALE.outerindex := (fun e => outer_index SO e.1) <$> es;
     YALE.innerindex :=
       (fun l => N.of_nat (line_start SO es.*1 l)) <$> seq 0 (S (N.to_nat lines));
     YALE.values := es.*2 |}.

(** The arrays [compress()] holds before the running sum of its last
    round: for every line the number of entries in it, one place up. *)
Definition tally {T} (SO : StorageOrder) (lines : size_t) (es : list (index * T))
    : @YALE.t T :=
  {| YALE.outerindex := (fun e => outer_index SO e.1) <$> es;
     YALE.innerindex :=
       0 :: ((fun l => N.of_nat (line_count SO es.*1 l)) <$> seq 0 (N.to_nat lines));
     YALE.values := es.*2 |}.

(** No empty line comes before a stored entry: every line before the line
    of a coordinate of [keys] holds a coordinate of [keys]. *)
Definition no_line_skipped (SO : StorageOrder) (keys : list index) : Prop :=
  ∀ (l : nat) (x : index), x ∈ keys → N.of_nat l < line_index SO x →
    ∃ y, y ∈ keys ∧ line_index SO y = N.of_nat l.

(** What the product adds to [result] for one entry. *)
Definition product_step {T D} `{!NumericOrComplex T D} (v : list T) (el : index * T)
    (result : list T) : outcome (list T) :=
  vx ← at_ v (N.to_nat el.1.2);
  old ← at_ result (N.to_nat el.1.1);
  put result (N.to_nat el.1.1) (t_add old (t_mul el.2 vx)).

(** ** Vocabulary of the statements about the compressed constructor *)

(** The bound of the outer indices of a matrix: its number of columns
    under row-major storage, of rows under column-major storage. *)
Definition outer_bound (SO : StorageOrder) (d : Dimensions) : size_t :=
  match SO with
  | rowMajor => columns d
  | columnMajor => rows d
  end.

(** The dimensions the compressed constructor ends with: the given ones,
    or one line less than [in] has elements and one more outer position
    than the greatest outer index. *)
Definition compressed_dimensions (SO : StorageOrder) (BD : option Dimensions)
    (out in_ : list size_t) : Dimensions :=
  match BD, SO with
  | Some d, _ => d
  | None, rowMajor =>
      {| rows := size_sub (N.of_nat (length in_)) 1;
         columns := size_add (foldl N.max 0 out) 1 |}
  | None, columnMajor =>
      {| rows := size_add (foldl N.max 0 out) 1;
         columns := size_sub (N.of_nat (length in_)) 1 |}
  end.

(** The line starts [in_] of [n] entries are well formed: non-decreasing,
    from 0 to [n]. *)
Definition line_starts (in_ : list size_t) (n : nat) : Prop :=
  non_decreasing in_ = true ∧ in_ !! 0%nat = Some 0 ∧ last in_ = Some (N.of_nat n).

(** What the assertions of the constructor ask of given dimensions. *)
Definition fits_given (SO : StorageOrder) (BD : option Dimensions)
    (out in_ : list size_t) : Prop :=
  match BD with
  | Some d =>
      N.of_nat (length in_) = size_add (num_lines SO d) 1
      ∧ Forall (fun o => o < outer_bound SO d) out
  | None => True
  end.

(** ** Vocabulary of the statements about the two backends side by side
    and about the constructors from a file *)

(** A matrix over the list backend and one over the map backend are
    alike: both are in dynamic state with the same dimensions and hold,
    in ascending storage order, the same entries. *)
Definition alike {T} (SO : StorageOrder) (m1 : @Matrix.t T (@COO.t T))
    (m2 : @Matrix.t T (@COOmap.t T)) (c : @COO.t T) : Prop :=
  dynamic_state m1 c ∧ dynamic_state m2 (entries c) ∧ aligned c
  ∧ ascending SO (COO.indexlist c) ∧ Matrix.dims m1 = Matrix.dims m2.


(** ** Matrices the further statements are instantiated at *)

Module Samples.
(** Two rows and two columns with 1 and 5 on the diagonal, over the list
    backend and over the map backend. *)
Definition diagonal_list : @COO.t Z :=
  {| COO.indexlist := [(0, 0); (1, 1)]; COO.valueslist := [1; 5]%Z |}.
Definition diagonal_map : @COOmap.t Z := [((0, 0), 1%Z); ((1, 1), 5%Z)].

(** The 2x2 matrix in dynamic state over the storage [c]. *)
Definition dynamic_matrix {Dyn : Type} (c : Dyn) : @Matrix.t Z Dyn :=
  {| Matrix.dims := {| rows := 2; columns := 2 |}; Matrix.compressed := None;
     Matrix.dynamic := Some c; Matrix.isCompressed := Some false |}.

(** The 2x2 matrix in compressed state over the arrays [y]. *)
Definition compressed_matrix (Dyn : Type) (y : @YALE.t Z) : @Matrix.t Z Dyn :=
  {| Matrix.dims := {| rows := 2; columns := 2 |}; Matrix.compressed := Some y;
     Matrix.dynamic := None; Matrix.isCompressed := Some true |}.

(** The compressed arrays of the diagonal. *)
Definition diagonal_arrays : @YALE.t Z :=
  {| YALE.outerindex := [0; 1]; YALE.innerindex := [0; 1; 2];
     YALE.values := [1; 5]%Z |}.
End Samples.

(** * Properties *)

(** ** The tests of the repository (tests/tests.cpp) on the model *)

Example sort_permutation_test_norms :
  sort_permutation rowMajor [(0, 0); (2, 2); (0, 3); (1, 1); (1, 3)] = [0; 2; 3; 4; 1]%nat.
Proof. reflexivity. Qed.

Example apply_permutation_test_norms :
  apply_permutation [(0, 0); (2, 2); (0, 3); (1, 1); (1, 3)] [0; 2; 3; 4; 1]%nat
  = Done [(0, 0); (0, 3); (1, 1); (1, 3); (2, 2)].
Proof. reflexivity. Qed.

(** [test_norms]: "Expected norm: 10". *)
Example test_norms_infinity :
  (m ← Matrix.of_triplets (Dyn:=COO.t) rowMajor true None
         [(0, 0); (2, 2); (0, 3); (1, 1); (1, 3)] [8; 4; -2; -3; 4]%Z;
   Matrix.norm rowMajor Infinity m) = Done 10%Z.
Proof. reflexivity. Qed.

(** [test_matrixvector]: "Expected result: 5, 3", four times. *)
Example test_matrixvector :
  (m ← Matrix.of_triplets (Dyn:=COO.t) rowMajor true None
         [(0, 0); (0, 1); (1, 0)] [1; 2; 3]%Z;
   Matrix.times rowMajor true m [1; 2]%Z) = Done [5; 3]%Z
  ∧ (m ← Matrix.of_triplets (Dyn:=COOmap.t) columnMajor true None
           [(0, 0); (0, 1); (1, 0)] [1; 2; 3]%Z;
     Matrix.times columnMajor true m [1; 2]%Z) = Done [5; 3]%Z
  ∧ (m ← Matrix.of_triplets (Dyn:=COO.t) rowMajor true None
           [(0, 0); (0, 1); (1, 0)] [1; 2; 3]%Z;
     m ← Matrix.compress rowMajor true m;
     Matrix.times rowMajor true m [1; 2]%Z) = Done [5; 3]%Z
  ∧ (m ← Matrix.of_triplets (Dyn:=COOmap.t) columnMajor true None
           [(0, 0); (0, 1); (1, 0)] [1; 2; 3]%Z;
     m ← Matrix.compress columnMajor true m;
     Matrix.times columnMajor true m [1; 2]%Z) = Done [5; 3]%Z.
Proof. repeat split; reflexivity. Qed.

(** [test_compress_uncompress]: two round trips give back the matrix. *)
Example test_compress_uncompress :
  ∃ m : @Matrix.t Z COOmap.t,
    Matrix.of_triplets columnMajor true None [(0, 0); (0, 1); (1, 0)] [0; 1; 2]%Z = Done m
    ∧ (m ← Matrix.compress columnMajor true m; m ← Matrix.uncompress columnMajor true m;
       m ← Matrix.compress columnMajor true m; Matrix.uncompress columnMajor true m)
      = Done m.
Proof. eexists. split; reflexivity. Qed.

(** [test_remove]: the four removals succeed and leave three entries. *)
Example test_remove :
  (m ← Matrix.of_triplets (Dyn:=COOmap.t) rowMajor true None
         [(0, 0); (0, 1); (1, 0); (10, 21); (10, 22); (10, 23); (54, 36)]
         [3; 1; 2; 173; 174; 175; 994]%Z;
   '(m, r1) ← Matrix.remove rowMajor true m 0 1;
   m ← Matrix.compress rowMajor true m;
   '(m, r2) ← Matrix.remove rowMajor true m 1 0;
   '(m, r3) ← Matrix.remove rowMajor true m 10 22;
   '(m, r4) ← Matrix.remove rowMajor true m 54 36;
   y ← deref (Matrix.compressed m);
   Done (r1, r2, r3, r4, YALE.outerindex y, YALE.values y))
  = Done (true, true, true, true, [0; 21; 23], [3; 173; 175]%Z).
Proof. reflexivity. Qed.


(** ** Representation equivalence and round trips on matrices with an empty
    line *)

(** C1 (the code breaks it). On the 3x1 row-major matrix [gap] the
    coordinate (1,0) holds no entry: the read-only access returns 0 before
    [compress()] and 5, the value stored at (2,0), after it. On the 1x2
    column-major matrix [wide] the product with [1; 1] is [3] before
    [compress()] and [1] after it. *)
Theorem lookup_and_product_change_under_compress :
  (∃ m mc : @Matrix.t Z COO.t,
      Examples.gap COO.t = Done m
      ∧ Matrix.compress rowMajor true m = Done mc
      ∧ Matrix.call_const rowMajor true m 1 0 = Done (m, 0%Z)
      ∧ Matrix.call_const rowMajor true mc 1 0 = Done (mc, 5%Z))
  ∧ (∃ m mc : @Matrix.t Z COO.t,
      Examples.wide COO.t = Done m
      ∧ Matrix.compress columnMajor true m = Done mc
      ∧ Matrix.times columnMajor true m [1; 1]%Z = Done [3%Z]
      ∧ Matrix.times columnMajor true mc [1; 1]%Z = Done [1%Z]).
Proof.
  split; eexists _, _; (split; [reflexivity|]); (split; [reflexivity|]);
    split; reflexivity.
Qed.

(** C2 (the code breaks it). [compress()] followed by [uncompress()] on
    [gap] keeps the dimensions 3x1 and moves the entry 5 from (2,0) to
    (1,0), with the list backend and with the map backend. *)
Theorem round_trip_moves_entry_after_empty_line :
  (∃ m mc mu : @Matrix.t Z COO.t,
      Examples.gap COO.t = Done m
      ∧ Matrix.compress rowMajor true m = Done mc
      ∧ Matrix.uncompress rowMajor true mc = Done mu
      ∧ Matrix.dims mu = Matrix.dims m
      ∧ Matrix.dynamic m = Some {| COO.indexlist := [(0, 0); (2, 0)]; COO.valueslist := [1; 5]%Z |}
      ∧ Matrix.dynamic mu = Some {| COO.indexlist := [(0, 0); (1, 0)]; COO.valueslist := [1; 5]%Z |}
      ∧ Matrix.call_const rowMajor true m 2 0 = Done (m, 5%Z)
      ∧ Matrix.call_const rowMajor true mu 2 0 = Done (mu, 0%Z))
  ∧ (∃ m mc mu : @Matrix.t Z COOmap.t,
      Examples.gap COOmap.t = Done m
      ∧ Matrix.compress rowMajor true m = Done mc
      ∧ Matrix.uncompress rowMajor true mc = Done mu
      ∧ Matrix.dims mu = Matrix.dims m
      ∧ Matrix.dynamic m = Some [((0, 0), 1%Z); ((2, 0), 5%Z)]
      ∧ Matrix.dynamic mu = Some [((0, 0), 1%Z); ((1, 0), 5%Z)]).
Proof.
  split; eexists _, _, _; repeat (split; [reflexivity|]); reflexivity.
Qed.

(** C3 (the code breaks it). Column-major, 2x3, every column non-empty:
    assigning 7 to the unset (1,0) in compressed state leaves
    [lineStart = [0; 2; 3; 3]] beside four values, so the invariants that
    held before do not hold after. Row-major with the empty row 1:
    assigning 7 to (1,2) stores it in row 2, and the lookup at (1,2) that
    follows returns 0. *)
Theorem compressed_insertion_breaks_invariants :
  (∃ (m mc ma : @Matrix.t Z COO.t) y ya,
      Examples.wide3 COO.t = Done m
      ∧ Matrix.compress columnMajor true m = Done mc
      ∧ Matrix.compressed mc = Some y
      ∧ compressed_invariants y = true
      ∧ Matrix.call_const columnMajor true mc 1 0 = Done (mc, 0%Z)
      ∧ Matrix.assign columnMajor true mc 1 0 7%Z = Done ma
      ∧ Matrix.compressed ma = Some ya
      ∧ YALE.innerindex ya = [0; 2; 3; 3]
      ∧ YALE.values ya = [1; 7; 2; 3]%Z
      ∧ compressed_invariants ya = false)
  ∧ (∃ (m mc ma : @Matrix.t Z COO.t) ya,
      Examples.gap3 COO.t = Done m
      ∧ Matrix.compress rowMajor true m = Done mc
      ∧ Matrix.call_const rowMajor true mc 1 2 = Done (mc, 0%Z)
      ∧ Matrix.assign rowMajor true mc 1 2 7%Z = Done ma
      ∧ Matrix.compressed ma = Some ya
      ∧ ya = {| YALE.outerindex := [0; 1; 2]; YALE.innerindex := [0; 1; 2; 3];
                YALE.values := [1; 5; 7]%Z |}
      ∧ Matrix.call_const rowMajor true ma 1 2 = Done (ma, 0%Z)).
Proof.
  split.
  - eexists _, _, _, _, _. repeat (split; [reflexivity|]). reflexivity.
  - eexists _, _, _, _. repeat (split; [reflexivity|]). reflexivity.
Qed.

(** C4 (the code breaks it). On [split_row] (row 1 empty, row 2 holding 3
    and 4) the infinity norm is 4 with the list backend and 7 with the map
    backend. *)
Theorem infinity_norm_differs_between_backends :
  ∃ (m1 : @Matrix.t Z COO.t) (m2 : @Matrix.t Z COOmap.t),
    Examples.split_row COO.t = Done m1
    ∧ Examples.split_row COOmap.t = Done m2
    ∧ Matrix.norm rowMajor Infinity m1 = Done 4%Z
    ∧ Matrix.norm rowMajor Infinity m2 = Done 7%Z.
Proof. eexists _, _. repeat (split; [reflexivity|]). reflexivity. Qed.

(** C5 (the code breaks it). In compressed state the read-only access to
    the unset (1,0) of [gap] returns 5, and on [tail_gap], whose empty row
    is the last one, it reads [outer] past its end. *)
Theorem compressed_lookup_in_empty_line :
  (∃ m mc : @Matrix.t Z COO.t,
      Examples.gap COO.t = Done m
      ∧ Matrix.compress rowMajor true m = Done mc
      ∧ Matrix.in_bounds mc 1 0 = true
      ∧ Matrix.call_const rowMajor true mc 1 0 = Done (mc, 5%Z)
      ∧ Matrix.remove rowMajor true mc 1 0 = Done (mc, false))
  ∧ (∃ m mc : @Matrix.t Z COO.t,
      Examples.tail_gap COO.t = Done m
      ∧ Matrix.compress rowMajor true m = Done mc
      ∧ Matrix.in_bounds mc 1 0 = true
      ∧ Matrix.call_const rowMajor true mc 1 0 = UB OutOfRange).
Proof.
  split; eexists _, _; repeat (split; [reflexivity|]); reflexivity.
Qed.

(** ** The facade *)

(** C6 (the code breaks it). The file constructor never writes
    [isCompressed]: whatever the file, the build and the backend, the
    matrix it returns has the flag unset; on [Examples.diagonal_file],
    [is_compressed()] and the read-only access both read the
    indeterminate flag. *)
Theorem file_constructor_leaves_flag_unset :
  (∀ {T D Dyn : Type} (SO : StorageOrder) `{!Dynamic SO T D Dyn}
     (DEBUG : bool) (f : MatrixMarket T),
     match Matrix.of_file SO DEBUG f with
     | Done m => Matrix.isCompressed m = None ∧ Matrix.is_compressed m = UB Indeterminate
     | _ => True
     end)
  ∧ (∃ m : @Matrix.t Z COO.t,
       Matrix.of_file columnMajor true Examples.diagonal_file = Done m
       ∧ Matrix.dynamic m = Some {| COO.indexlist := [(0, 0); (1, 1)];
                                    COO.valueslist := [1; 5]%Z |}
       ∧ Matrix.is_compressed m = UB Indeterminate
       ∧ Matrix.call_const columnMajor true m 0 0 = UB Indeterminate)
  ∧ (∃ m : @Matrix.t Z COOmap.t,
       Matrix.of_file columnMajor true Examples.diagonal_file = Done m
       ∧ Matrix.is_compressed m = UB Indeterminate).
Proof.
  split; [|split].
  - intros T D Dyn SO Hdyn DEBUG f. unfold Matrix.of_file.
    by destruct (from_file DEBUG f) as [[d dyn]| |].
  - eexists. repeat (split; [reflexivity|]). reflexivity.
  - eexists. split; reflexivity.
Qed.

(** C10. [resize(r, c)] sets the dimensions to (r, c) and touches nothing
    else: both storages and the flag are the ones the matrix had. *)
Theorem resize_sets_dimensions_only :
  ∀ {T Dyn : Type} (m : @Matrix.t T Dyn) (r c : size_t),
    get_rows (Matrix.dims (Matrix.resize m r c)) = r
    ∧ get_columns (Matrix.dims (Matrix.resize m r c)) = c
    ∧ Matrix.dynamic (Matrix.resize m r c) = Matrix.dynamic m
    ∧ Matrix.compressed (Matrix.resize m r c) = Matrix.compressed m
    ∧ Matrix.isCompressed (Matrix.resize m r c) = Matrix.isCompressed m.
Proof. intros. by repeat split. Qed.

(** ** The ordering policy is a strict total order *)

Lemma Comparator_irrefl SO a : Comparator SO a a = false.
Proof.
  destruct SO, a as [a1 a2]; unfold Comparator; simpl;
    rewrite N.eqb_refl; simpl; apply N.ltb_irrefl.
Qed.

Lemma Comparator_total SO a b :
  Comparator SO a b = false → Comparator SO b a = false → a = b.
Proof.
  destruct SO, a as [a1 a2], b as [b1 b2]; unfold Comparator; simpl;
    destruct (N.eqb_spec a1 b1), (N.eqb_spec b1 a1),
             (N.eqb_spec a2 b2), (N.eqb_spec b2 a2); simpl;
    rewrite ?N.ltb_ge; intros; f_equal; lia.
Qed.

Lemma Comparator_trans SO a b c :
  Comparator SO a b = true → Comparator SO b c = true → Comparator SO a c = true.
Proof.
  destruct SO, a as [a1 a2], b as [b1 b2], c as [c1 c2]; unfold Comparator; simpl;
    destruct (N.eqb_spec a1 b1), (N.eqb_spec b1 c1), (N.eqb_spec a1 c1),
             (N.eqb_spec a2 b2), (N.eqb_spec b2 c2), (N.eqb_spec a2 c2); simpl;
    rewrite ?N.ltb_lt; intros; lia.
Qed.

Lemma Comparator_asym SO a b :
  Comparator SO a b = true → Comparator SO b a = false.
Proof.
  intros Hab. destruct (Comparator SO b a) eqn:Hba; [|done].
  pose proof (Comparator_trans _ _ _ _ Hab Hba) as H.
  by rewrite Comparator_irrefl in H.
Qed.

Lemma index_eqb_eq (x : index) (i j : size_t) :
  (x.1 =? i) && (x.2 =? j) = true ↔ x = (i, j).
Proof.
  destruct x as [a b]; simpl. rewrite andb_true_iff, !N.eqb_eq.
  split; [intros [-> ->]; done | intros [= -> ->]; done].
Qed.

(** ** Insertion into and removal from a vector *)

Lemma length_vinsert {A} k (x : A) vec :
  length (vinsert k x vec) = S (length vec).
Proof.
  unfold vinsert. rewrite length_app. simpl. rewrite length_take, length_drop. lia.
Qed.

Lemma vinsert_lookup {A} k (x : A) vec :
  (k ≤ length vec)%nat → vinsert k x vec !! k = Some x.
Proof.
  intros Hk. unfold vinsert. rewrite lookup_app_r; rewrite length_take; [|lia].
  by replace (k - k `min` length vec)%nat with 0%nat by lia.
Qed.

(** ** [apply_permutation] gathers the elements [p] points to *)

Lemma pending_insert (dn : list bool) (j : nat) :
  dn !! j = Some false → S (pending (<[j:=true]> dn)) = pending dn.
Proof.
  unfold pending. revert j. induction dn as [|b dn IH]; intros [|j] Hj; simpl in *;
    try done.
  - injection Hj as ->. rewrite filter_cons_False by done.
    rewrite filter_cons_True by done. done.
  - destruct b.
    + rewrite !filter_cons_False by done. by apply IH.
    + rewrite !filter_cons_True by done. simpl. f_equal. by apply IH.
Qed.

Lemma at_Some {A} (vec : list A) k x : vec !! k = Some x → at_ vec k = Done x.
Proof. unfold at_. by intros ->. Qed.

Lemma put_lt {A} (vec : list A) k x :
  (k < length vec)%nat → put vec k x = Done (<[k:=x]> vec).
Proof. unfold put. intros Hk. by destruct (decide _). Qed.

Lemma vswap_Some {A} (vec : list A) a b x y :
  vec !! a = Some x → vec !! b = Some y →
  vswap vec a b = Done (<[b:=x]> (<[a:=y]> vec)).
Proof.
  intros Ha Hb. unfold vswap. rewrite (at_Some _ _ _ Ha), (at_Some _ _ _ Hb). simpl.
  rewrite put_lt by (by eapply lookup_lt_Some). simpl.
  rewrite put_lt; [done|]. rewrite length_insert. by eapply lookup_lt_Some.
Qed.

Section apply_permutation_correct.
Context {A : Type} (vec0 : list A) (p : list nat).
Hypothesis Hperm : p ≡ₚ seq 0 (length vec0).

Lemma perm_lookup_lt k x : p !! k = Some x → (x < length vec0)%nat.
Proof.
  intros Hk. apply list_elem_of_lookup_2 in Hk. rewrite Hperm in Hk.
  apply elem_of_seq in Hk. lia.
Qed.

Lemma perm_length : length p = length vec0.
Proof. by rewrite Hperm, length_seq. Qed.

Lemma perm_lookup_is_Some k : (k < length vec0)%nat → ∃ x, p !! k = Some x.
Proof. intros Hk. apply lookup_lt_is_Some. by rewrite perm_length. Qed.

Lemma perm_inj a b x : p !! a = Some x → p !! b = Some x → a = b.
Proof.
  assert (NoDup p) as Hnd by (rewrite Hperm; apply NoDup_seq).
  intros Ha Hb. by eapply NoDup_lookup.
Qed.

Lemma apply_cycle_spec fuel i prev_j j vec dn :
  cycle_inv vec0 p i prev_j j vec dn →
  (pending dn ≤ fuel)%nat →
  ∃ vec' dn',
    apply_cycle fuel p i prev_j j vec dn = Done (vec', dn')
    ∧ outer_inv vec0 p vec' dn'
    ∧ ∀ k, dn !! k = Some true → dn' !! k = Some true.
Proof.
  revert prev_j j vec dn.
  induction fuel as [|fuel IH]; intros prev_j j vec dn Hinv Hfuel.
  all: destruct (decide (i = j)) as [<-|Hij];
    [ exists vec, dn; simpl; destruct (decide (i = i)); [|done];
      split; [done|]; split; [|done];
      destruct Hinv as [Hlv Hld Hst Hpv Hnx Hmv Hho Hkp Hfw Hbw]; constructor; try done;
      [ intros k x Hk Hx; destruct (decide (k = prev_j)) as [->|];
          [ by replace x with i by congruence | eauto ]
      | intros k x Hk Hx; destruct (decide (k = prev_j)) as [->|];
          [ by replace x with i by congruence | eauto ]
      | intros x Hx; destruct (decide (x = i)) as [->|Hne];
          [ eauto | destruct (Hbw x Hne Hx) as (k & _ & ? & ?); eauto ] ]
    | ].
  all: assert (dn !! j = Some false) as Hj.
  1,3: destruct Hinv as [Hlv Hld Hst Hpv Hnx Hmv Hho Hkp Hfw Hbw];
    pose proof (perm_lookup_lt _ _ Hnx) as Hlt;
    rewrite <- Hld in Hlt; apply lookup_lt_is_Some in Hlt as [[] Hb]; [|done];
    destruct (Hbw j (not_eq_sym Hij) Hb) as (k & Hk1 & Hk2 & _);
    by rewrite (perm_inj _ _ _ Hk2 Hnx) in Hk1.
  - apply pending_insert in Hj. lia.
  - simpl. destruct (decide (i = j)); [done|].
    destruct Hinv as [Hlv Hld Hst Hpv Hnx Hmv Hho Hkp Hfw Hbw].
    assert (prev_j ≠ j) as Hpj by congruence.
    pose proof (perm_lookup_lt _ _ Hnx) as Hjlt.
    destruct (perm_lookup_is_Some j Hjlt) as [j' Hj'].
    assert (is_Some (vec !! prev_j)) as [x Hx].
    { apply lookup_lt_is_Some. rewrite Hlv, <- Hld.
      by eapply lookup_lt_Some. }
    assert (is_Some (vec !! j)) as [y Hy].
    { apply lookup_lt_is_Some. by rewrite Hlv. }
    rewrite (vswap_Some _ _ _ _ _ Hx Hy). simpl.
    rewrite put_lt by (by rewrite Hld). simpl.
    rewrite (at_Some _ _ _ Hj'). simpl.
    assert (prev_j < length vec)%nat as Hplt by (by eapply lookup_lt_Some).
    assert (j < length vec)%nat as Hjlt' by (by eapply lookup_lt_Some).
    destruct (IH j j' (<[j:=x]> (<[prev_j:=y]> vec)) (<[j:=true]> dn))
      as (vec' & dn' & Hrun & Hout & Hmono).
    + constructor.
      * by rewrite !length_insert.
      * by rewrite length_insert.
      * rewrite list_lookup_insert_ne by done. done.
      * apply list_lookup_insert_eq. by rewrite Hld.
      * done.
      * intros k z Hkj Hk Hz. rewrite list_lookup_insert_ne in Hk by done.
        rewrite list_lookup_insert_ne by done.
        destruct (decide (k = prev_j)) as [->|Hkpj].
        -- rewrite list_lookup_insert_eq by done.
           replace z with j by congruence. rewrite <- Hy. by rewrite Hkp.
        -- rewrite list_lookup_insert_ne by done. eauto.
      * rewrite list_lookup_insert_eq by (by rewrite length_insert).
        by rewrite <- Hx.
      * intros k Hk. destruct (decide (k = j)) as [->|Hkj].
        { rewrite list_lookup_insert_eq in Hk by (by rewrite Hld). done. }
        rewrite list_lookup_insert_ne in Hk by done.
        assert (k ≠ prev_j) by congruence.
        rewrite !list_lookup_insert_ne by done. eauto.
      * intros k z Hkj Hk Hz. rewrite list_lookup_insert_ne in Hk by done.
        destruct (decide (z = j)) as [->|Hzj].
        { apply list_lookup_insert_eq. by rewrite Hld. }
        rewrite list_lookup_insert_ne by done.
        destruct (decide (k = prev_j)) as [->|Hkpj]; [congruence|]. eauto.
      * intros z Hzi Hz. destruct (decide (z = j)) as [->|Hzj].
        { exists prev_j. split; [done|]. split; [done|].
          by rewrite list_lookup_insert_ne by done. }
        rewrite list_lookup_insert_ne in Hz by done.
        destruct (Hbw z Hzi Hz) as (k & Hk1 & Hk2 & Hk3).
        assert (k ≠ j) by congruence.
        exists k. split; [done|]. split; [done|]. by rewrite list_lookup_insert_ne.
    + apply pending_insert in Hj. lia.
    + exists vec', dn'. split; [done|]. split; [done|].
      intros k Hk. apply Hmono. destruct (decide (k = j)) as [->|]; [congruence|].
      by rewrite list_lookup_insert_ne.
Qed.

Lemma pending_le_length (dn : list bool) : (pending dn ≤ length dn)%nat.
Proof. unfold pending. apply length_filter. Qed.

Lemma apply_outer_spec todo vec dn :
  outer_inv vec0 p vec dn →
  Forall (fun i => (i < length vec0)%nat) todo →
  ∃ vec' dn',
    apply_outer p todo vec dn = Done vec'
    ∧ outer_inv vec0 p vec' dn'
    ∧ (∀ k, dn !! k = Some true → dn' !! k = Some true)
    ∧ (∀ k, k ∈ todo → dn' !! k = Some true).
Proof.
  revert vec dn. induction todo as [|i todo IH]; intros vec dn Hinv Htodo.
  { exists vec, dn. do 3 (split; [done|]). by intros k Hk%elem_of_nil. }
  apply Forall_cons in Htodo as [Hi Htodo].
  pose proof Hinv as [Hlv Hld Hmv Hkp Hfw Hbw].
  assert (is_Some (dn !! i)) as [d Hd] by (apply lookup_lt_is_Some; lia).
  simpl. rewrite (at_Some _ _ _ Hd). simpl. destruct d.
  - destruct (IH vec dn Hinv Htodo) as (vec' & dn' & Hrun & Hout & Hmono & Hall).
    exists vec', dn'. do 3 (split; [done|]).
    intros k [->|Hk]%elem_of_cons; auto.
  - rewrite put_lt by lia. simpl.
    destruct (perm_lookup_is_Some i Hi) as [j Hj]. rewrite (at_Some _ _ _ Hj). simpl.
    destruct (apply_cycle_spec (length vec) i i j vec (<[i:=true]> dn))
      as (vec1 & dn1 & Hrun1 & Hout1 & Hmono1).
    { constructor; try done.
      - by rewrite length_insert.
      - apply list_lookup_insert_eq. lia.
      - apply list_lookup_insert_eq. lia.
      - intros k x Hki Hk Hx. rewrite list_lookup_insert_ne in Hk by done. eauto.
      - by apply Hkp.
      - intros k Hk. destruct (decide (k = i)) as [->|Hki].
        { rewrite list_lookup_insert_eq in Hk by lia. done. }
        rewrite list_lookup_insert_ne in Hk by done. eauto.
      - intros k x Hki Hk Hx. rewrite list_lookup_insert_ne in Hk by done.
        destruct (decide (x = i)) as [->|Hxi].
        { apply list_lookup_insert_eq. lia. }
        rewrite list_lookup_insert_ne by done. eauto.
      - intros x Hxi Hx. rewrite list_lookup_insert_ne in Hx by done.
        destruct (Hbw x Hx) as (k & Hk1 & Hk2).
        assert (k ≠ i) by congruence.
        exists k. split; [done|]. split; [done|]. by rewrite list_lookup_insert_ne. }
    { apply pending_insert in Hd. pose proof (pending_le_length dn). lia. }
    rewrite Hrun1. simpl.
    destruct (IH vec1 dn1 Hout1 Htodo) as (vec' & dn' & Hrun & Hout & Hmono & Hall).
    exists vec', dn'. do 2 (split; [done|]). split.
    + intros k Hk. apply Hmono, Hmono1. destruct (decide (k = i)) as [->|]; [congruence|].
      by rewrite list_lookup_insert_ne.
    + intros k [->|Hk]%elem_of_cons; [|auto].
      apply Hmono, Hmono1, list_lookup_insert_eq. lia.
Qed.
End apply_permutation_correct.

(** [apply_permutation] returns, and position [k] of its result holds the
    element of [vec] that [p[k]] points to. *)
Lemma apply_permutation_lookup {A} (vec : list A) (p : list nat) :
  p ≡ₚ seq 0 (length vec) →
  ∃ res, apply_permutation vec p = Done res
         ∧ length res = length vec
         ∧ ∀ k x, p !! k = Some x → res !! k = vec !! x.
Proof.
  intros Hperm. unfold apply_permutation.
  destruct (apply_outer_spec vec p Hperm (seq 0 (length vec)) vec
              (replicate (length vec) false)) as (res & dn & Hrun & Hout & _ & Hall).
  - constructor; try done.
    + by rewrite length_replicate.
    + intros k x Hk. apply lookup_replicate in Hk as [? _]. done.
    + intros k x Hk. apply lookup_replicate in Hk as [? _]. done.
    + intros x Hx. apply lookup_replicate in Hx as [? _]. done.
  - apply Forall_forall. intros i Hi%elem_of_seq. lia.
  - exists res. split; [done|]. destruct Hout as [Hlv Hld Hmv Hkp Hfw Hbw].
    split; [done|]. intros k x Hk. apply Hmv; [|done].
    apply Hall, elem_of_seq. apply lookup_lt_Some in Hk.
    rewrite (perm_length vec p Hperm) in Hk. lia.
Qed.

Lemma apply_permutation_gather {A} `{!Inhabited A} (vec : list A) (p : list nat) :
  p ≡ₚ seq 0 (length vec) →
  apply_permutation vec p = Done ((fun x => vec !!! x) <$> p).
Proof.
  intros Hperm. destruct (apply_permutation_lookup vec p Hperm) as (res & -> & Hlen & Hres).
  f_equal. apply list_eq. intros k. rewrite list_lookup_fmap.
  destruct (p !! k) as [x|] eqn:Hk; simpl.
  - rewrite (Hres _ _ Hk). apply list_lookup_lookup_total_lt.
    by eapply perm_lookup_lt.
  - apply lookup_ge_None. apply lookup_ge_None in Hk.
    rewrite (perm_length vec p Hperm) in Hk. lia.
Qed.

Lemma gather_Permutation {A} `{!Inhabited A} (vec : list A) (p : list nat) :
  p ≡ₚ seq 0 (length vec) → (fun x => vec !!! x) <$> p ≡ₚ vec.
Proof.
  intros ->. assert ((fun x => vec !!! x) <$> seq 0 (length vec) = vec) as ->; [|done].
  apply list_eq. intros k. rewrite list_lookup_fmap.
  destruct (decide (k < length vec)%nat) as [Hk|Hk].
  - rewrite lookup_seq_lt by done. simpl. symmetry. by apply list_lookup_lookup_total_lt.
  - rewrite lookup_seq_ge by lia. simpl. symmetry. apply lookup_ge_None. lia.
Qed.

(** ** [std_sort] returns a sorted permutation *)

Section std_sort_correct.
Context {A : Type} (comp : A → A → bool).
Hypothesis comp_asym : ∀ a b, comp a b = true → comp b a = false.
Hypothesis comp_negtrans : ∀ a b c, comp b a = false → comp c b = false → comp c a = false.

Lemma sort_insert_Permutation x l : sort_insert comp x l ≡ₚ x :: l.
Proof.
  induction l as [|y l IH]; simpl; [done|].
  destruct (comp y x); [|done]. rewrite IH. apply Permutation_swap.
Qed.

Lemma std_sort_Permutation l : std_sort comp l ≡ₚ l.
Proof.
  induction l as [|x l IH]; simpl; [done|].
  by rewrite sort_insert_Permutation, IH.
Qed.

Lemma sort_insert_sorted x l :
  StronglySorted (fun a b => comp b a = false) l →
  StronglySorted (fun a b => comp b a = false) (sort_insert comp x l).
Proof.
  induction 1 as [|y l Hl IH Hy]; simpl; [by repeat constructor|].
  destruct (comp y x) eqn:Hyx.
  - constructor; [done|]. rewrite sort_insert_Permutation.
    constructor; [by apply comp_asym | done].
  - constructor; [by constructor|]. constructor; [done|].
    eapply Forall_impl; [exact Hy|]. intros z Hz. by eapply comp_negtrans.
Qed.

Lemma std_sort_sorted l : StronglySorted (fun a b => comp b a = false) (std_sort comp l).
Proof. induction l; simpl; [constructor | by apply sort_insert_sorted]. Qed.
End std_sort_correct.

Lemma Comparator_negtrans SO a b c :
  Comparator SO b a = false → Comparator SO c b = false → Comparator SO c a = false.
Proof.
  intros Hba Hcb. destruct (Comparator SO c a) eqn:Hca; [|done].
  destruct (Comparator SO a b) eqn:Hab.
  - by rewrite (Comparator_trans _ _ _ _ Hca Hab) in Hcb.
  - rewrite (Comparator_total _ _ _ Hab Hba) in Hca. congruence.
Qed.

Lemma StronglySorted_reverse {A} (R : relation A) l :
  StronglySorted R l → StronglySorted (flip R) (reverse l).
Proof.
  induction 1 as [|x l Hl IH Hx]; [constructor|].
  rewrite reverse_cons. apply StronglySorted_app_2; [|done|by repeat constructor].
  intros y z Hy Hz%list_elem_of_singleton. subst z.
  rewrite elem_of_reverse in Hy. rewrite Forall_forall in Hx. unfold flip. by apply Hx.
Qed.

(** ** The temporaries of the list backend after sorting *)

Lemma sort_permutation_Permutation SO (vec : list index) :
  sort_permutation SO vec ≡ₚ seq 0 (length vec).
Proof. apply std_sort_Permutation. Qed.

Lemma sort_temporaries_spec {T} SO (indexes : list index) (values : list T) :
  length indexes = length values →
  ∃ ti tv,
    COO.sort_temporaries SO indexes values = Done (ti, tv)
    ∧ ti ≡ₚ indexes
    ∧ length tv = length values
    ∧ StronglySorted (fun a b => Comparator SO b a = false) ti.
Proof.
  intros Hlen. unfold COO.sort_temporaries.
  pose proof (sort_permutation_Permutation SO indexes) as Hp.
  rewrite (apply_permutation_gather indexes _ Hp). simpl.
  assert (sort_permutation SO indexes ≡ₚ seq 0 (length values)) as Hp'
    by (by rewrite <- Hlen).
  destruct (apply_permutation_lookup values _ Hp') as (tv & -> & Hltv & _). simpl.
  eexists _, _. split; [done|]. split; [by apply gather_Permutation|]. split; [done|].
  eapply StronglySorted_fmap; [|apply std_sort_sorted].
  - intros a b Hab. exact Hab.
  - intros a b. apply Comparator_asym.
  - intros a b c. apply Comparator_negtrans.
Qed.

(** ** Lookups of a coordinate that is not stored *)

Lemma find_scan_absent SO (l : list index) (i j : size_t) (k0 : nat) :
  (i, j) ∉ l →
  ∃ k, COO.find_scan SO k0 l i j = (false, k) ∧ (k0 ≤ k ≤ k0 + length l)%nat.
Proof.
  revert k0. induction l as [|x l IH]; intros k0 Hnotin; simpl.
  - exists k0. split; [done | lia].
  - apply not_elem_of_cons in Hnotin as [Hne Hnotin].
    destruct ((x.1 =? i) && (x.2 =? j)) eqn:Heq.
    { apply index_eqb_eq in Heq. congruence. }
    destruct (negb (Comparator SO x (i, j))).
    + exists k0. split; [done | lia].
    + destruct (IH (S k0) Hnotin) as (k & -> & Hk). exists k. split; [done | lia].
Qed.

Section std_map_facts.
Context {V : Type} (SO : StorageOrder).
Implicit Types (m : list (index * V)) (k : index).

Lemma map_lower_bound_le m k :
  (map_lower_bound (Comparator SO) m k ≤ length m)%nat.
Proof. induction m as [|x m IH]; simpl; [lia|]. destruct (Comparator SO x.1 k); lia. Qed.

Lemma map_lower_bound_stop m k x :
  m !! map_lower_bound (Comparator SO) m k = Some x → Comparator SO x.1 k = false.
Proof.
  induction m as [|y m IH]; simpl; [done|].
  destruct (Comparator SO y.1 k) eqn:Hy; simpl; [done|]. by intros [= <-].
Qed.

Lemma map_find_Some m k p :
  map_find (Comparator SO) m k = Some p →
  p = map_lower_bound (Comparator SO) m k ∧ ∃ v, m !! p = Some (k, v).
Proof.
  unfold map_find. cbv zeta.
  destruct (m !! map_lower_bound (Comparator SO) m k) as [x|] eqn:Hx; [|done].
  destruct (Comparator SO k x.1) eqn:Hk; [done|]. intros [= <-]. split; [done|].
  apply map_lower_bound_stop in Hx as Hx'.
  rewrite Hx, (Comparator_total SO k x.1 Hk Hx'). exists x.2. by destruct x.
Qed.

Lemma map_find_absent m k : k ∉ m.*1 → map_find (Comparator SO) m k = None.
Proof.
  intros Hnotin. destruct (map_find (Comparator SO) m k) as [p|] eqn:Hp; [|done].
  apply map_find_Some in Hp as (_ & v & Hv). exfalso. apply Hnotin.
  apply list_elem_of_fmap. exists (k, v). split; [done|].
  by apply list_elem_of_lookup_2 in Hv.
Qed.

Lemma map_subscript_found dflt m k p :
  map_find (Comparator SO) m k = Some p → map_subscript (Comparator SO) dflt m k = (m, p).
Proof. unfold map_subscript. by intros ->. Qed.
End std_map_facts.

(** ** Element access in dynamic state *)

(** C9. In dynamic state, the mutable access to an in-bounds coordinate
    that holds no entry returns the storage with exactly one entry
    inserted, the zero at (i,j), at the position [k] of the slot it refers
    to, so [get_num_elements()] grows by one and all other entries are the
    old ones; this holds for the list and for the map backend. The
    read-only access returns the matrix it was given, in either state. *)
Theorem mutable_access_stores_one_zero_entry :
  ∀ {T D : Type} `{!DoubleOps D} `{!NumericOrComplex T D}
    (SO : StorageOrder) (DEBUG : bool) (i j : size_t),
  (∀ (m : @Matrix.t T COO.t) (c : COO.t),
     Matrix.isCompressed m = Some false →
     Matrix.dynamic m = Some c →
     length (COO.indexlist c) = length (COO.valueslist c) →
     Matrix.in_bounds m i j = true →
     (i, j) ∉ COO.indexlist c →
     ∃ k : nat,
       let c' := {| COO.indexlist := vinsert k (i, j) (COO.indexlist c);
                    COO.valueslist := vinsert k t_zero (COO.valueslist c) |} in
       let m' := {| Matrix.dims := Matrix.dims m; Matrix.compressed := Matrix.compressed m;
                    Matrix.dynamic := Some c'; Matrix.isCompressed := Some false |} in
       (k ≤ length (COO.indexlist c))%nat
       ∧ Matrix.call SO DEBUG m i j = Done (m', k)
       ∧ COO.read_slot c' k = Done t_zero
       ∧ Matrix.get_num_elements SO m = Done (N.of_nat (length (COO.valueslist c)))
       ∧ Matrix.get_num_elements SO m' = Done (N.of_nat (length (COO.valueslist c)) + 1))
  ∧ (∀ (m : @Matrix.t T COOmap.t) (c : COOmap.t),
     Matrix.isCompressed m = Some false →
     Matrix.dynamic m = Some c →
     Matrix.in_bounds m i j = true →
     (i, j) ∉ c.*1 →
     ∃ k : nat,
       let c' := vinsert k ((i, j), t_zero) c in
       let m' := {| Matrix.dims := Matrix.dims m; Matrix.compressed := Matrix.compressed m;
                    Matrix.dynamic := Some c'; Matrix.isCompressed := Some false |} in
       (k ≤ length c)%nat
       ∧ Matrix.call SO DEBUG m i j = Done (m', k)
       ∧ COOmap.read_slot c' k = Done t_zero
       ∧ Matrix.get_num_elements SO m = Done (N.of_nat (length c))
       ∧ Matrix.get_num_elements SO m' = Done (N.of_nat (length c) + 1))
  ∧ (∀ (m m' : @Matrix.t T COO.t) (v : T),
       Matrix.call_const SO DEBUG m i j = Done (m', v) → m' = m)
  ∧ (∀ (m m' : @Matrix.t T COOmap.t) (v : T),
       Matrix.call_const SO DEBUG m i j = Done (m', v) → m' = m).
Proof.
  intros T D HD HT SO DEBUG i j. repeat split.
  - intros [d y dyn fl] c Hfl Hdyn Hlen Hin Hnotin; simpl in *; subst.
    destruct (find_scan_absent SO _ i j 0 Hnotin) as (k & Hscan & Hk).
    exists k. split; [lia|].
    unfold Matrix.call, Matrix.get_num_elements, assert; simpl.
    rewrite Hin, andb_false_r; simpl.
    unfold COO.find_dynamic. rewrite Hscan.
    destruct (decide _) as [|Hno]; [|lia]. simpl.
    unfold COO.read_slot, COO.get_num_elements_dynamic, at_; simpl.
    rewrite vinsert_lookup by lia. rewrite length_vinsert.
    repeat split. f_equal. lia.
  - intros [d y dyn fl] c Hfl Hdyn Hin Hnotin; simpl in *; subst.
    exists (map_lower_bound (Comparator SO) c (i, j)).
    pose proof (map_lower_bound_le SO c (i, j)) as Hle.
    unfold Matrix.call, Matrix.get_num_elements, assert; simpl.
    rewrite Hin, andb_false_r; simpl.
    unfold COOmap.find_dynamic, map_subscript. rewrite (map_find_absent SO c _ Hnotin).
    simpl. unfold COOmap.read_slot, COOmap.get_num_elements_dynamic, at_; simpl.
    rewrite vinsert_lookup by lia. rewrite length_vinsert.
    repeat split; [lia|]. f_equal. lia.
  - intros [d y dyn fl] m' v. unfold Matrix.call_const, Matrix.flag; simpl.
    destruct (assert _ _ _); simpl; [|done..].
    destruct fl as [[]|]; simpl; [| |done].
    + destruct y as [y|]; simpl; [|done].
      unfold YALE.find_compressed_const. destruct (YALE.inner_outer SO i j) as [in_ out].
      destruct (YALE.search y in_ out) as [[lower x]| |]; simpl; [|done..].
      destruct (x =? out); simpl; [|by intros [= <- _]].
      destruct (at_ _ _); simpl; [|done..]. by intros [= <- _].
    + destruct dyn as [c|]; simpl; [|done].
      unfold COO.find_dynamic_const.
      destruct (COO.find_const_scan _ _ _ _ _); simpl; [|done..]. by intros [= <- _].
  - intros [d y dyn fl] m' v. unfold Matrix.call_const, Matrix.flag; simpl.
    destruct (assert _ _ _); simpl; [|done..].
    destruct fl as [[]|]; simpl; [| |done].
    + destruct y as [y|]; simpl; [|done].
      unfold YALE.find_compressed_const. destruct (YALE.inner_outer SO i j) as [in_ out].
      destruct (YALE.search y in_ out) as [[lower x]| |]; simpl; [|done..].
      destruct (x =? out); simpl; [|by intros [= <- _]].
      destruct (at_ _ _); simpl; [|done..]. by intros [= <- _].
    + destruct dyn as [c|]; simpl; [|done].
      unfold COOmap.find_dynamic_const.
      destruct (map_find (Comparator SO) c (i, j)) as [p|] eqn:Hp; simpl.
      * rewrite (map_subscript_found SO _ _ _ _ Hp).
        destruct (COOmap.read_slot c p); simpl; [|done..]. by intros [= <- _].
      * by intros [= <- _].
Qed.

(** ** Absent entries: what holds in both states *)


Section absent_entries.
Context {T D : Type} `{!DoubleOps D} `{!NumericOrComplex T D} (SO : StorageOrder).

Lemma COO_lookup_absent (c : COO.t) (i j : size_t) :
  (i, j) ∉ COO.indexlist c → COO.find_dynamic_const SO c i j = Done (c, t_zero).
Proof.
  unfold COO.find_dynamic_const. generalize (COO.valueslist c).
  induction (COO.indexlist c) as [|x l IH]; intros vl Hnotin; simpl; [done|].
  apply not_elem_of_cons in Hnotin as [Hne Hnotin].
  destruct ((x.1 =? i) && (x.2 =? j)) eqn:Heq.
  { apply index_eqb_eq in Heq. congruence. }
  destruct (negb (Comparator SO x (i, j))); [done|]. by apply IH.
Qed.

Lemma COOmap_lookup_absent (m : COOmap.t) (i j : size_t) :
  (i, j) ∉ m.*1 → COOmap.find_dynamic_const SO m i j = Done (m, t_zero).
Proof.
  intros Hnotin. unfold COOmap.find_dynamic_const.
  by rewrite (map_find_absent SO m _ Hnotin).
Qed.

Lemma COO_remove_absent (c : @COO.t T) (i j : size_t) :
  (i, j) ∉ COO.indexlist c → COO.remove_dynamic c i j = Done (c, false).
Proof.
  intros Hnotin. unfold COO.remove_dynamic.
  assert (∀ k, COO.remove_scan k (COO.indexlist c) i j = None) as ->; [|done].
  induction (COO.indexlist c) as [|x l IH]; intros k; simpl; [done|].
  apply not_elem_of_cons in Hnotin as [Hne Hnotin].
  destruct ((x.1 =? i) && (x.2 =? j)) eqn:Heq.
  { apply index_eqb_eq in Heq. congruence. }
  by apply IH.
Qed.

Lemma COOmap_remove_absent (m : @COOmap.t T) (i j : size_t) :
  (i, j) ∉ m.*1 → COOmap.remove_dynamic SO m i j = Done (m, false).
Proof.
  intros Hnotin. unfold COOmap.remove_dynamic, map_erase.
  by rewrite (map_find_absent SO m _ Hnotin).
Qed.



End absent_entries.

(** ** Stored entries of a non-empty line in compressed state *)


Section stored_entries.
Context {T D : Type} `{!DoubleOps D} `{!NumericOrComplex T D} (SO : StorageOrder).

End stored_entries.

(** ** Where the two dynamic backends run the same scan *)

Section backends_agree.
Context {T D : Type} `{!DoubleOps D} `{!NumericOrComplex T D}.

Lemma norm_partial_scan_agree (key : index → size_t) (il : list index) (vl : list T)
    (partial_res : list D) :
  length il = length vl →
  COO.norm_partial_scan key il vl partial_res
  = COOmap.norm_partial_scan key (zip il vl) partial_res.
Proof.
  revert vl partial_res.
  induction il as [|x il IH]; intros [|v vl] partial_res Hlen; simpl in *; try done.
  destruct (at_ partial_res (N.to_nat (key x))) as [old| |]; simpl; [|done..].
  destruct (put partial_res (N.to_nat (key x)) (d_add old (t_abs v))) as [pr| |];
    simpl; [|done..].
  apply IH. lia.
Qed.

Lemma frobenius_sum_agree (il : list index) (vl : list T) (sum : D) :
  length il = length vl →
  foldl (fun sum v => d_add sum (d_mul (t_abs v) (t_abs v))) sum vl
  = foldl (fun sum (el : index * T) => d_add sum (d_mul (t_abs el.2) (t_abs el.2)))
      sum (zip il vl).
Proof.
  revert vl sum. induction il as [|x il IH]; intros [|v vl] sum Hlen; simpl in *; try done.
  apply IH. lia.
Qed.

Lemma by_vector_scan_agree (il : list index) (vl v result : list T) :
  length il = length vl →
  COO.by_vector_scan il vl v result = COOmap.by_vector_scan (zip il vl) v result.
Proof.
  revert vl result.
  induction il as [|x il IH]; intros [|val vl] result Hlen; simpl in *; try done.
  destruct (at_ v (N.to_nat x.2)) as [vx| |]; simpl; [|done..].
  destruct (at_ result (N.to_nat x.1)) as [old| |]; simpl; [|done..].
  destruct (put result (N.to_nat x.1) (t_add old (t_mul val vx))) as [res| |];
    simpl; [|done..].
  apply IH. lia.
Qed.

(** The list backend and the map backend holding the same entries in the
    same order return the same count, product, Frobenius norm, and the
    same one-norm under row-major and infinity-norm under column-major
    storage: all cases but the line scan of the list backend. *)
Lemma backends_agree_on_shared_scans (d : Dimensions) (c : COO.t) (v : list T) :
  length (COO.indexlist c) = length (COO.valueslist c) →
  let m : COOmap.t := zip (COO.indexlist c) (COO.valueslist c) in
  COO.get_num_elements_dynamic c = COOmap.get_num_elements_dynamic m
  ∧ COO.by_vector_dynamic d c v = COOmap.by_vector_dynamic d m v
  ∧ (∀ SO, COO.norm_dynamic SO Frobenius d c = COOmap.norm_dynamic Frobenius d m)
  ∧ COO.norm_dynamic rowMajor One d c = COOmap.norm_dynamic One d m
  ∧ COO.norm_dynamic columnMajor Infinity d c = COOmap.norm_dynamic Infinity d m.
Proof.
  intros Hlen m. subst m. repeat split.
  - unfold COO.get_num_elements_dynamic, COOmap.get_num_elements_dynamic.
    rewrite length_zip_with. f_equal. lia.
  - unfold COO.by_vector_dynamic, COOmap.by_vector_dynamic. by apply by_vector_scan_agree.
  - intros SO. unfold COO.norm_dynamic, COOmap.norm_dynamic.
    destruct SO; by rewrite (frobenius_sum_agree (COO.indexlist c)).
  - unfold COO.norm_dynamic, COOmap.norm_dynamic.
    by rewrite norm_partial_scan_agree.
  - unfold COO.norm_dynamic, COOmap.norm_dynamic.
    by rewrite norm_partial_scan_agree.
Qed.
End backends_agree.

#[local] Arguments N.max : simpl never.

(** ** The maximum over the input *)

Lemma max_row_Permutation l l' : l ≡ₚ l' → max_row l = max_row l'.
Proof. induction 1; simpl; lia. Qed.

Lemma max_col_Permutation l l' : l ≡ₚ l' → max_col l = max_col l'.
Proof. induction 1; simpl; lia. Qed.

Lemma max_row_upper_bound l x : x ∈ l → x.1 ≤ max_row l.
Proof. induction 1; simpl; lia. Qed.

Lemma max_col_upper_bound l x : x ∈ l → x.2 ≤ max_col l.
Proof. induction 1; simpl; lia. Qed.

Lemma max_row_attained l : l ≠ [] → ∃ x, x ∈ l ∧ x.1 = max_row l.
Proof.
  induction l as [|x l IH]; [done|]. intros _.
  change (max_row (x :: l)) with (N.max x.1 (max_row l)).
  destruct l as [|y l].
  - exists x. split; [left|]. change (max_row []) with 0. lia.
  - destruct IH as (z & Hz & Hmax); [done|].
    destruct (N.max_spec x.1 (max_row (y :: l))) as [[_ ->]|[_ ->]].
    + exists z. split; [by right|done].
    + exists x. split; [left|done].
Qed.

Lemma max_col_attained l : l ≠ [] → ∃ x, x ∈ l ∧ x.2 = max_col l.
Proof.
  induction l as [|x l IH]; [done|]. intros _.
  change (max_col (x :: l)) with (N.max x.2 (max_col l)).
  destruct l as [|y l].
  - exists x. split; [left|]. change (max_col []) with 0. lia.
  - destruct IH as (z & Hz & Hmax); [done|].
    destruct (N.max_spec x.2 (max_col (y :: l))) as [[_ ->]|[_ ->]].
    + exists z. split; [by right|done].
    + exists x. split; [left|done].
Qed.

(** ** The filling loop of the list backend *)

Lemma assert_negative DEBUG (x : index) :
  assert DEBUG ((0 <=? x.1) && (0 <=? x.2)) IndexNegative = Done tt.
Proof.
  unfold assert. replace (0 <=? x.1) with true by (symmetry; apply N.leb_le; lia).
  replace (0 <=? x.2) with true by (symmetry; apply N.leb_le; lia).
  by rewrite andb_false_r.
Qed.

Lemma fill_unbounded_done {T} DEBUG check_dup (l : list index) (vs : list T)
    prev mr mc il vl :
  length l = length vs →
  DEBUG = false ∨ check_dup = false
    ∨ (NoDup l ∧ ∀ c, prev = Some c → c ∉ l) →
  ∃ c, COO.fill DEBUG check_dup None l vs prev mr mc il vl
       = Done (N.max mr (max_row l), N.max mc (max_col l), c).
Proof.
  revert vs prev mr mc il vl.
  induction l as [|x l IH]; intros [|v vs] prev mr mc il vl Hlen Hok; simpl in *; try done.
  { eexists. f_equal. f_equal. f_equal; lia. }
  rewrite assert_negative. simpl.
  assert (match prev with
          | Some c => if check_dup
                      then assert DEBUG (negb (bool_decide (x = c))) Redefinition
                      else Done tt
          | None => Done tt
          end = Done tt) as ->.
  { destruct prev as [c|]; [|done]. destruct Hok as [->|[->|[_ Hprev]]]; [by destruct check_dup|done|].
    destruct check_dup; [|done]. unfold assert.
    rewrite bool_decide_eq_false_2; [by rewrite andb_false_r|].
    intros ->. apply (Hprev c); [done|left]. }
  simpl. destruct (IH vs (Some x) (N.max mr x.1) (N.max mc x.2) (x :: il) (v :: vl))
    as [c Hc]; [lia| |].
  { destruct Hok as [?|[?|[Hnd _]]]; [by left|by right; left|].
    right; right. apply NoDup_cons in Hnd as [Hx Hnd]. split; [done|].
    by intros c [= <-]. }
  exists c. rewrite Hc. f_equal. f_equal. f_equal; lia.
Qed.

Section fill_duplicate.
Context {T : Type} (SO : StorageOrder).

Lemma fill_duplicate_aborts BD (l : list index) (vs : list T) prev mr mc il vl :
  (length l ≤ length vs)%nat →
  StronglySorted (fun a b => Comparator SO a b = false) l →
  (∀ c, prev = Some c → Forall (fun x => Comparator SO c x = false) l) →
  ¬ NoDup l ∨ (∃ c, prev = Some c ∧ c ∈ l) →
  ∃ msg, COO.fill true true BD l vs prev mr mc il vl = Abort msg
         ∧ (Forall (fits BD) l → msg = Redefinition).
Proof.
  revert vs prev mr mc il vl.
  induction l as [|x l IH]; intros vs prev mr mc il vl Hlen Hsort Hprev Hdup.
  { destruct Hdup as [Hnd|(c & _ & Hc)]; [destruct Hnd; constructor|by apply elem_of_nil in Hc]. }
  destruct vs as [|v vs]; [simpl in Hlen; lia|]. simpl in Hlen.
  apply StronglySorted_cons in Hsort as [Hx Hsort].
  simpl.
  set (bounds := match BD with
                 | Some d => assert true ((x.1 <? rows d) && (x.2 <? columns d)) IndexTooBig
                 | None => Done tt
                 end).
  assert (bounds = Abort IndexTooBig ∧ ¬ fits BD x ∨ bounds = Done tt) as [[Hb Hfit]|Hb];
    [|rewrite Hb..].
  { subst bounds. destruct BD as [d|]; [|by right]. unfold assert, fits.
    destruct (N.ltb_spec x.1 (rows d)), (N.ltb_spec x.2 (columns d)); simpl;
      [by right|left; split; [done|lia]..]. }
  { simpl. eexists. split; [done|]. intros [? _]%Forall_cons. done. }
  clear Hb bounds. simpl. rewrite assert_negative. simpl.
  assert (prev = None ∨ (∃ c, prev = Some c ∧ c ≠ x) → ¬ NoDup l ∨ x ∈ l) as Hnext.
  { intros Hcase. destruct Hdup as [Hnd|(c & Hc & Hin)].
    - destruct (decide (x ∈ l)); [by right|left]. contradict Hnd. by constructor.
    - destruct Hcase as [->|(c' & Hc' & Hne)]; [done|]. exfalso.
      assert (c' = c) as -> by congruence.
      apply elem_of_cons in Hin as [->|Hin]; [done|].
      apply Hne, (Comparator_total SO).
      + specialize (Hprev c Hc). by apply Forall_cons in Hprev as [? _].
      + rewrite Forall_forall in Hx. by apply Hx. }
  assert (prev = None ∨ (∃ c, prev = Some c ∧ c ≠ x) →
          ∃ msg, COO.fill true true BD l vs (Some x)
                   (if BD is None then N.max mr x.1 else mr)
                   (if BD is None then N.max mc x.2 else mc) (x :: il) (v :: vl) = Abort msg
                 ∧ (Forall (fits BD) l → msg = Redefinition)) as Hrec.
  { intros Hcase. apply IH; [lia|done| |].
    - by intros c [= <-].
    - destruct (Hnext Hcase) as [?|?]; [by left|right; eauto]. }
  destruct prev as [c|]; simpl.
  - unfold assert. destruct (decide (x = c)) as [->|Hne].
    + rewrite bool_decide_eq_true_2 by done. simpl. eexists. split; [done|done].
    + rewrite bool_decide_eq_false_2 by done. simpl.
      destruct Hrec as (msg & -> & Hmsg); [right; eauto|].
      exists msg. split; [done|]. intros [_ ?]%Forall_cons. auto.
  - destruct Hrec as (msg & -> & Hmsg); [by left|].
    exists msg. split; [done|]. intros [_ ?]%Forall_cons. auto.
Qed.
End fill_duplicate.

(** ** [std::map]: assignment through [operator[]] *)

Section map_assign_facts.
Context {V : Type} (SO : StorageOrder) (dflt : V).
Implicit Types (m : list (index * V)) (k : index) (v : V).

Lemma map_find_cons x m k :
  map_find (Comparator SO) (x :: m) k =
    if Comparator SO x.1 k then S <$> map_find (Comparator SO) m k
    else if Comparator SO k x.1 then None else Some 0%nat.
Proof.
  unfold map_find. simpl. destruct (Comparator SO x.1 k); simpl; [|done].
  destruct (m !! map_lower_bound (Comparator SO) m k) as [y|]; simpl; [|done].
  by destruct (Comparator SO k y.1).
Qed.

Lemma map_assign_nil k v : map_assign (Comparator SO) dflt [] k v = [(k, v)].
Proof. done. Qed.

Lemma map_assign_cons x m k v :
  map_assign (Comparator SO) dflt (x :: m) k v =
    if Comparator SO x.1 k then x :: map_assign (Comparator SO) dflt m k v
    else if Comparator SO k x.1 then (k, v) :: x :: m else (x.1, v) :: m.
Proof.
  unfold map_assign, map_subscript. rewrite map_find_cons. simpl.
  destruct (Comparator SO x.1 k); simpl.
  - destruct (map_find (Comparator SO) m k); simpl; done.
  - destruct (Comparator SO k x.1); simpl; done.
Qed.

Lemma map_assign_keys m k v x :
  x ∈ (map_assign (Comparator SO) dflt m k v).*1 ↔ x = k ∨ x ∈ m.*1.
Proof.
  induction m as [|y m IH].
  { rewrite map_assign_nil, !fmap_cons, !elem_of_cons. simpl. tauto. }
  rewrite map_assign_cons.
  destruct (Comparator SO y.1 k) eqn:Hyk.
  { rewrite !fmap_cons, !elem_of_cons, IH. tauto. }
  destruct (Comparator SO k y.1) eqn:Hky.
  { rewrite !fmap_cons, !elem_of_cons. simpl. tauto. }
  rewrite (Comparator_total SO _ _ Hky Hyk), !fmap_cons, !elem_of_cons. simpl. tauto.
Qed.

Lemma map_assign_sorted m k v :
  map_sorted SO m → map_sorted SO (map_assign (Comparator SO) dflt m k v).
Proof.
  unfold map_sorted. induction 1 as [|y m Hm IH Hy]; [by repeat constructor|].
  rewrite map_assign_cons.
  destruct (Comparator SO y.1 k) eqn:Hyk.
  - constructor; [done|]. apply Forall_forall. intros z Hz.
    assert (z.1 ∈ (map_assign (Comparator SO) dflt m k v).*1) as Hz1
      by (apply list_elem_of_fmap; eauto).
    apply map_assign_keys in Hz1 as [->|Hz1]; [done|].
    apply list_elem_of_fmap in Hz1 as (z' & -> & Hz').
    rewrite Forall_forall in Hy. by apply Hy.
  - destruct (Comparator SO k y.1) eqn:Hky.
    + constructor; [by constructor|]. constructor; [done|].
      eapply Forall_impl; [exact Hy|]. intros z Hz. simpl.
      by eapply Comparator_trans.
    + by constructor.
Qed.

Lemma map_find_present m k :
  map_sorted SO m → k ∈ m.*1 → is_Some (map_find (Comparator SO) m k).
Proof.
  unfold map_sorted. induction 1 as [|y m Hm IH Hy]; intros Hk; [by apply elem_of_nil in Hk|].
  rewrite map_find_cons. rewrite fmap_cons in Hk. apply elem_of_cons in Hk as [->|Hk].
  - rewrite Comparator_irrefl. done.
  - assert (Comparator SO y.1 k = true) as ->.
    { apply list_elem_of_fmap in Hk as (z & -> & Hz). rewrite Forall_forall in Hy. by apply Hy. }
    destruct (IH Hk) as [p ->]. by eexists.
Qed.
End map_assign_facts.

(** ** The filling loops of the map backend *)

Section COOmap_fill.
Context {T D : Type} `{!DoubleOps D} `{!NumericOrComplex T D} (SO : StorageOrder).

Lemma fill_triplets_unbounded_done DEBUG (l : list index) (vs : list T) mr mc (m : COOmap.t) :
  (length l ≤ length vs)%nat →
  DEBUG = false ∨ (NoDup l ∧ ∀ x, x ∈ l → x ∉ m.*1) →
  ∃ m', COOmap.fill_triplets SO DEBUG None l vs mr mc m
        = Done (N.max mr (max_row l), N.max mc (max_col l), m').
Proof.
  revert vs mr mc m.
  induction l as [|x l IH]; intros vs mr mc m Hlen Hok; simpl in *.
  { eexists. f_equal. f_equal. f_equal; lia. }
  destruct vs as [|v vs]; [simpl in Hlen; lia|]. simpl in Hlen.
  rewrite assert_negative. simpl.
  assert (assert DEBUG (bool_decide (map_find (Comparator SO) m x = None)) Redefinition
          = Done tt) as ->.
  { destruct Hok as [->|[_ Hfresh]]; [done|]. unfold assert.
    rewrite bool_decide_eq_true_2; [by rewrite andb_false_r|].
    apply map_find_absent, Hfresh. left. }
  simpl.
  destruct (IH vs (N.max mr x.1) (N.max mc x.2) (map_assign (Comparator SO) t_zero m x v))
    as [m' Hm']; [lia| |].
  { destruct Hok as [?|[Hnd Hfresh]]; [by left|right].
    apply NoDup_cons in Hnd as [Hx Hnd]. split; [done|].
    intros y Hy Hin. apply map_assign_keys in Hin as [->|Hin]; [done|].
    apply (Hfresh y); [by right|done]. }
  exists m'. rewrite Hm'. f_equal. f_equal. f_equal; lia.
Qed.

Lemma fill_triplets_duplicate_aborts BD (l : list index) (vs : list T) mr mc (m : COOmap.t) :
  (length l ≤ length vs)%nat →
  map_sorted SO m →
  ¬ NoDup l ∨ (∃ x, x ∈ l ∧ x ∈ m.*1) →
  ∃ msg, COOmap.fill_triplets SO true BD l vs mr mc m = Abort msg
         ∧ (Forall (fits BD) l → msg = Redefinition).
Proof.
  revert vs mr mc m.
  induction l as [|x l IH]; intros vs mr mc m Hlen Hsort Hdup.
  { destruct Hdup as [Hnd|(c & Hc & _)]; [destruct Hnd; constructor|by apply elem_of_nil in Hc]. }
  destruct vs as [|v vs]; [simpl in Hlen; lia|]. simpl in Hlen.
  simpl.
  set (bounds := match BD with
                 | Some d => assert true ((x.1 <? rows d) && (x.2 <? columns d)) IndexTooBig
                 | None => Done tt
                 end).
  assert (bounds = Abort IndexTooBig ∧ ¬ fits BD x ∨ bounds = Done tt) as [[Hb Hfit]|Hb];
    [|rewrite Hb..].
  { subst bounds. destruct BD as [d|]; [|by right]. unfold assert, fits.
    destruct (N.ltb_spec x.1 (rows d)), (N.ltb_spec x.2 (columns d)); simpl;
      [by right|left; split; [done|lia]..]. }
  { simpl. eexists. split; [done|]. intros [? _]%Forall_cons. done. }
  clear Hb bounds. simpl. rewrite assert_negative. simpl.
  unfold assert at 1. simpl.
  destruct (decide (x ∈ m.*1)) as [Hin|Hnotin].
  - destruct (map_find_present SO m x Hsort Hin) as [p Hp].
    rewrite Hp. rewrite bool_decide_eq_false_2 by done. simpl.
    eexists. split; done.
  - rewrite (map_find_absent SO m x Hnotin).
    rewrite bool_decide_eq_true_2 by done. simpl.
    destruct (IH vs (if BD is None then N.max mr x.1 else mr)
                 (if BD is None then N.max mc x.2 else mc)
                 (map_assign (Comparator SO) t_zero m x v)) as (msg & Hmsg & Hred).
    + lia.
    + by apply map_assign_sorted.
    + destruct Hdup as [Hnd|(c & Hc & Hcm)].
      * destruct (decide (x ∈ l)) as [Hxl|Hxl].
        -- right. exists x. split; [done|]. apply map_assign_keys. by left.
        -- left. contradict Hnd. by constructor.
      * right. exists c. apply elem_of_cons in Hc as [->|Hc]; [done|].
        split; [done|]. apply map_assign_keys. by right.
    + exists msg. rewrite Hmsg. split; [done|]. intros [_ ?]%Forall_cons. auto.
Qed.

Lemma fill_map_unbounded_done DEBUG (src : list (index * T)) mr mc (m : COOmap.t) :
  ∃ m', COOmap.fill_map SO DEBUG None src mr mc m
        = Done (N.max mr (max_row src.*1), N.max mc (max_col src.*1), m').
Proof.
  revert mr mc m. induction src as [|[key val] src IH]; intros mr mc m; csimpl.
  { eexists. f_equal. f_equal. f_equal; lia. }
  rewrite assert_negative. simpl.
  destruct (IH (N.max mr key.1) (N.max mc key.2)
              (map_assign (Comparator SO) t_zero m key val)) as [m' Hm'].
  exists m'. rewrite Hm'. f_equal. f_equal. f_equal; lia.
Qed.
End COOmap_fill.

(** ** The constructors from triplets and from a map *)

Lemma size_add_1 (x : size_t) : x + 1 < SIZE_MOD → size_add x 1 = x + 1.
Proof. intros Hx. unfold size_add. by apply N.mod_small. Qed.

Section constructors.
Context {T D : Type} `{!DoubleOps D} `{!NumericOrComplex T D} (SO : StorageOrder).

Lemma assert_sizes DEBUG (indexes : list index) (values : list T) :
  length indexes = length values →
  assert DEBUG (bool_decide (length indexes = length values)) SizesDontMatch = Done tt.
Proof. intros Hlen. unfold assert. rewrite bool_decide_eq_true_2 by done. by rewrite andb_false_r. Qed.

Lemma COO_from_triplets_dimensions DEBUG (indexes : list index) (values : list T) :
  length indexes = length values →
  (DEBUG = true → NoDup indexes) →
  ∃ c, COO.from_triplets SO DEBUG None indexes values
       = Done ({| rows := size_add (max_row indexes) 1;
                  columns := size_add (max_col indexes) 1 |}, c).
Proof.
  intros Hlen Hnd. unfold COO.from_triplets. rewrite assert_sizes by done. simpl.
  destruct (sort_temporaries_spec SO indexes values Hlen) as (ti & tv & -> & Hti & Htv & _).
  simpl.
  destruct (fill_unbounded_done DEBUG true (reverse ti) (reverse tv) None 0 0 [] [])
    as [c Hc].
  { rewrite !length_reverse, Htv, <- Hlen. by rewrite Hti. }
  { destruct DEBUG; [|by left]. right; right. split; [|done].
    rewrite reverse_Permutation, Hti. by apply Hnd. }
  rewrite Hc. simpl. exists c. unfold COO.finish_dimensions, resize.
  rewrite (max_row_Permutation (reverse ti) indexes), (max_col_Permutation (reverse ti) indexes)
    by (by rewrite reverse_Permutation).
  by rewrite !N.max_0_l.
Qed.

Lemma COO_from_map_dimensions DEBUG (src : list (index * T)) :
  ∃ c, COO.from_map SO DEBUG None src
       = Done ({| rows := size_add (max_row src.*1) 1;
                  columns := size_add (max_col src.*1) 1 |}, c).
Proof.
  unfold COO.from_map.
  destruct (sort_temporaries_spec SO src.*1 src.*2) as (ti & tv & -> & Hti & Htv & _).
  { by rewrite !length_fmap. }
  simpl.
  destruct (fill_unbounded_done DEBUG false (reverse ti) (reverse tv) None 0 0 [] [])
    as [c Hc].
  { rewrite !length_reverse, Htv, Hti. by rewrite !length_fmap. }
  { by right; left. }
  rewrite Hc. simpl. exists c. unfold COO.finish_dimensions, resize.
  rewrite (max_row_Permutation (reverse ti) src.*1), (max_col_Permutation (reverse ti) src.*1)
    by (by rewrite reverse_Permutation).
  by rewrite !N.max_0_l.
Qed.

Lemma COOmap_from_triplets_dimensions DEBUG (indexes : list index) (values : list T) :
  length indexes = length values →
  (DEBUG = true → NoDup indexes) →
  ∃ c, COOmap.from_triplets SO DEBUG None indexes values
       = Done ({| rows := size_add (max_row indexes) 1;
                  columns := size_add (max_col indexes) 1 |}, c).
Proof.
  intros Hlen Hnd. unfold COOmap.from_triplets. rewrite assert_sizes by done. simpl.
  destruct (fill_triplets_unbounded_done SO DEBUG indexes values 0 0 []) as [c Hc]; [lia| |].
  { destruct DEBUG; [|by left]. right. split; [by apply Hnd|].
    intros x _ Hx. by apply elem_of_nil in Hx. }
  rewrite Hc. simpl. exists c. unfold COOmap.finish_dimensions, resize.
  by rewrite !N.max_0_l.
Qed.

Lemma COOmap_from_map_dimensions DEBUG (src : list (index * T)) :
  ∃ c, COOmap.from_map SO DEBUG None src
       = Done ({| rows := size_add (max_row src.*1) 1;
                  columns := size_add (max_col src.*1) 1 |}, c).
Proof.
  unfold COOmap.from_map.
  destruct (fill_map_unbounded_done SO DEBUG src 0 0 []) as [c Hc].
  rewrite Hc. simpl. exists c. unfold COOmap.finish_dimensions, resize.
  by rewrite !N.max_0_l.
Qed.

Lemma COO_from_triplets_duplicate BD (indexes : list index) (values : list T) :
  ¬ NoDup indexes →
  ∃ msg, COO.from_triplets SO true BD indexes values = Abort msg
         ∧ (length indexes = length values → Forall (fits BD) indexes → msg = Redefinition).
Proof.
  intros Hdup. unfold COO.from_triplets, assert.
  destruct (decide (length indexes = length values)) as [Hlen|Hlen].
  2: { rewrite bool_decide_eq_false_2 by done. simpl. eexists. split; [done|]. done. }
  rewrite bool_decide_eq_true_2 by done. simpl.
  destruct (sort_temporaries_spec SO indexes values Hlen) as (ti & tv & -> & Hti & Htv & Hsort).
  simpl.
  destruct (fill_duplicate_aborts SO BD (reverse ti) (reverse tv) None 0 0 [] [])
    as (msg & Hmsg & Hred).
  - rewrite !length_reverse, Htv, <- Hlen. by rewrite Hti.
  - by apply StronglySorted_reverse in Hsort.
  - done.
  - left. intros Hnd. apply Hdup. by rewrite reverse_Permutation, Hti in Hnd.
  - rewrite Hmsg. simpl. exists msg. split; [done|]. intros _ Hfits. apply Hred.
    by rewrite reverse_Permutation, Hti.
Qed.

Lemma COOmap_from_triplets_duplicate BD (indexes : list index) (values : list T) :
  ¬ NoDup indexes →
  ∃ msg, COOmap.from_triplets SO true BD indexes values = Abort msg
         ∧ (length indexes = length values → Forall (fits BD) indexes → msg = Redefinition).
Proof.
  intros Hdup. unfold COOmap.from_triplets, assert.
  destruct (decide (length indexes = length values)) as [Hlen|Hlen].
  2: { rewrite bool_decide_eq_false_2 by done. simpl. eexists. split; [done|]. done. }
  rewrite bool_decide_eq_true_2 by done. simpl.
  destruct (fill_triplets_duplicate_aborts SO BD indexes values 0 0 [])
    as (msg & Hmsg & Hred); [lia|constructor|by left|].
  rewrite Hmsg. simpl. exists msg. split; [done|]. auto.
Qed.
End constructors.

(** ** Construction from triplets and from a map *)

(** C7. In a DEBUG build, a triplet input in which some coordinate occurs
    twice makes the constructor abort on an assertion, with the list
    backend and with the map backend, whether or not dimensions are given;
    when the two sequences have equal length and every coordinate lies
    within the given dimensions, the assertion that fires is the one on
    the redefinition of an element. *)
Theorem duplicate_coordinate_aborts_construction :
  ∀ {T D : Type} `{!DoubleOps D} `{!NumericOrComplex T D} (SO : StorageOrder)
    (rc : option (size_t * size_t)) (indexes : list index) (values : list T),
    ¬ NoDup indexes →
    (∃ msg, Matrix.of_triplets (Dyn:=COO.t) SO true rc indexes values = Abort msg
            ∧ (length indexes = length values →
               Forall (fits (given_dimensions rc)) indexes → msg = Redefinition))
    ∧ (∃ msg, Matrix.of_triplets (Dyn:=COOmap.t) SO true rc indexes values = Abort msg
              ∧ (length indexes = length values →
                 Forall (fits (given_dimensions rc)) indexes → msg = Redefinition)).
Proof.
  intros T D HD HT SO rc indexes values Hdup. unfold Matrix.of_triplets. simpl. split.
  - destruct (COO_from_triplets_duplicate SO (given_dimensions rc) indexes values Hdup)
      as (msg & -> & Hmsg).
    by exists msg.
  - destruct (COOmap_from_triplets_duplicate SO (given_dimensions rc) indexes values Hdup)
      as (msg & -> & Hmsg).
    by exists msg.
Qed.

(** C8. Without given dimensions, a non-empty triplet input (two sequences
    of equal length, free of duplicates where the build checks for them)
    and a non-empty map input yield, with either backend, a dynamic matrix
    whose dimensions are (max row + 1, max column + 1), provided both
    numbers fit [size_t]; [max_row] and [max_col] are bounds of the input
    that the input attains. *)
Theorem inferred_dimensions_are_maximum_plus_one :
  ∀ {T D : Type} `{!DoubleOps D} `{!NumericOrComplex T D} (SO : StorageOrder)
    (DEBUG : bool),
    (∀ (indexes : list index) (values : list T),
       indexes ≠ [] →
       length indexes = length values →
       (DEBUG = true → NoDup indexes) →
       max_row indexes + 1 < SIZE_MOD →
       max_col indexes + 1 < SIZE_MOD →
       let d := {| rows := max_row indexes + 1; columns := max_col indexes + 1 |} in
       (∃ m, Matrix.of_triplets (Dyn:=COO.t) SO DEBUG None indexes values = Done m
             ∧ Matrix.dims m = d ∧ Matrix.isCompressed m = Some false)
       ∧ (∃ m, Matrix.of_triplets (Dyn:=COOmap.t) SO DEBUG None indexes values = Done m
               ∧ Matrix.dims m = d ∧ Matrix.isCompressed m = Some false)
       ∧ (∀ x, x ∈ indexes → x.1 ≤ max_row indexes ∧ x.2 ≤ max_col indexes)
       ∧ (∃ x, x ∈ indexes ∧ x.1 = max_row indexes)
       ∧ (∃ x, x ∈ indexes ∧ x.2 = max_col indexes))
    ∧ (∀ src : list (index * T),
       src ≠ [] →
       max_row src.*1 + 1 < SIZE_MOD →
       max_col src.*1 + 1 < SIZE_MOD →
       let d := {| rows := max_row src.*1 + 1; columns := max_col src.*1 + 1 |} in
       (∃ m, Matrix.of_map (Dyn:=COO.t) SO DEBUG None src = Done m
             ∧ Matrix.dims m = d ∧ Matrix.isCompressed m = Some false)
       ∧ (∃ m, Matrix.of_map (Dyn:=COOmap.t) SO DEBUG None src = Done m
               ∧ Matrix.dims m = d ∧ Matrix.isCompressed m = Some false)
       ∧ (∀ x, x ∈ src.*1 → x.1 ≤ max_row src.*1 ∧ x.2 ≤ max_col src.*1)
       ∧ (∃ x, x ∈ src.*1 ∧ x.1 = max_row src.*1)
       ∧ (∃ x, x ∈ src.*1 ∧ x.2 = max_col src.*1)).
Proof.
  intros T D HD HT SO DEBUG. split.
  - intros indexes values Hne Hlen Hnd Hr Hc d. subst d.
    unfold Matrix.of_triplets. simpl.
    destruct (COO_from_triplets_dimensions SO DEBUG indexes values Hlen Hnd) as [c1 ->].
    destruct (COOmap_from_triplets_dimensions SO DEBUG indexes values Hlen Hnd) as [c2 ->].
    simpl. rewrite !size_add_1 by done.
    split; [by eexists|]. split; [by eexists|].
    split; [|split]; [|by apply max_row_attained|by apply max_col_attained].
    intros x Hx. split; [by apply max_row_upper_bound|by apply max_col_upper_bound].
  - intros src Hne Hr Hc d. subst d.
    unfold Matrix.of_map. simpl.
    destruct (COO_from_map_dimensions SO DEBUG src) as [c1 ->].
    destruct (COOmap_from_map_dimensions SO DEBUG src) as [c2 ->].
    simpl. rewrite !size_add_1 by done.
    assert (src.*1 ≠ []) as Hne1 by (by destruct src).
    split; [by eexists|]. split; [by eexists|].
    split; [|split]; [|by apply max_row_attained|by apply max_col_attained].
    intros x Hx. split; [by apply max_row_upper_bound|by apply max_col_upper_bound].
Qed.

(** ** The confirmed statements at concrete inputs *)

Lemma duplicate_coordinate_aborts_construction_witness :
  ¬ NoDup [(0, 0); (2, 0); (0, 0)]
  ∧ (∃ msg, Matrix.of_triplets (Dyn:=COO.t) rowMajor true None
              [(0, 0); (2, 0); (0, 0)] [1; 3; 4]%Z = Abort msg
            ∧ (length [(0, 0); (2, 0); (0, 0)] = length [1; 3; 4]%Z →
               Forall (fits (given_dimensions None)) [(0, 0); (2, 0); (0, 0)] →
               msg = Redefinition))
  ∧ (∃ msg, Matrix.of_triplets (Dyn:=COOmap.t) rowMajor true None
              [(0, 0); (2, 0); (0, 0)] [1; 3; 4]%Z = Abort msg
            ∧ (length [(0, 0); (2, 0); (0, 0)] = length [1; 3; 4]%Z →
               Forall (fits (given_dimensions None)) [(0, 0); (2, 0); (0, 0)] →
               msg = Redefinition)).
Proof.
  assert (¬ NoDup [(0, 0); (2, 0); (0, 0)]) as Hdup.
  { apply (bool_decide_eq_false_1 (NoDup [(0, 0); (2, 0); (0, 0)])). reflexivity. }
  split; [exact Hdup|].
  exact (duplicate_coordinate_aborts_construction (T:=Z) (D:=Z) rowMajor None
           [(0, 0); (2, 0); (0, 0)] [1; 3; 4]%Z Hdup).
Defined.

Lemma inferred_dimensions_are_maximum_plus_one_witness :
  (∃ m, Matrix.of_triplets (Dyn:=COO.t) columnMajor true None
          [(0, 0); (12, 16)] [12; -37]%Z = Done m
        ∧ Matrix.dims m = {| rows := 13; columns := 17 |}
        ∧ Matrix.isCompressed m = Some false)
  ∧ (∃ m, Matrix.of_triplets (Dyn:=COOmap.t) columnMajor true None
            [(0, 0); (12, 16)] [12; -37]%Z = Done m
          ∧ Matrix.dims m = {| rows := 13; columns := 17 |}
          ∧ Matrix.isCompressed m = Some false)
  ∧ (∃ m, Matrix.of_map (Dyn:=COO.t) columnMajor true None
            [((0, 0), 10%Z); ((13, 14), (-6)%Z)] = Done m
          ∧ Matrix.dims m = {| rows := 14; columns := 15 |}
          ∧ Matrix.isCompressed m = Some false)
  ∧ (∃ m, Matrix.of_map (Dyn:=COOmap.t) columnMajor true None
            [((0, 0), 10%Z); ((13, 14), (-6)%Z)] = Done m
          ∧ Matrix.dims m = {| rows := 14; columns := 15 |}
          ∧ Matrix.isCompressed m = Some false).
Proof.
  destruct (inferred_dimensions_are_maximum_plus_one (T:=Z) (D:=Z) columnMajor true)
    as [Htriplets Hmap].
  destruct (Htriplets [(0, 0); (12, 16)] [12; -37]%Z) as (H1 & H2 & _).
  { discriminate. }
  { reflexivity. }
  { intros _. apply (bool_decide_eq_true_1 (NoDup [(0, 0); (12, 16)])). reflexivity. }
  { reflexivity. }
  { reflexivity. }
  destruct (Hmap [((0, 0), 10%Z); ((13, 14), (-6)%Z)]) as (H3 & H4 & _).
  { discriminate. }
  { reflexivity. }
  { reflexivity. }
  exact (conj H1 (conj H2 (conj H3 H4))).
Defined.

Lemma mutable_access_stores_one_zero_entry_witness :
  let c := {| COO.indexlist := [(0, 0); (2, 0)]; COO.valueslist := [1; 5]%Z |} in
  let m := {| Matrix.dims := {| rows := 3; columns := 1 |}; Matrix.compressed := None;
              Matrix.dynamic := Some c; Matrix.isCompressed := Some false |} in
  let cm : COOmap.t := [((0, 0), 1%Z); ((2, 0), 5%Z)] in
  let mm := {| Matrix.dims := {| rows := 3; columns := 1 |}; Matrix.compressed := None;
               Matrix.dynamic := Some cm; Matrix.isCompressed := Some false |} in
  ((1, 0) ∉ COO.indexlist c)
  ∧ (∃ k : nat,
      let c' := {| COO.indexlist := vinsert k (1, 0) (COO.indexlist c);
                   COO.valueslist := vinsert k 0%Z (COO.valueslist c) |} in
      let m' := {| Matrix.dims := Matrix.dims m; Matrix.compressed := Matrix.compressed m;
                   Matrix.dynamic := Some c'; Matrix.isCompressed := Some false |} in
      (k ≤ 2)%nat
      ∧ Matrix.call rowMajor true m 1 0 = Done (m', k)
      ∧ COO.read_slot c' k = Done 0%Z
      ∧ Matrix.get_num_elements rowMajor m = Done 2
      ∧ Matrix.get_num_elements rowMajor m' = Done 3)
  ∧ ((1, 0) ∉ cm.*1)
  ∧ (∃ k : nat,
      let c' := vinsert k ((1, 0), 0%Z) cm in
      let m' := {| Matrix.dims := Matrix.dims mm; Matrix.compressed := Matrix.compressed mm;
                   Matrix.dynamic := Some c'; Matrix.isCompressed := Some false |} in
      (k ≤ 2)%nat
      ∧ Matrix.call rowMajor true mm 1 0 = Done (m', k)
      ∧ COOmap.read_slot c' k = Done 0%Z
      ∧ Matrix.get_num_elements rowMajor mm = Done 2
      ∧ Matrix.get_num_elements rowMajor m' = Done 3).
Proof.
  intros c m cm mm.
  assert ((1, 0) ∉ COO.indexlist c) as Hnotin.
  { apply (bool_decide_eq_true_1 ((1, 0) ∉ [(0, 0); (2, 0)])). reflexivity. }
  assert ((1, 0) ∉ cm.*1) as Hnotin'.
  { apply (bool_decide_eq_true_1 ((1, 0) ∉ [(0, 0); (2, 0)])). reflexivity. }
  destruct (mutable_access_stores_one_zero_entry (T:=Z) (D:=Z) rowMajor true 1 0)
    as (Hlist & Hmap & _).
  split; [exact Hnotin|]. split; [exact (Hlist m c eq_refl eq_refl eq_refl eq_refl Hnotin)|].
  split; [exact Hnotin'|]. exact (Hmap mm cm eq_refl eq_refl eq_refl Hnotin').
Defined.

(** * Further properties *)

(** ** Sorting by a permutation *)

Lemma zip_gather {A B} `{!Inhabited A, !Inhabited B} (l1 : list A) (l2 : list B) (p : list nat) :
  length l1 = length l2 →
  Forall (fun x => x < length l1)%nat p →
  zip ((fun x => l1 !!! x) <$> p) ((fun x => l2 !!! x) <$> p)
  = (fun x => zip l1 l2 !!! x) <$> p.
Proof.
  intros Hlen. induction 1 as [|x p Hx Hp IH]; csimpl; [done|].
  rewrite IH. f_equal.
  assert (is_Some (l1 !! x)) as [a Ha] by (by apply lookup_lt_is_Some).
  assert (is_Some (l2 !! x)) as [b Hb] by (apply lookup_lt_is_Some; lia).
  rewrite (list_lookup_total_correct _ _ _ Ha), (list_lookup_total_correct _ _ _ Hb).
  symmetry. apply list_lookup_total_correct.
  rewrite lookup_zip_with, Ha, Hb. done.
Qed.

Lemma sort_temporaries_zip {T} SO (indexes : list index) (values : list T) :
  length indexes = length values →
  ∃ ti tv,
    COO.sort_temporaries SO indexes values = Done (ti, tv)
    ∧ length ti = length tv
    ∧ zip ti tv ≡ₚ zip indexes values
    ∧ ti ≡ₚ indexes
    ∧ StronglySorted (fun a b => Comparator SO b a = false) ti.
Proof.
  intros Hlen. destruct values as [|v0 values].
  { destruct indexes; [|done]. exists [], []. repeat split; try done. constructor. }
  assert (Inhabited T) by exact (populate v0).
  unfold COO.sort_temporaries.
  pose proof (sort_permutation_Permutation SO indexes) as Hp.
  rewrite (apply_permutation_gather indexes _ Hp). simpl.
  assert (sort_permutation SO indexes ≡ₚ seq 0 (length (v0 :: values))) as Hp'
    by (by rewrite <- Hlen).
  rewrite (apply_permutation_gather (v0 :: values) _ Hp'). simpl.
  eexists _, _. split; [done|]. split; [by rewrite !length_fmap|].
  split; [|split].
  - rewrite zip_gather; [|done|].
    + apply gather_Permutation. rewrite length_zip_with, <- Hlen, Nat.min_id. exact Hp.
    + rewrite Hp. apply Forall_forall. intros x Hx%elem_of_seq. lia.
  - by apply gather_Permutation.
  - eapply StronglySorted_fmap; [|apply std_sort_sorted].
    + intros a b Hab. exact Hab.
    + intros a b. apply Comparator_asym.
    + intros a b c. apply Comparator_negtrans.
Qed.

(** ** The filling loop of the list backend stores what it is given *)

Lemma assert_fits DEBUG BD (x : index) :
  (DEBUG = true → fits BD x) →
  match BD with
  | Some d => assert DEBUG ((x.1 <? rows d) && (x.2 <? columns d)) IndexTooBig
  | None => Done tt
  end = Done tt.
Proof.
  intros Hfit. destruct BD as [d|]; [|done]. unfold assert.
  destruct DEBUG; [|done]. destruct (Hfit eq_refl) as [H1 H2].
  apply N.ltb_lt in H1, H2. by rewrite H1, H2.
Qed.

Lemma fill_stores {T} DEBUG check_dup BD (l : list index) (vs : list T)
    prev mr mc il vl :
  length l = length vs →
  (DEBUG = true → Forall (fits BD) l) →
  (DEBUG = true → check_dup = true → NoDup l ∧ ∀ c, prev = Some c → c ∉ l) →
  COO.fill DEBUG check_dup BD l vs prev mr mc il vl
  = Done (if BD is None then N.max mr (max_row l) else mr,
          if BD is None then N.max mc (max_col l) else mc,
          {| COO.indexlist := reverse l ++ il; COO.valueslist := reverse vs ++ vl |}).
Proof.
  revert vs prev mr mc il vl.
  induction l as [|x l IH]; intros [|v vs] prev mr mc il vl Hlen Hfit Hok; simpl in *; try done.
  { f_equal. f_equal. f_equal; destruct BD; try done; change (max_row []) with 0;
      change (max_col []) with 0; lia. }
  rewrite assert_fits by (intros HD; by apply Forall_cons in Hfit as [? _]).
  simpl. rewrite assert_negative. simpl.
  assert (match prev with
          | Some c => if check_dup
                      then assert DEBUG (negb (bool_decide (x = c))) Redefinition
                      else Done tt
          | None => Done tt
          end = Done tt) as ->.
  { destruct prev as [c|]; [|done]. destruct check_dup; [|done]. unfold assert.
    destruct DEBUG; [|done]. destruct (Hok eq_refl eq_refl) as [_ Hprev].
    rewrite bool_decide_eq_false_2; [done|].
    intros ->. apply (Hprev c); [done|left]. }
  simpl. rewrite IH.
  - rewrite !reverse_cons, <- !app_assoc. simpl.
    f_equal. f_equal. f_equal; destruct BD; try done;
      change (max_row (x :: l)) with (N.max x.1 (max_row l));
      change (max_col (x :: l)) with (N.max x.2 (max_col l)); lia.
  - lia.
  - intros HD. by apply Forall_cons in Hfit as [_ ?].
  - intros HD Hcd. destruct (Hok HD Hcd) as [Hnd _].
    apply NoDup_cons in Hnd as [Hx Hnd]. split; [done|]. by intros c [= <-].
Qed.

Lemma sorted_NoDup_ascending SO (l : list index) :
  StronglySorted (fun a b => Comparator SO b a = false) l → NoDup l → ascending SO l.
Proof.
  unfold ascending. induction 1 as [|x l Hl IH Hx]; intros Hnd; [constructor|].
  apply NoDup_cons in Hnd as [Hxl Hnd]. constructor; [by apply IH|].
  rewrite Forall_forall in Hx. apply Forall_forall. intros y Hy.
  destruct (Comparator SO x y) eqn:Hxy; [done|].
  exfalso. apply Hxl. by rewrite (Comparator_total SO x y Hxy (Hx y Hy)).
Qed.

Lemma ascending_NoDup SO (l : list index) : ascending SO l → NoDup l.
Proof.
  induction 1 as [|x l Hl IH Hx]; constructor; [|done].
  intros Hin. rewrite Forall_forall in Hx. specialize (Hx x Hin).
  by rewrite Comparator_irrefl in Hx.
Qed.

Lemma ascending_map_sorted {V} SO (il : list index) (vl : list V) :
  ascending SO il → map_sorted SO (zip il vl).
Proof.
  unfold ascending, map_sorted. intros Hil. revert vl.
  induction Hil as [|x il Hil IH Hx]; intros [|v vl]; simpl; try constructor; [done|].
  apply Forall_forall. intros [y w] Hy. apply elem_of_zip_l in Hy.
  rewrite Forall_forall in Hx. by apply Hx.
Qed.

Lemma map_sorted_unique {V} SO (m1 m2 : list (index * V)) :
  map_sorted SO m1 → map_sorted SO m2 → m1 ≡ₚ m2 → m1 = m2.
Proof.
  apply StronglySorted_unique_strong. intros x1 x2 _ _ H12 H21.
  by rewrite (Comparator_asym _ _ _ H12) in H21.
Qed.

Lemma constructed_dimensions_Permutation BD l l' :
  l ≡ₚ l' → constructed_dimensions BD l = constructed_dimensions BD l'.
Proof.
  intros Hl. unfold constructed_dimensions. destruct BD; [done|].
  by rewrite (max_row_Permutation l l'), (max_col_Permutation l l').
Qed.

Section list_constructors.
Context {T : Type} (SO : StorageOrder).

Lemma COO_from_triplets_stores DEBUG BD (indexes : list index) (values : list T) :
  length indexes = length values →
  (DEBUG = true → NoDup indexes ∧ Forall (fits BD) indexes) →
  ∃ c, COO.from_triplets SO DEBUG BD indexes values
         = Done (constructed_dimensions BD indexes, c)
       ∧ length (COO.indexlist c) = length (COO.valueslist c)
       ∧ entries c ≡ₚ zip indexes values
       ∧ StronglySorted (fun a b => Comparator SO b a = false) (COO.indexlist c)
       ∧ (NoDup indexes → ascending SO (COO.indexlist c)).
Proof.
  intros Hlen Hok. unfold COO.from_triplets. rewrite assert_sizes by done. simpl.
  destruct (sort_temporaries_zip SO indexes values Hlen)
    as (ti & tv & -> & Hlt & Hzip & Hti & Hsort).
  simpl. rewrite fill_stores.
  - simpl. rewrite !reverse_involutive, !app_nil_r.
    eexists. split; [|split; [|split; [|split]]]; simpl.
    + f_equal. f_equal. unfold COO.finish_dimensions, constructed_dimensions, resize.
      destruct BD; [done|].
      rewrite (max_row_Permutation (reverse ti) indexes),
        (max_col_Permutation (reverse ti) indexes) by (by rewrite reverse_Permutation).
      by rewrite !N.max_0_l.
    + done.
    + done.
    + done.
    + simpl. intros Hnd. apply sorted_NoDup_ascending; [done|]. by rewrite Hti.
  - by rewrite !length_reverse.
  - intros HD. rewrite reverse_Permutation, Hti. by apply Hok.
  - intros HD _. split; [|done]. rewrite reverse_Permutation, Hti. by apply Hok.
Qed.

Lemma COO_from_map_stores DEBUG BD (src : list (index * T)) :
  (DEBUG = true → Forall (fits BD) src.*1) →
  ∃ c, COO.from_map SO DEBUG BD src = Done (constructed_dimensions BD src.*1, c)
       ∧ length (COO.indexlist c) = length (COO.valueslist c)
       ∧ entries c ≡ₚ src
       ∧ StronglySorted (fun a b => Comparator SO b a = false) (COO.indexlist c)
       ∧ (NoDup src.*1 → ascending SO (COO.indexlist c)).
Proof.
  intros Hok. unfold COO.from_map.
  destruct (sort_temporaries_zip SO src.*1 src.*2)
    as (ti & tv & -> & Hlt & Hzip & Hti & Hsort); [by rewrite !length_fmap|].
  simpl. rewrite fill_stores.
  - simpl. rewrite !reverse_involutive, !app_nil_r.
    eexists. split; [|split; [|split; [|split]]]; simpl.
    + f_equal. f_equal. unfold COO.finish_dimensions, constructed_dimensions, resize.
      destruct BD; [done|].
      rewrite (max_row_Permutation (reverse ti) src.*1),
        (max_col_Permutation (reverse ti) src.*1) by (by rewrite reverse_Permutation).
      by rewrite !N.max_0_l.
    + done.
    + unfold entries. simpl. rewrite Hzip. by rewrite zip_fst_snd.
    + done.
    + simpl. intros Hnd. apply sorted_NoDup_ascending; [done|]. by rewrite Hti.
  - by rewrite !length_reverse.
  - intros HD. rewrite reverse_Permutation, Hti. by apply Hok.
  - done.
Qed.
End list_constructors.

(** ** The filling loops of the map backend store what they are given *)

Section map_constructors.
Context {T D : Type} `{!DoubleOps D} `{!NumericOrComplex T D} (SO : StorageOrder).

Lemma map_assign_fresh (m : list (index * T)) (k : index) (v : T) :
  k ∉ m.*1 → map_assign (Comparator SO) t_zero m k v ≡ₚ (k, v) :: m.
Proof.
  induction m as [|x m IH]; intros Hk; [done|].
  rewrite fmap_cons in Hk. apply not_elem_of_cons in Hk as [Hne Hk].
  rewrite map_assign_cons.
  destruct (Comparator SO x.1 k) eqn:Hxk.
  - rewrite IH by done. apply Permutation_swap.
  - destruct (Comparator SO k x.1) eqn:Hkx; [done|].
    by rewrite (Comparator_total SO _ _ Hkx Hxk) in Hne.
Qed.

Lemma fill_triplets_stores DEBUG BD (l : list index) (vs : list T) mr mc (m : COOmap.t) :
  length l = length vs →
  (DEBUG = true → Forall (fits BD) l) →
  NoDup l → (∀ x, x ∈ l → x ∉ m.*1) →
  ∃ m', COOmap.fill_triplets SO DEBUG BD l vs mr mc m
          = Done (if BD is None then N.max mr (max_row l) else mr,
                  if BD is None then N.max mc (max_col l) else mc, m')
        ∧ m' ≡ₚ m ++ zip l vs
        ∧ (map_sorted SO m → map_sorted SO m').
Proof.
  revert vs mr mc m.
  induction l as [|x l IH]; intros [|v vs] mr mc m Hlen Hfit Hnd Hfresh; simpl in *; try done.
  { exists m. split; [|split; [by rewrite app_nil_r|done]].
    f_equal. f_equal. f_equal; destruct BD; try done; change (max_row []) with 0;
      change (max_col []) with 0; lia. }
  rewrite assert_fits by (intros HD; by apply Forall_cons in Hfit as [? _]).
  simpl. rewrite assert_negative. simpl.
  assert (assert DEBUG (bool_decide (map_find (Comparator SO) m x = None)) Redefinition
          = Done tt) as ->.
  { unfold assert. rewrite bool_decide_eq_true_2; [by rewrite andb_false_r|].
    apply map_find_absent, Hfresh. left. }
  simpl. apply NoDup_cons in Hnd as [Hx Hnd].
  destruct (IH vs (if BD is None then N.max mr x.1 else mr)
              (if BD is None then N.max mc x.2 else mc)
              (map_assign (Comparator SO) t_zero m x v))
    as (m' & -> & Hperm & Hsort); [lia| |done| |].
  { intros HD. by apply Forall_cons in Hfit as [_ ?]. }
  { intros y Hy Hin. apply map_assign_keys in Hin as [->|Hin]; [done|].
    apply (Hfresh y); [by right|done]. }
  exists m'. split; [|split].
  - f_equal. f_equal. f_equal; destruct BD; try done;
      change (max_row (x :: l)) with (N.max x.1 (max_row l));
      change (max_col (x :: l)) with (N.max x.2 (max_col l)); lia.
  - rewrite Hperm, map_assign_fresh by (apply Hfresh; left).
    by rewrite <- Permutation_middle.
  - intros Hm. by apply Hsort, map_assign_sorted.
Qed.

Lemma fill_map_stores DEBUG BD (src : list (index * T)) mr mc (m : COOmap.t) :
  (DEBUG = true → Forall (fits BD) src.*1) →
  NoDup src.*1 → (∀ x, x ∈ src.*1 → x ∉ m.*1) →
  ∃ m', COOmap.fill_map SO DEBUG BD src mr mc m
          = Done (if BD is None then N.max mr (max_row src.*1) else mr,
                  if BD is None then N.max mc (max_col src.*1) else mc, m')
        ∧ m' ≡ₚ m ++ src
        ∧ (map_sorted SO m → map_sorted SO m').
Proof.
  revert mr mc m.
  induction src as [|[key val] src IH]; intros mr mc m Hfit Hnd Hfresh; csimpl in *.
  { exists m. split; [|split; [by rewrite app_nil_r|done]].
    f_equal. f_equal. f_equal; destruct BD; try done; change (max_row []) with 0;
      change (max_col []) with 0; lia. }
  rewrite assert_fits by (intros HD; by apply Forall_cons in Hfit as [? _]).
  simpl. rewrite assert_negative. simpl.
  apply NoDup_cons in Hnd as [Hx Hnd].
  destruct (IH (if BD is None then N.max mr key.1 else mr)
              (if BD is None then N.max mc key.2 else mc)
              (map_assign (Comparator SO) t_zero m key val))
    as (m' & -> & Hperm & Hsort); [|done| |].
  { intros HD. by apply Forall_cons in Hfit as [_ ?]. }
  { intros y Hy Hin. apply map_assign_keys in Hin as [->|Hin]; [done|].
    apply (Hfresh y); [by right|done]. }
  exists m'. split; [|split].
  - f_equal. f_equal. f_equal; destruct BD; try done;
      change (max_row (key :: src.*1)) with (N.max key.1 (max_row src.*1));
      change (max_col (key :: src.*1)) with (N.max key.2 (max_col src.*1)); lia.
  - rewrite Hperm, map_assign_fresh by (apply Hfresh; left).
    by rewrite <- Permutation_middle.
  - intros Hm. by apply Hsort, map_assign_sorted.
Qed.

Lemma COOmap_from_triplets_stores DEBUG BD (indexes : list index) (values : list T) :
  length indexes = length values →
  NoDup indexes →
  (DEBUG = true → Forall (fits BD) indexes) →
  ∃ m, COOmap.from_triplets SO DEBUG BD indexes values
         = Done (constructed_dimensions BD indexes, m)
       ∧ m ≡ₚ zip indexes values
       ∧ map_sorted SO m.
Proof.
  intros Hlen Hnd Hfit. unfold COOmap.from_triplets. rewrite assert_sizes by done. simpl.
  destruct (fill_triplets_stores DEBUG BD indexes values 0 0 [] Hlen Hfit Hnd)
    as (m & -> & Hperm & Hsort).
  { intros x _ Hx. by apply elem_of_nil in Hx. }
  simpl. exists m. split; [|split; [done|apply Hsort; constructor]].
  f_equal. f_equal. unfold COOmap.finish_dimensions, constructed_dimensions, resize.
  destruct BD; [done|]. by rewrite !N.max_0_l.
Qed.

Lemma COOmap_from_map_stores DEBUG BD (src : list (index * T)) :
  NoDup src.*1 →
  (DEBUG = true → Forall (fits BD) src.*1) →
  ∃ m, COOmap.from_map SO DEBUG BD src = Done (constructed_dimensions BD src.*1, m)
       ∧ m ≡ₚ src
       ∧ map_sorted SO m.
Proof.
  intros Hnd Hfit. unfold COOmap.from_map.
  destruct (fill_map_stores DEBUG BD src 0 0 [] Hfit Hnd) as (m & -> & Hperm & Hsort).
  { intros x _ Hx. by apply elem_of_nil in Hx. }
  simpl. exists m. split; [|split; [done|apply Hsort; constructor]].
  f_equal. f_equal. unfold COOmap.finish_dimensions, constructed_dimensions, resize.
  destruct BD; [done|]. by rewrite !N.max_0_l.
Qed.
End map_constructors.

(** ** [std::map]: what a key holds after [operator[]], assignment and [erase] *)

Section map_value_facts.
Context {T D : Type} `{!DoubleOps D} `{!NumericOrComplex T D} (SO : StorageOrder).
Implicit Types (m : list (index * T)) (k : index) (v : T).

Lemma map_value_nil k : map_value SO [] k = t_zero.
Proof. done. Qed.

Lemma map_value_cons x m k :
  map_value SO (x :: m) k =
    if Comparator SO x.1 k then map_value SO m k
    else if Comparator SO k x.1 then t_zero else x.2.
Proof.
  unfold map_value. rewrite map_find_cons.
  destruct (Comparator SO x.1 k); simpl.
  - by destruct (map_find (Comparator SO) m k).
  - by destruct (Comparator SO k x.1).
Qed.

Lemma map_subscript_cons x m k :
  map_subscript (Comparator SO) t_zero (x :: m) k =
    if Comparator SO x.1 k
    then (x :: (map_subscript (Comparator SO) t_zero m k).1,
          S (map_subscript (Comparator SO) t_zero m k).2)
    else if Comparator SO k x.1 then ((k, t_zero) :: x :: m, 0%nat) else (x :: m, 0%nat).
Proof.
  unfold map_subscript. rewrite map_find_cons. simpl.
  destruct (Comparator SO x.1 k); simpl.
  - destruct (map_find (Comparator SO) m k); simpl; done.
  - destruct (Comparator SO k x.1); simpl; done.
Qed.

Lemma map_erase_cons x m k :
  map_erase (Comparator SO) (x :: m) k =
    if Comparator SO x.1 k
    then (x :: (map_erase (Comparator SO) m k).1, (map_erase (Comparator SO) m k).2)
    else if Comparator SO k x.1 then (x :: m, 0%nat) else (m, 1%nat).
Proof.
  unfold map_erase. rewrite map_find_cons. simpl.
  destruct (Comparator SO x.1 k); simpl.
  - destruct (map_find (Comparator SO) m k); simpl; done.
  - destruct (Comparator SO k x.1); simpl; done.
Qed.

Lemma map_value_assign_same m k v :
  map_value SO (map_assign (Comparator SO) t_zero m k v) k = v.
Proof.
  induction m as [|x m IH].
  { rewrite map_assign_nil, map_value_cons. simpl. by rewrite Comparator_irrefl. }
  rewrite map_assign_cons. destruct (Comparator SO x.1 k) eqn:Hxk.
  - by rewrite map_value_cons, Hxk.
  - destruct (Comparator SO k x.1) eqn:Hkx; rewrite map_value_cons; simpl;
      by rewrite ?Comparator_irrefl, ?Hxk, ?Hkx.
Qed.

Lemma map_value_assign_other m k v k' :
  k' ≠ k → map_value SO (map_assign (Comparator SO) t_zero m k v) k' = map_value SO m k'.
Proof.
  intros Hne. induction m as [|x m IH].
  { rewrite map_assign_nil, map_value_cons, map_value_nil. simpl.
    destruct (Comparator SO k k') eqn:H1; [done|].
    destruct (Comparator SO k' k) eqn:H2; [done|].
    by rewrite (Comparator_total SO _ _ H2 H1) in Hne. }
  rewrite map_assign_cons. destruct (Comparator SO x.1 k) eqn:Hxk.
  - rewrite !map_value_cons. by rewrite IH.
  - destruct (Comparator SO k x.1) eqn:Hkx.
    + rewrite !map_value_cons. simpl.
      destruct (Comparator SO k k') eqn:H1; [done|].
      destruct (Comparator SO k' k) eqn:H2.
      * rewrite (Comparator_negtrans SO k' k x.1) by done.
        by rewrite (Comparator_trans SO k' k x.1).
      * by rewrite (Comparator_total SO _ _ H2 H1) in Hne.
    + rewrite !map_value_cons. simpl.
      destruct (Comparator SO x.1 k') eqn:H1; [done|].
      destruct (Comparator SO k' x.1) eqn:H2; [done|].
      rewrite (Comparator_total SO _ _ Hkx Hxk) in Hne.
      by rewrite (Comparator_total SO _ _ H2 H1) in Hne.
Qed.

Lemma map_value_subscript m k k' :
  map_value SO (map_subscript (Comparator SO) t_zero m k).1 k' = map_value SO m k'.
Proof.
  induction m as [|x m IH].
  { change (map_subscript (Comparator SO) t_zero [] k).1 with [(k, t_zero : T)].
    rewrite map_value_cons, map_value_nil. simpl.
    by destruct (Comparator SO k k'), (Comparator SO k' k). }
  rewrite map_subscript_cons. destruct (Comparator SO x.1 k) eqn:Hxk; simpl.
  - rewrite !map_value_cons. by rewrite IH.
  - destruct (Comparator SO k x.1) eqn:Hkx; simpl; [|done].
    rewrite !map_value_cons. simpl.
    destruct (Comparator SO k k') eqn:H1; [done|].
    destruct (Comparator SO k' k) eqn:H2.
    + rewrite (Comparator_negtrans SO k' k x.1) by done.
      by rewrite (Comparator_trans SO k' k x.1).
    + rewrite (Comparator_total SO _ _ H2 H1). by rewrite Hxk, Hkx.
Qed.

Lemma map_value_absent m k : k ∉ m.*1 → map_value SO m k = t_zero.
Proof. intros Hk. unfold map_value. by rewrite (map_find_absent SO m k Hk). Qed.


Lemma map_value_erase_same m k :
  map_sorted SO m → map_value SO (map_erase (Comparator SO) m k).1 k = t_zero.
Proof.
  unfold map_sorted. induction 1 as [|x m Hm IH Hx]; [done|].
  rewrite map_erase_cons. destruct (Comparator SO x.1 k) eqn:Hxk; simpl.
  - by rewrite map_value_cons, Hxk.
  - destruct (Comparator SO k x.1) eqn:Hkx; simpl.
    + by rewrite map_value_cons, Hxk, Hkx.
    + apply map_value_absent. intros Hin. apply list_elem_of_fmap in Hin as (y & -> & Hy).
      rewrite Forall_forall in Hx. specialize (Hx y Hy).
      rewrite (Comparator_total SO _ _ Hkx Hxk) in Hx. by rewrite Comparator_irrefl in Hx.
Qed.

Lemma map_value_erase_other m k k' :
  map_sorted SO m → k' ≠ k →
  map_value SO (map_erase (Comparator SO) m k).1 k' = map_value SO m k'.
Proof.
  unfold map_sorted. intros Hm Hne. induction Hm as [|x m Hm IH Hx]; [done|].
  rewrite map_erase_cons. destruct (Comparator SO x.1 k) eqn:Hxk; simpl.
  - rewrite !map_value_cons. by rewrite IH.
  - destruct (Comparator SO k x.1) eqn:Hkx; simpl; [done|].
    rewrite map_value_cons. rewrite <- (Comparator_total SO _ _ Hkx Hxk).
    destruct (Comparator SO k k') eqn:H1; [done|].
    destruct (Comparator SO k' k) eqn:H2.
    + apply map_value_absent. intros Hin. apply list_elem_of_fmap in Hin as (y & -> & Hy).
      rewrite Forall_forall in Hx. specialize (Hx y Hy).
      rewrite <- (Comparator_total SO _ _ Hkx Hxk) in Hx.
      pose proof (Comparator_trans SO _ _ _ H2 Hx) as Hyy.
      by rewrite Comparator_irrefl in Hyy.
    + by rewrite (Comparator_total SO _ _ H2 H1) in Hne.
Qed.

Lemma map_subscript_keys m k x :
  x ∈ (map_subscript (Comparator SO) t_zero m k).1.*1 ↔ x = k ∨ x ∈ m.*1.
Proof.
  induction m as [|y m IH].
  { change (map_subscript (Comparator SO) t_zero [] k).1 with [(k, t_zero : T)].
    rewrite !fmap_cons, !elem_of_cons. simpl. tauto. }
  rewrite map_subscript_cons.
  destruct (Comparator SO y.1 k) eqn:Hyk; cbn [fst snd].
  { rewrite !fmap_cons, !elem_of_cons, IH. tauto. }
  destruct (Comparator SO k y.1) eqn:Hky; cbn [fst snd].
  { rewrite !fmap_cons, !elem_of_cons. simpl. tauto. }
  rewrite (Comparator_total SO _ _ Hky Hyk), !fmap_cons, !elem_of_cons. simpl. tauto.
Qed.

Lemma map_subscript_sorted m k :
  map_sorted SO m → map_sorted SO (map_subscript (Comparator SO) t_zero m k).1.
Proof.
  unfold map_sorted. induction 1 as [|y m Hm IH Hy]; [by repeat constructor|].
  rewrite map_subscript_cons.
  destruct (Comparator SO y.1 k) eqn:Hyk; simpl.
  - constructor; [done|]. apply Forall_forall. intros z Hz.
    assert (z.1 ∈ (map_subscript (Comparator SO) t_zero m k).1.*1) as Hz1
      by (apply list_elem_of_fmap; eauto).
    apply map_subscript_keys in Hz1 as [->|Hz1]; [done|].
    apply list_elem_of_fmap in Hz1 as (z' & -> & Hz').
    rewrite Forall_forall in Hy. by apply Hy.
  - destruct (Comparator SO k y.1) eqn:Hky; simpl.
    + constructor; [by constructor|]. constructor; [done|].
      eapply Forall_impl; [exact Hy|]. intros z Hz. simpl.
      by eapply Comparator_trans.
    + by constructor.
Qed.

Lemma map_erase_sorted m k :
  map_sorted SO m → map_sorted SO (map_erase (Comparator SO) m k).1.
Proof.
  unfold map_sorted. induction 1 as [|y m Hm IH Hy]; [by repeat constructor|].
  rewrite map_erase_cons.
  destruct (Comparator SO y.1 k) eqn:Hyk; simpl.
  - constructor; [done|]. apply Forall_forall. intros z Hz.
    rewrite Forall_forall in Hy. apply Hy.
    clear -Hz. revert Hz. generalize m. clear m. intros m.
    unfold map_erase. destruct (map_find (Comparator SO) m k) as [p|]; simpl; [|done].
    unfold verase. intros [Hz|Hz]%elem_of_app.
    + by eapply subseteq_take.
    + by eapply subseteq_drop.
  - destruct (Comparator SO k y.1) eqn:Hky; simpl; [by constructor|done].
Qed.
End map_value_facts.

(** ** The list backend through its entries *)

Lemma zip_vinsert {A B} k (x : A) (y : B) (l1 : list A) (l2 : list B) :
  length l1 = length l2 →
  zip (vinsert k x l1) (vinsert k y l2) = vinsert k (x, y) (zip l1 l2).
Proof.
  intros Hlen. unfold vinsert. rewrite zip_with_app.
  - simpl. by rewrite zip_with_take, zip_with_drop.
  - rewrite !length_take. lia.
Qed.

Lemma zip_verase {A B} k (l1 : list A) (l2 : list B) :
  length l1 = length l2 →
  zip (verase k l1) (verase k l2) = verase k (zip l1 l2).
Proof.
  intros Hlen. unfold verase. rewrite zip_with_app.
  - by rewrite zip_with_take, zip_with_drop.
  - rewrite !length_take. lia.
Qed.

Lemma length_verase {A} k (l : list A) :
  (k < length l)%nat → length (verase k l) = (length l - 1)%nat.
Proof. intros Hk. unfold verase. rewrite length_app, length_take, length_drop. lia. Qed.

Lemma zip_insert_r {A B} k (y : B) (l1 : list A) (l2 : list B) :
  zip l1 (<[k:=y]> l2) = alter (fun x => (x.1, y)) k (zip l1 l2).
Proof.
  revert k l2. induction l1 as [|a l1 IH]; intros k [|b l2]; simpl; try done.
  all: destruct k; simpl; try done.
  f_equal. apply IH.
Qed.

Section list_through_entries.
Context {T D : Type} `{!DoubleOps D} `{!NumericOrComplex T D} (SO : StorageOrder).

Lemma entries_fst (c : @COO.t T) :
  length (COO.indexlist c) = length (COO.valueslist c) → (entries c).*1 = COO.indexlist c.
Proof. intros Hlen. apply fst_zip. lia. Qed.

Lemma entries_snd (c : @COO.t T) :
  length (COO.indexlist c) = length (COO.valueslist c) → (entries c).*2 = COO.valueslist c.
Proof. intros Hlen. apply snd_zip. lia. Qed.

Lemma length_entries (c : @COO.t T) :
  length (COO.indexlist c) = length (COO.valueslist c) →
  length (entries c) = length (COO.valueslist c).
Proof. intros Hlen. unfold entries. rewrite length_zip_with. lia. Qed.

Lemma entries_sorted (c : @COO.t T) :
  length (COO.indexlist c) = length (COO.valueslist c) →
  map_sorted SO (entries c) ↔ ascending SO (COO.indexlist c).
Proof.
  intros Hlen. split; [|apply ascending_map_sorted].
  intros Hs. rewrite <- (entries_fst c Hlen). unfold ascending, map_sorted in *.
  eapply StronglySorted_fmap; [|exact Hs]. done.
Qed.

Lemma COOmap_find_const_value (m : COOmap.t) (i j : size_t) :
  COOmap.find_dynamic_const SO m i j = Done (m, map_value SO m (i, j)).
Proof.
  unfold COOmap.find_dynamic_const, map_value.
  destruct (map_find (Comparator SO) m (i, j)) as [p|] eqn:Hp; simpl; [|done].
  rewrite (map_subscript_found SO _ _ _ _ Hp).
  apply map_find_Some in Hp as (_ & v & Hv). unfold COOmap.read_slot.
  rewrite (at_Some _ _ _ Hv), Hv. done.
Qed.

Lemma find_const_scan_value (il : list index) (vl : list T) (i j : size_t) :
  length il = length vl →
  COO.find_const_scan SO il vl i j = Done (map_value SO (zip il vl) (i, j)).
Proof.
  revert vl. induction il as [|x il IH]; intros [|v vl] Hlen; simpl in *; try done.
  rewrite map_value_cons. simpl.
  destruct ((x.1 =? i) && (x.2 =? j)) eqn:Heq.
  - apply index_eqb_eq in Heq as ->. by rewrite Comparator_irrefl.
  - destruct (Comparator SO x (i, j)) eqn:Hx; simpl.
    + apply IH. lia.
    + destruct (Comparator SO (i, j) x) eqn:Hx'; [done|].
      rewrite (Comparator_total SO _ _ Hx Hx') in Heq.
      simpl in Heq. by rewrite !N.eqb_refl in Heq.
Qed.

Lemma COO_find_const_value (c : COO.t) (i j : size_t) :
  length (COO.indexlist c) = length (COO.valueslist c) →
  COO.find_dynamic_const SO c i j = Done (c, map_value SO (entries c) (i, j)).
Proof.
  intros Hlen. unfold COO.find_dynamic_const. by rewrite find_const_scan_value.
Qed.

Lemma find_scan_zip (k0 : nat) (il : list index) (vl : list T) (i j : size_t) :
  length il = length vl →
  COO.find_scan SO k0 il i j
  = (bool_decide (is_Some (map_find (Comparator SO) (zip il vl) (i, j))),
     (k0 + map_lower_bound (Comparator SO) (zip il vl) (i, j))%nat).
Proof.
  revert k0 vl. induction il as [|x il IH]; intros k0 [|v vl] Hlen; simpl in *; try done.
  { apply (f_equal2 pair); [done|lia]. }
  rewrite map_find_cons. simpl.
  destruct ((x.1 =? i) && (x.2 =? j)) eqn:Heq.
  - apply index_eqb_eq in Heq as ->. rewrite Comparator_irrefl.
    apply (f_equal2 pair); [done|lia].
  - destruct (Comparator SO x (i, j)) eqn:Hx; simpl.
    + rewrite (IH (S k0) vl) by lia. apply (f_equal2 pair); [|lia].
      by destruct (map_find (Comparator SO) (zip il vl) (i, j)).
    + destruct (Comparator SO (i, j) x) eqn:Hx'.
      * apply (f_equal2 pair); [done|lia].
      * rewrite (Comparator_total SO _ _ Hx Hx') in Heq.
        simpl in Heq. by rewrite !N.eqb_refl in Heq.
Qed.

Lemma COO_find_subscript (c : COO.t) (i j : size_t) :
  length (COO.indexlist c) = length (COO.valueslist c) →
  ∃ c', COO.find_dynamic SO c i j
          = Done (c', (map_subscript (Comparator SO) t_zero (entries c) (i, j)).2)
        ∧ entries c' = (map_subscript (Comparator SO) t_zero (entries c) (i, j)).1
        ∧ length (COO.indexlist c') = length (COO.valueslist c').
Proof.
  intros Hlen. unfold COO.find_dynamic. rewrite (find_scan_zip 0 _ (COO.valueslist c)) by done.
  unfold map_subscript. fold (entries c).
  destruct (map_find (Comparator SO) (entries c) (i, j)) as [p|] eqn:Hp; simpl.
  - apply map_find_Some in Hp as (-> & v & Hv).
    assert (is_Some (COO.valueslist c !! map_lower_bound (Comparator SO) (entries c) (i, j)))
      as [w Hw].
    { apply lookup_lt_is_Some. apply lookup_lt_Some in Hv.
      by rewrite length_entries in Hv. }
    rewrite (at_Some _ _ _ Hw). simpl. by exists c.
  - pose proof (map_lower_bound_le SO (entries c) (i, j)) as Hle.
    rewrite length_entries in Hle by done.
    destruct (decide _) as [_|Hno]; [|lia].
    eexists. split; [done|]. unfold entries at 1. simpl. split.
    + by rewrite zip_vinsert.
    + by rewrite !length_vinsert, Hlen.
Qed.

Lemma COO_write_slot_entries (c : @COO.t T) (k : nat) (v : T) :
  length (COO.indexlist c) = length (COO.valueslist c) →
  (k < length (COO.valueslist c))%nat →
  ∃ c', COO.write_slot c k v = Done c'
        ∧ entries c' = alter (fun x => (x.1, v)) k (entries c)
        ∧ length (COO.indexlist c') = length (COO.valueslist c').
Proof.
  intros Hlen Hk. unfold COO.write_slot. rewrite put_lt by done. simpl.
  eexists. split; [done|]. unfold entries. simpl. split.
  - apply zip_insert_r.
  - by rewrite length_insert.
Qed.

Lemma remove_scan_map_find (k0 : nat) (il : list index) (vl : list T) (i j : size_t) :
  length il = length vl → ascending SO il →
  COO.remove_scan k0 il i j
  = (fun p => (k0 + p)%nat) <$> map_find (Comparator SO) (zip il vl) (i, j).
Proof.
  intros Hlen Hasc. revert k0 vl Hlen.
  induction Hasc as [|x il Hil IH Hx]; intros k0 [|v vl] Hlen; simpl in *; try done.
  rewrite map_find_cons. simpl.
  destruct ((x.1 =? i) && (x.2 =? j)) eqn:Heq.
  - apply index_eqb_eq in Heq as ->. rewrite Comparator_irrefl. simpl. f_equal. lia.
  - destruct (Comparator SO x (i, j)) eqn:Hxk.
    + rewrite (IH (S k0) vl) by lia.
      destruct (map_find (Comparator SO) (zip il vl) (i, j)); simpl; [f_equal; lia|done].
    + destruct (Comparator SO (i, j) x) eqn:Hkx.
      * simpl. rewrite (IH (S k0) vl) by lia.
        rewrite (map_find_absent SO (zip il vl) (i, j)); [done|].
        rewrite fst_zip by lia. intros Hin. rewrite Forall_forall in Hx.
        pose proof (Comparator_trans SO _ _ _ Hkx (Hx _ Hin)) as Hkk.
        by rewrite Comparator_irrefl in Hkk.
      * rewrite (Comparator_total SO _ _ Hxk Hkx) in Heq.
        simpl in Heq. by rewrite !N.eqb_refl in Heq.
Qed.

Lemma COO_remove_erase (c : @COO.t T) (i j : size_t) :
  length (COO.indexlist c) = length (COO.valueslist c) →
  ascending SO (COO.indexlist c) →
  ∃ c', COO.remove_dynamic c i j
          = Done (c', bool_decide ((map_erase (Comparator SO) (entries c) (i, j)).2 ≠ 0%nat))
        ∧ entries c' = (map_erase (Comparator SO) (entries c) (i, j)).1
        ∧ length (COO.indexlist c') = length (COO.valueslist c').
Proof.
  intros Hlen Hasc. unfold COO.remove_dynamic.
  rewrite (remove_scan_map_find 0 _ (COO.valueslist c)) by done.
  unfold map_erase. fold (entries c).
  destruct (map_find (Comparator SO) (entries c) (i, j)) as [p|] eqn:Hp; simpl.
  - apply map_find_Some in Hp as (-> & v & Hv).
    assert (map_lower_bound (Comparator SO) (entries c) (i, j) < length (COO.valueslist c))%nat
      as Hlt.
    { apply lookup_lt_Some in Hv. by rewrite length_entries in Hv. }
    assert (is_Some (COO.valueslist c !! map_lower_bound (Comparator SO) (entries c) (i, j)))
      as [w Hw] by (by apply lookup_lt_is_Some).
    rewrite (at_Some _ _ _ Hw). simpl.
    eexists. split; [done|]. unfold entries at 1. simpl. split.
    + by rewrite zip_verase.
    + rewrite !length_verase; lia.
  - by exists c.
Qed.

Lemma COOmap_remove_erase (m : @COOmap.t T) (i j : size_t) :
  COOmap.remove_dynamic SO m i j
  = Done ((map_erase (Comparator SO) m (i, j)).1,
          bool_decide ((map_erase (Comparator SO) m (i, j)).2 ≠ 0%nat)).
Proof. unfold COOmap.remove_dynamic. by destruct (map_erase _ _ _). Qed.
End list_through_entries.

(** ** The facade in dynamic state, for a backend that behaves as a sorted
    association list *)

Lemma assert_guard DEBUG cond msg :
  (DEBUG = true → cond = true) → assert DEBUG cond msg = Done tt.
Proof. unfold assert. destruct DEBUG; [|done]. intros H. by rewrite H. Qed.

Section dynamic_laws.
Context {T D Dyn : Type} `{!DoubleOps D} `{!NumericOrComplex T D}.
Context (SO : StorageOrder) `{!Dynamic SO T D Dyn}.
Context (ent : Dyn → list (index * T)) (wf : Dyn → Prop).

Context `{!AssociationList SO ent wf}.

Implicit Types (m : @Matrix.t T Dyn) (c : Dyn).

Lemma dynamic_state_eta m c :
  dynamic_state m c →
  m = {| Matrix.dims := Matrix.dims m; Matrix.compressed := Matrix.compressed m;
         Matrix.dynamic := Some c; Matrix.isCompressed := Some false |}.
Proof. destruct m. intros [? ?]; simpl in *. by subst. Qed.

Lemma G_call_const DEBUG m c i j :
  dynamic_state m c → wf c →
  Matrix.call_const SO DEBUG m i j
  = (_ ← assert DEBUG (Matrix.in_bounds m i j) CallOutOfBounds;
     Done (m, map_value SO (ent c) (i, j))).
Proof.
  intros [Hf Hd] Hwf. destruct m as [d y dyn fl]; simpl in *; subst.
  unfold Matrix.call_const, Matrix.flag. simpl.
  destruct (assert DEBUG _ _); simpl; [|done..].
  by rewrite law_const.
Qed.

Lemma G_count m c :
  dynamic_state m c → wf c →
  Matrix.get_num_elements SO m = Done (N.of_nat (length (ent c))).
Proof.
  intros [Hf Hd] Hwf. unfold Matrix.get_num_elements, Matrix.flag. rewrite Hf, Hd. simpl.
  by rewrite law_count.
Qed.

Lemma map_subscript_lt (es : list (index * T)) k :
  ((map_subscript (Comparator SO) t_zero es k).2
   < length (map_subscript (Comparator SO) t_zero es k).1)%nat.
Proof.
  unfold map_subscript. destruct (map_find (Comparator SO) es k) as [p|] eqn:Hp; simpl.
  - apply map_find_Some in Hp as (_ & v & Hv). by eapply lookup_lt_Some.
  - rewrite length_vinsert. pose proof (map_lower_bound_le SO es k). lia.
Qed.

Lemma map_subscript_slot (es : list (index * T)) k :
  ∃ v, (map_subscript (Comparator SO) t_zero es k).1
         !! (map_subscript (Comparator SO) t_zero es k).2 = Some (k, v)
       ∧ v = map_value SO es k.
Proof.
  unfold map_subscript, map_value.
  destruct (map_find (Comparator SO) es k) as [p|] eqn:Hp; simpl.
  - apply map_find_Some in Hp as (_ & v & Hv). exists v. by rewrite Hv.
  - exists t_zero. split; [|done]. apply vinsert_lookup, map_lower_bound_le.
Qed.

Lemma G_call DEBUG m c i j :
  dynamic_state m c → wf c → (DEBUG = true → Matrix.in_bounds m i j = true) →
  ∃ m' c',
    Matrix.call SO DEBUG m i j
      = Done (m', (map_subscript (Comparator SO) t_zero (ent c) (i, j)).2)
    ∧ dynamic_state m' c' ∧ wf c'
    ∧ Matrix.dims m' = Matrix.dims m ∧ Matrix.compressed m' = Matrix.compressed m
    ∧ ent c' = (map_subscript (Comparator SO) t_zero (ent c) (i, j)).1
    ∧ read_slot_dynamic c' (map_subscript (Comparator SO) t_zero (ent c) (i, j)).2
      = Done (map_value SO (ent c) (i, j)).
Proof.
  intros [Hf Hd] Hwf Hin. unfold Matrix.call, Matrix.flag.
  rewrite (assert_guard _ _ _ Hin), Hf, Hd. simpl.
  destruct (law_find c i j Hwf) as (c' & -> & Hent & Hwf'). simpl.
  eexists _, c'. split; [done|]. split; [done|]. do 4 (split; [done|]).
  rewrite law_read, Hent by done.
  destruct (map_subscript_slot (ent c) (i, j)) as (v & Hv & ->).
  by rewrite (at_Some _ _ _ Hv).
Qed.

Lemma G_assign DEBUG m c i j v :
  dynamic_state m c → wf c → (DEBUG = true → Matrix.in_bounds m i j = true) →
  ∃ m' c',
    Matrix.assign SO DEBUG m i j v = Done m'
    ∧ dynamic_state m' c' ∧ wf c'
    ∧ Matrix.dims m' = Matrix.dims m ∧ Matrix.compressed m' = Matrix.compressed m
    ∧ ent c' = map_assign (Comparator SO) t_zero (ent c) (i, j) v.
Proof.
  intros Hst Hwf Hin. unfold Matrix.assign.
  destruct (G_call DEBUG m c i j Hst Hwf Hin)
    as (m1 & c1 & -> & [Hf1 Hd1] & Hwf1 & Hdims & Hcomp & Hent & _).
  simpl. unfold Matrix.flag. rewrite Hf1, Hd1. simpl.
  destruct (law_write c1 (map_subscript (Comparator SO) t_zero (ent c) (i, j)).2 v Hwf1)
    as (c2 & -> & Hent2 & Hwf2).
  { rewrite Hent. apply map_subscript_lt. }
  simpl. eexists _, c2. split; [done|]. split; [done|]. do 3 (split; [done|]).
  rewrite Hent2, Hent. unfold map_assign. by destruct (map_subscript _ _ _ _).
Qed.

Lemma G_remove DEBUG m c i j :
  dynamic_state m c → wf c → map_sorted SO (ent c) → (DEBUG = true → Matrix.in_bounds m i j = true) →
  ∃ m' c',
    Matrix.remove SO DEBUG m i j
      = Done (m', bool_decide ((map_erase (Comparator SO) (ent c) (i, j)).2 ≠ 0%nat))
    ∧ dynamic_state m' c' ∧ wf c'
    ∧ Matrix.dims m' = Matrix.dims m ∧ Matrix.compressed m' = Matrix.compressed m
    ∧ ent c' = (map_erase (Comparator SO) (ent c) (i, j)).1.
Proof.
  intros [Hf Hd] Hwf Hs Hin. unfold Matrix.remove, Matrix.flag.
  rewrite (assert_guard _ _ _ Hin), Hf, Hd. simpl.
  destruct (law_remove c i j Hwf Hs) as (c' & -> & Hent & Hwf'). simpl.
  by eexists _, c'.
Qed.

Lemma map_find_is_Some (es : list (index * T)) k :
  map_sorted SO es → is_Some (map_find (Comparator SO) es k) ↔ k ∈ es.*1.
Proof.
  intros Hs. split; [|by apply map_find_present].
  intros [p Hp]. apply map_find_Some in Hp as (_ & v & Hv).
  apply list_elem_of_fmap. exists (k, v). split; [done|]. by eapply list_elem_of_lookup_2.
Qed.

Lemma map_assign_length (es : list (index * T)) k v :
  map_sorted SO es →
  length (map_assign (Comparator SO) t_zero es k v)
  = if decide (k ∈ es.*1) then length es else S (length es).
Proof.
  intros Hs. pose proof (map_find_is_Some es k Hs) as Hiff.
  unfold map_assign, map_subscript.
  destruct (map_find (Comparator SO) es k) as [p|]; rewrite length_alter.
  - destruct (decide _) as [|Hno]; [done|]. destruct Hno. by apply Hiff.
  - rewrite length_vinsert. destruct (decide _) as [Hyes|]; [|done].
    apply Hiff in Hyes as [? ?]. done.
Qed.

Lemma map_erase_length (es : list (index * T)) k :
  map_sorted SO es →
  (map_erase (Comparator SO) es k).2 = (if decide (k ∈ es.*1) then 1 else 0)%nat
  ∧ length (map_erase (Comparator SO) es k).1
    = (if decide (k ∈ es.*1) then length es - 1 else length es)%nat.
Proof.
  intros Hs. pose proof (map_find_is_Some es k Hs) as Hiff.
  unfold map_erase.
  destruct (map_find (Comparator SO) es k) as [p|] eqn:Hp; simpl.
  - destruct (decide _) as [|Hno]; [|destruct Hno; by apply Hiff].
    split; [done|]. apply length_verase.
    apply map_find_Some in Hp as (_ & v & Hv). by eapply lookup_lt_Some.
  - destruct (decide _) as [Hyes|]; [|done]. apply Hiff in Hyes as [? ?]. done.
Qed.

Lemma map_erase_keys (es : list (index * T)) k x :
  map_sorted SO es →
  x ∈ (map_erase (Comparator SO) es k).1.*1 ↔ x ≠ k ∧ x ∈ es.*1.
Proof.
  unfold map_sorted. induction 1 as [|y es Hes IH Hy].
  { unfold map_erase. simpl. split; [by intros ?%elem_of_nil|by intros [_ ?%elem_of_nil]]. }
  rewrite map_erase_cons.
  rewrite Forall_forall in Hy.
  destruct (Comparator SO y.1 k) eqn:Hyk; cbn [fst snd].
  - rewrite !fmap_cons, !elem_of_cons, IH. split; [|tauto].
    intros [Heq|[? ?]]; [|tauto]. split; [|by left].
    intros Hxk. rewrite <- Heq, Hxk, Comparator_irrefl in Hyk. done.
  - assert (k ∉ es.*1) as Hk.
    { intros (z & Hkz & Hz)%list_elem_of_fmap. specialize (Hy z Hz).
      rewrite <- Hkz in Hy. congruence. }
    destruct (Comparator SO k y.1) eqn:Hky; cbn [fst snd].
    + rewrite !fmap_cons, !elem_of_cons. split; [|tauto].
      intros [Heq|Hx]; (split; [|tauto]).
      * intros Hxk. rewrite <- Heq, Hxk, Comparator_irrefl in Hky. done.
      * by intros ->.
    + rewrite fmap_cons, elem_of_cons, (Comparator_total SO _ _ Hky Hyk).
      split; [|tauto]. intros Hx. split; [|by right].
      intros Hxy. apply Hk. by rewrite (Comparator_total SO _ _ Hky Hyk), <- Hxy.
Qed.

Lemma result_call_const DEBUG m c i j :
  dynamic_state m c → wf c →
  result (Matrix.call_const SO DEBUG m i j)
  = (_ ← assert DEBUG (Matrix.in_bounds m i j) CallOutOfBounds;
     Done (map_value SO (ent c) (i, j))).
Proof.
  intros Hst Hwf. rewrite (G_call_const DEBUG m c i j Hst Hwf). unfold result.
  by destruct (assert DEBUG _ _).
Qed.

Lemma in_bounds_dims m m' i j :
  Matrix.dims m' = Matrix.dims m → Matrix.in_bounds m' i j = Matrix.in_bounds m i j.
Proof. unfold Matrix.in_bounds. by intros ->. Qed.

Lemma G_assign_read_back DEBUG m c i j v :
  dynamic_state m c → wf c → (DEBUG = true → Matrix.in_bounds m i j = true) →
  ∃ m' c',
    Matrix.assign SO DEBUG m i j v = Done m'
    ∧ dynamic_state m' c' ∧ wf c'
    ∧ Matrix.dims m' = Matrix.dims m ∧ Matrix.compressed m' = Matrix.compressed m
    ∧ Matrix.call_const SO DEBUG m' i j = Done (m', v)
    ∧ (∀ i' j', (i', j') ≠ (i, j) →
         result (Matrix.call_const SO DEBUG m' i' j')
         = result (Matrix.call_const SO DEBUG m i' j'))
    ∧ (∀ x, x ∈ (ent c').*1 ↔ x = (i, j) ∨ x ∈ (ent c).*1)
    ∧ (map_sorted SO (ent c) →
       map_sorted SO (ent c')
       ∧ length (ent c')
         = if decide ((i, j) ∈ (ent c).*1) then length (ent c) else S (length (ent c))).
Proof.
  intros Hst Hwf Hin.
  destruct (G_assign DEBUG m c i j v Hst Hwf Hin)
    as (m' & c' & Hrun & Hst' & Hwf' & Hdims & Hcomp & Hent).
  exists m', c'. do 5 (split; [done|]). split; [|split; [|split]].
  - rewrite (G_call_const DEBUG m' c' i j Hst' Hwf'), (in_bounds_dims m m') by done.
    rewrite (assert_guard _ _ _ Hin). simpl.
    by rewrite Hent, map_value_assign_same.
  - intros i' j' Hne.
    rewrite (result_call_const DEBUG m' c'), (result_call_const DEBUG m c) by done.
    rewrite (in_bounds_dims m m') by done.
    by rewrite Hent, map_value_assign_other.
  - intros x. rewrite Hent. apply map_assign_keys.
  - intros Hs. rewrite Hent. split; [by apply map_assign_sorted|by apply map_assign_length].
Qed.

Lemma G_call_keeps_values DEBUG m c i j :
  dynamic_state m c → wf c → (DEBUG = true → Matrix.in_bounds m i j = true) →
  ∃ m' c' k,
    Matrix.call SO DEBUG m i j = Done (m', k)
    ∧ dynamic_state m' c' ∧ wf c'
    ∧ Matrix.dims m' = Matrix.dims m ∧ Matrix.compressed m' = Matrix.compressed m
    ∧ read_slot_dynamic c' k = result (Matrix.call_const SO DEBUG m i j)
    ∧ (∀ i' j', result (Matrix.call_const SO DEBUG m' i' j')
                = result (Matrix.call_const SO DEBUG m i' j'))
    ∧ (map_sorted SO (ent c) → map_sorted SO (ent c')).
Proof.
  intros Hst Hwf Hin.
  destruct (G_call DEBUG m c i j Hst Hwf Hin)
    as (m' & c' & Hrun & Hst' & Hwf' & Hdims & Hcomp & Hent & Hread).
  exists m', c', (map_subscript (Comparator SO) t_zero (ent c) (i, j)).2.
  do 5 (split; [done|]). split; [|split].
  - rewrite Hread, (result_call_const DEBUG m c) by done.
    by rewrite (assert_guard _ _ _ Hin).
  - intros i' j'.
    rewrite (result_call_const DEBUG m' c'), (result_call_const DEBUG m c) by done.
    rewrite (in_bounds_dims m m') by done.
    by rewrite Hent, map_value_subscript.
  - intros Hs. rewrite Hent. by apply map_subscript_sorted.
Qed.

Lemma G_remove_then_read DEBUG m c i j :
  dynamic_state m c → wf c → map_sorted SO (ent c) → (DEBUG = true → Matrix.in_bounds m i j = true) →
  ∃ m' c',
    Matrix.remove SO DEBUG m i j = Done (m', bool_decide ((i, j) ∈ (ent c).*1))
    ∧ dynamic_state m' c' ∧ wf c'
    ∧ Matrix.dims m' = Matrix.dims m ∧ Matrix.compressed m' = Matrix.compressed m
    ∧ Matrix.call_const SO DEBUG m' i j = Done (m', t_zero)
    ∧ (∀ i' j', (i', j') ≠ (i, j) →
         result (Matrix.call_const SO DEBUG m' i' j')
         = result (Matrix.call_const SO DEBUG m i' j'))
    ∧ (∀ x, x ∈ (ent c').*1 ↔ x ≠ (i, j) ∧ x ∈ (ent c).*1)
    ∧ map_sorted SO (ent c')
    ∧ length (ent c')
      = (if decide ((i, j) ∈ (ent c).*1) then length (ent c) - 1 else length (ent c))%nat.
Proof.
  intros Hst Hwf Hs Hin.
  destruct (G_remove DEBUG m c i j Hst Hwf Hs Hin)
    as (m' & c' & Hrun & Hst' & Hwf' & Hdims & Hcomp & Hent).
  destruct (map_erase_length (ent c) (i, j) Hs) as [Hn Hlen].
  exists m', c'. split; [|do 4 (split; [done|]); split; [|split; [|split; [|split]]]].
  - rewrite Hrun. do 2 f_equal. rewrite Hn.
    destruct (decide _) as [Hyes|Hno].
    + by rewrite !bool_decide_eq_true_2.
    + by rewrite !bool_decide_eq_false_2 by (done || lia).
  - rewrite (G_call_const DEBUG m' c' i j Hst' Hwf'), (in_bounds_dims m m') by done.
    rewrite (assert_guard _ _ _ Hin). simpl.
    by rewrite Hent, map_value_erase_same.
  - intros i' j' Hne.
    rewrite (result_call_const DEBUG m' c'), (result_call_const DEBUG m c) by done.
    rewrite (in_bounds_dims m m') by done.
    by rewrite Hent, map_value_erase_other.
  - intros x. rewrite Hent. by apply map_erase_keys.
  - rewrite Hent. by apply map_erase_sorted.
  - by rewrite Hent.
Qed.
End dynamic_laws.

(** ** Both dynamic backends behave as association lists *)

Lemma at_zip {A B} (l1 : list A) (l2 : list B) k :
  length l1 = length l2 →
  at_ (zip l1 l2) k = (x ← at_ l1 k; y ← at_ l2 k; Done (x, y)).
Proof.
  intros Hlen. unfold at_. rewrite lookup_zip_with.
  destruct (l1 !! k) as [x|] eqn:Hx; simpl.
  - assert (is_Some (l2 !! k)) as [y ->]; [|done].
    apply lookup_lt_is_Some. apply lookup_lt_Some in Hx. lia.
  - done.
Qed.

Section backends_are_association_lists.
Context {T D : Type} `{!DoubleOps D} `{!NumericOrComplex T D} (SO : StorageOrder).

#[global] Instance COO_association :
  AssociationList SO (Dyn:=@COO.t T) entries aligned.
Proof.
  split; simpl.
  - intros c i j Hwf. by apply COO_find_const_value.
  - intros c i j Hwf. by apply COO_find_subscript.
  - intros c k Hwf. unfold COO.read_slot, entries. rewrite at_zip by done.
    unfold at_. destruct (COO.indexlist c !! k) as [x|] eqn:Hx; simpl.
    + by destruct (COO.valueslist c !! k).
    + apply lookup_ge_None in Hx. rewrite lookup_ge_None_2; [done|].
      unfold aligned in Hwf. lia.
  - intros c k v Hwf Hk. apply COO_write_slot_entries; [done|].
    by rewrite length_entries in Hk.
  - intros c i j Hwf Hs. apply COO_remove_erase; [done|]. by apply entries_sorted.
  - intros c Hwf. unfold COO.get_num_elements_dynamic. by rewrite length_entries.
  - intros c first_it cursor Hwf. unfold COO.compress_from_dynamic, entries.
    rewrite at_zip by done.
    destruct (at_ (COO.indexlist c) _) as [x| |]; simpl; [|done..].
    by destruct (at_ (COO.valueslist c) _) as [v| |].
  - intros c d v Hwf.
    by destruct (backends_agree_on_shared_scans d c v Hwf) as (_ & ? & _).
  - intros c d N0 Hwf.
    destruct (backends_agree_on_shared_scans d c [] Hwf) as (_ & _ & Hf & Ho & Hi).
    destruct N0, SO; try done; apply (Hf _).
  - done.
  - exists (fun cursor c => cursor = length (entries c)).
    intros first_it cursor k v c Hwf Hcur _. unfold COO.uncompress_from_triplets.
    assert ((if first_it then 0%nat else cursor) = length (entries c)) as ->.
    { destruct first_it; [by rewrite Hcur|done]. }
    rewrite length_entries by done. unfold aligned in Hwf.
    destruct (decide _) as [_|Hno]; [|destruct Hno; split; lia].
    eexists _, _. split; [done|]. unfold entries, aligned, vinsert. simpl.
    unfold index in *. rewrite !take_ge, !drop_ge by lia.
    rewrite zip_with_app by done. rewrite !length_app, !length_zip_with. simpl.
    split; [by destruct k|]. split; lia.
Qed.

#[global] Instance COOmap_association :
  AssociationList SO (Dyn:=@COOmap.t T) id (fun _ => True).
Proof.
  split; simpl.
  - intros c i j _. by apply COOmap_find_const_value.
  - intros c i j _. exists (map_subscript (Comparator SO) t_zero c (i, j)).1.
    unfold COOmap.find_dynamic. by destruct (map_subscript _ _ _ _).
  - done.
  - intros c k v _ Hk. unfold COOmap.write_slot.
    apply lookup_lt_is_Some in Hk as [x Hx]. rewrite (at_Some _ _ _ Hx). simpl.
    rewrite put_lt by (by eapply lookup_lt_Some).
    eexists. split; [done|]. split; [|done]. unfold id.
    apply list_eq. intros k'. destruct (decide (k' = k)) as [->|Hne].
    + rewrite list_lookup_insert_eq by (by eapply lookup_lt_Some).
      by rewrite list_lookup_alter_eq, Hx.
    + by rewrite list_lookup_insert_ne, list_lookup_alter_ne.
  - intros c i j _ _. eexists. split; [apply COOmap_remove_erase|done].
  - done.
  - intros c first_it cursor _. unfold COOmap.compress_from_dynamic, id. done.
  - done.
  - intros c d N0 _. by destruct N0, SO.
  - done.
  - exists (fun _ _ => True).
    intros first_it cursor k v c _ _ Hs. unfold COOmap.uncompress_from_triplets, id in *.
    eexists _, _. split; [done|]. split; [|done]. simpl.
    replace (k.1, k.2) with k by (by destruct k).
    clear first_it cursor. induction c as [|x c IH]; [done|].
    rewrite map_assign_cons. unfold map_sorted in Hs.
    simpl in Hs. apply StronglySorted_cons in Hs as [Hx Hs].
    assert (Comparator SO x.1 k = true) as ->.
    { rewrite Forall_forall in Hx. apply (Hx (k, v)). apply elem_of_app. right. left. }
    simpl. f_equal. by apply IH.
Qed.
End backends_are_association_lists.

(** ** Element access, assignment and removal in dynamic state *)

(** X1. In dynamic state, [m(i, j) = v] on either backend (in a DEBUG build
    for a coordinate within the dimensions) returns, leaves the matrix in
    dynamic state with the same dimensions, and is read back: the
    read-only access at (i,j) then returns [v], and at every other
    coordinate what it returned before. The coordinates stored afterwards
    are the old ones and (i,j); a storage in ascending order stays in
    ascending order and grows by one entry exactly when (i,j) was not
    stored. *)
Theorem assignment_is_read_back :
  ∀ {T D : Type} `{!DoubleOps D} `{!NumericOrComplex T D}
    (SO : StorageOrder) (DEBUG : bool) (i j : size_t) (v : T),
  (∀ (m : @Matrix.t T COO.t) (c : COO.t),
     dynamic_state m c → aligned c →
     (DEBUG = true → Matrix.in_bounds m i j = true) →
     ∃ m' c',
       Matrix.assign SO DEBUG m i j v = Done m'
       ∧ dynamic_state m' c' ∧ aligned c'
       ∧ Matrix.dims m' = Matrix.dims m
       ∧ Matrix.call_const SO DEBUG m' i j = Done (m', v)
       ∧ (∀ i' j', (i', j') ≠ (i, j) →
            result (Matrix.call_const SO DEBUG m' i' j')
            = result (Matrix.call_const SO DEBUG m i' j'))
       ∧ (∀ x, x ∈ COO.indexlist c' ↔ x = (i, j) ∨ x ∈ COO.indexlist c)
       ∧ (ascending SO (COO.indexlist c) →
          ascending SO (COO.indexlist c')
          ∧ Matrix.get_num_elements SO m'
            = Done (N.of_nat (if decide ((i, j) ∈ COO.indexlist c)
                              then length (COO.valueslist c)
                              else S (length (COO.valueslist c))))))
  ∧ (∀ (m : @Matrix.t T COOmap.t) (c : COOmap.t),
     dynamic_state m c →
     (DEBUG = true → Matrix.in_bounds m i j = true) →
     ∃ m' c',
       Matrix.assign SO DEBUG m i j v = Done m'
       ∧ dynamic_state m' c'
       ∧ Matrix.dims m' = Matrix.dims m
       ∧ Matrix.call_const SO DEBUG m' i j = Done (m', v)
       ∧ (∀ i' j', (i', j') ≠ (i, j) →
            result (Matrix.call_const SO DEBUG m' i' j')
            = result (Matrix.call_const SO DEBUG m i' j'))
       ∧ (∀ x, x ∈ c'.*1 ↔ x = (i, j) ∨ x ∈ c.*1)
       ∧ (map_sorted SO c →
          map_sorted SO c'
          ∧ Matrix.get_num_elements SO m'
            = Done (N.of_nat (if decide ((i, j) ∈ c.*1)
                              then length c else S (length c))))).
Proof.
  intros T D HD HT SO DEBUG i j v. split.
  - intros m c Hst Hwf Hin.
    destruct (G_assign_read_back SO entries aligned DEBUG m c i j v Hst Hwf Hin)
      as (m' & c' & Hrun & Hst' & Hwf' & Hdims & _ & Hread & Hframe & Hkeys & Hsorted).
    exists m', c'. do 6 (split; [done|]). split.
    + intros x. rewrite <- (entries_fst c'), <- (entries_fst c) by done. apply Hkeys.
    + intros Hasc. destruct Hsorted as [Hs Hlen]; [by apply entries_sorted|].
      split; [by apply (entries_sorted SO c')|].
      rewrite (G_count SO entries aligned m' c') by done. rewrite Hlen.
      rewrite entries_fst, length_entries by done. done.
  - intros m c Hst Hin.
    destruct (G_assign_read_back SO id (fun _ => True) DEBUG m c i j v Hst I Hin)
      as (m' & c' & Hrun & Hst' & _ & Hdims & _ & Hread & Hframe & Hkeys & Hsorted).
    exists m', c'. do 6 (split; [done|]).
    intros Hs. destruct (Hsorted Hs) as [Hs' Hlen]. split; [done|].
    rewrite (G_count SO id (fun _ => True) m' c') by done. by rewrite Hlen.
Qed.

(** X2. In dynamic state, the mutable access [m(i, j)] on either backend
    returns a slot that holds what the read-only access at (i,j) returns,
    and changes no value: afterwards the read-only access returns at every
    coordinate what it returned before. A storage in ascending order stays
    in ascending order. *)
Theorem mutable_access_reads_the_stored_value :
  ∀ {T D : Type} `{!DoubleOps D} `{!NumericOrComplex T D}
    (SO : StorageOrder) (DEBUG : bool) (i j : size_t),
  (∀ (m : @Matrix.t T COO.t) (c : COO.t),
     dynamic_state m c → aligned c →
     (DEBUG = true → Matrix.in_bounds m i j = true) →
     ∃ m' c' k,
       Matrix.call SO DEBUG m i j = Done (m', k)
       ∧ dynamic_state m' c' ∧ aligned c'
       ∧ Matrix.dims m' = Matrix.dims m
       ∧ COO.read_slot c' k = result (Matrix.call_const SO DEBUG m i j)
       ∧ (∀ i' j', result (Matrix.call_const SO DEBUG m' i' j')
                   = result (Matrix.call_const SO DEBUG m i' j'))
       ∧ (ascending SO (COO.indexlist c) → ascending SO (COO.indexlist c')))
  ∧ (∀ (m : @Matrix.t T COOmap.t) (c : COOmap.t),
     dynamic_state m c →
     (DEBUG = true → Matrix.in_bounds m i j = true) →
     ∃ m' c' k,
       Matrix.call SO DEBUG m i j = Done (m', k)
       ∧ dynamic_state m' c'
       ∧ Matrix.dims m' = Matrix.dims m
       ∧ COOmap.read_slot c' k = result (Matrix.call_const SO DEBUG m i j)
       ∧ (∀ i' j', result (Matrix.call_const SO DEBUG m' i' j')
                   = result (Matrix.call_const SO DEBUG m i' j'))
       ∧ (map_sorted SO c → map_sorted SO c')).
Proof.
  intros T D HD HT SO DEBUG i j. split.
  - intros m c Hst Hwf Hin.
    destruct (G_call_keeps_values SO entries aligned DEBUG m c i j Hst Hwf Hin)
      as (m' & c' & k & Hrun & Hst' & Hwf' & Hdims & _ & Hread & Hframe & Hsorted).
    exists m', c', k. do 6 (split; [done|]).
    intros Hasc. apply (entries_sorted SO c'); [done|]. by apply Hsorted, entries_sorted.
  - intros m c Hst Hin.
    destruct (G_call_keeps_values SO id (fun _ => True) DEBUG m c i j Hst I Hin)
      as (m' & c' & k & Hrun & Hst' & _ & Hdims & _ & Hread & Hframe & Hsorted).
    by exists m', c', k.
Qed.

(** X3. In dynamic state with the storage in ascending order, [remove(i, j)]
    on either backend returns whether (i,j) was stored and leaves the
    matrix in dynamic state with the same dimensions and the storage in
    ascending order; afterwards (i,j) is not stored, the read-only access
    returns zero there and, at every other coordinate, what it returned
    before, and the number of entries is one less exactly when (i,j) was
    stored. *)
Theorem removal_erases_the_entry :
  ∀ {T D : Type} `{!DoubleOps D} `{!NumericOrComplex T D}
    (SO : StorageOrder) (DEBUG : bool) (i j : size_t),
  (∀ (m : @Matrix.t T COO.t) (c : COO.t),
     dynamic_state m c → aligned c → ascending SO (COO.indexlist c) →
     (DEBUG = true → Matrix.in_bounds m i j = true) →
     ∃ m' c',
       Matrix.remove SO DEBUG m i j = Done (m', bool_decide ((i, j) ∈ COO.indexlist c))
       ∧ dynamic_state m' c' ∧ aligned c' ∧ ascending SO (COO.indexlist c')
       ∧ Matrix.dims m' = Matrix.dims m
       ∧ Matrix.call_const SO DEBUG m' i j = Done (m', t_zero)
       ∧ (∀ i' j', (i', j') ≠ (i, j) →
            result (Matrix.call_const SO DEBUG m' i' j')
            = result (Matrix.call_const SO DEBUG m i' j'))
       ∧ (∀ x, x ∈ COO.indexlist c' ↔ x ≠ (i, j) ∧ x ∈ COO.indexlist c)
       ∧ Matrix.get_num_elements SO m'
         = Done (N.of_nat (if decide ((i, j) ∈ COO.indexlist c)
                           then length (COO.valueslist c) - 1
                           else length (COO.valueslist c))))
  ∧ (∀ (m : @Matrix.t T COOmap.t) (c : COOmap.t),
     dynamic_state m c → map_sorted SO c →
     (DEBUG = true → Matrix.in_bounds m i j = true) →
     ∃ m' c',
       Matrix.remove SO DEBUG m i j = Done (m', bool_decide ((i, j) ∈ c.*1))
       ∧ dynamic_state m' c' ∧ map_sorted SO c'
       ∧ Matrix.dims m' = Matrix.dims m
       ∧ Matrix.call_const SO DEBUG m' i j = Done (m', t_zero)
       ∧ (∀ i' j', (i', j') ≠ (i, j) →
            result (Matrix.call_const SO DEBUG m' i' j')
            = result (Matrix.call_const SO DEBUG m i' j'))
       ∧ (∀ x, x ∈ c'.*1 ↔ x ≠ (i, j) ∧ x ∈ c.*1)
       ∧ Matrix.get_num_elements SO m'
         = Done (N.of_nat (if decide ((i, j) ∈ c.*1) then length c - 1 else length c))).
Proof.
  intros T D HD HT SO DEBUG i j. split.
  - intros m c Hst Hwf Hasc Hin.
    destruct (G_remove_then_read SO entries aligned DEBUG m c i j Hst Hwf) as
      (m' & c' & Hrun & Hst' & Hwf' & Hdims & _ & Hread & Hframe & Hkeys & Hs & Hlen);
      [by apply entries_sorted|done|].
    rewrite entries_fst in Hrun, Hlen by done.
    exists m', c'. do 3 (split; [done|]). split; [by apply (entries_sorted SO c')|].
    do 3 (split; [done|]). split.
    + intros x. rewrite <- (entries_fst c'), <- (entries_fst c) by done. apply Hkeys.
    + rewrite (G_count SO entries aligned m' c') by done. rewrite Hlen.
      by rewrite length_entries.
  - intros m c Hst Hs Hin.
    destruct (G_remove_then_read SO id (fun _ => True) DEBUG m c i j Hst I Hs Hin) as
      (m' & c' & Hrun & Hst' & _ & Hdims & _ & Hread & Hframe & Hkeys & Hs' & Hlen).
    exists m', c'. do 7 (split; [done|]).
    rewrite (G_count SO id (fun _ => True) m' c') by done. by rewrite Hlen.
Qed.

(** ** [compress()] computes the compressed arrays *)

Lemma for_each_ext {A St} (ks : list A) (f g : A → St → outcome St) (st : St) :
  (∀ k st, k ∈ ks → f k st = g k st) → for_each ks f st = for_each ks g st.
Proof.
  revert st. induction ks as [|k ks IH]; intros st Hfg; simpl; [done|].
  rewrite Hfg by left. destruct (g k st) as [st'| |]; simpl; [|done..].
  apply IH. intros k' st'' Hk'. apply Hfg. by right.
Qed.

Lemma size_sub_1 (x : size_t) : 0 < x → x < SIZE_MOD → size_sub x 1 = x - 1.
Proof.
  intros H0 Hx. unfold size_sub. rewrite (N.mod_small 1) by (unfold SIZE_MOD, SIZE_WIDTH; lia).
  replace (x + SIZE_MOD - 1) with ((x - 1) + 1 * SIZE_MOD) by lia.
  rewrite N.Div0.mod_add. apply N.mod_small. lia.
Qed.

Section counting.
Context (SO : StorageOrder).
Implicit Types (keys : list index) (x : index) (l : nat).

Lemma line_count_nil l : line_count SO [] l = 0%nat.
Proof. done. Qed.

Lemma line_start_nil l : line_start SO [] l = 0%nat.
Proof. done. Qed.

Lemma line_count_snoc keys x l :
  line_count SO (keys ++ [x]) l
  = (line_count SO keys l + if decide (line_index SO x = N.of_nat l) then 1 else 0)%nat.
Proof.
  unfold line_count. rewrite filter_app, length_app. f_equal.
  rewrite filter_cons, filter_nil. by destruct (decide _).
Qed.

Lemma line_count_le keys l : (line_count SO keys l ≤ length keys)%nat.
Proof. apply length_filter. Qed.

Lemma line_start_le keys l : (line_start SO keys l ≤ length keys)%nat.
Proof. apply length_filter. Qed.

Lemma line_start_0 keys : line_start SO keys 0 = 0%nat.
Proof.
  unfold line_start. induction keys as [|x keys IH]; [done|].
  rewrite filter_cons. destruct (decide _) as [H|_]; [lia|done].
Qed.

Lemma line_start_S keys l :
  line_start SO keys (S l) = (line_start SO keys l + line_count SO keys l)%nat.
Proof.
  unfold line_start, line_count. induction keys as [|x keys IH]; [done|].
  rewrite !filter_cons.
  destruct (decide (line_index SO x < N.of_nat (S l))),
    (decide (line_index SO x < N.of_nat l)),
    (decide (line_index SO x = N.of_nat l)); simpl; lia.
Qed.

Lemma line_start_all keys l :
  Forall (fun x => line_index SO x < N.of_nat l) keys → line_start SO keys l = length keys.
Proof.
  unfold line_start. induction 1 as [|x keys Hx Hkeys IH]; [done|].
  rewrite filter_cons. destruct (decide _); [|done]. simpl. by rewrite IH.
Qed.

Lemma running_sum_counts keys (a k : nat) :
  N.of_nat (length keys) < SIZE_MOD →
  YALE.running_sum (N.of_nat (line_start SO keys a))
    ((fun l => N.of_nat (line_count SO keys l)) <$> seq a k)
  = (fun l => N.of_nat (line_start SO keys (S l))) <$> seq a k.
Proof.
  intros Hfit. revert a. induction k as [|k IH]; intros a; [done|].
  csimpl. 
  assert (size_add (N.of_nat (line_count SO keys a)) (N.of_nat (line_start SO keys a))
          = N.of_nat (line_start SO keys (S a))) as ->.
  { unfold size_add. rewrite N.mod_small.
    - rewrite line_start_S. lia.
    - pose proof (line_start_le keys (S a)). rewrite line_start_S in H. lia. }
  f_equal. apply IH.
Qed.
End counting.

Section compress_steps.
Context {T : Type} (SO : StorageOrder) (lines : size_t).
Implicit Types (es : list (index * T)) (e : index * T).

Lemma tally_nil :
  tally SO lines ([] : list (index * T))
  = {| YALE.outerindex := []; YALE.innerindex := replicate (S (N.to_nat lines)) 0;
       YALE.values := [] |}.
Proof.
  unfold tally. simpl. f_equal. f_equal.
  generalize 0%nat. induction (N.to_nat lines) as [|L IH]; intros a; [done|].
  simpl. f_equal. apply IH.
Qed.

Lemma csr_nil :
  csr SO lines ([] : list (index * T))
  = {| YALE.outerindex := []; YALE.innerindex := replicate (S (N.to_nat lines)) 0;
       YALE.values := [] |}.
Proof.
  unfold csr. simpl. f_equal. f_equal.
  generalize 1%nat. induction (N.to_nat lines) as [|L IH]; intros a; [done|].
  simpl. f_equal. apply IH.
Qed.

Lemma tally_bump es e :
  line_index SO e.1 < lines →
  lines + 1 < SIZE_MOD →
  N.of_nat (length es) + 1 < SIZE_MOD →
  ∃ a,
    YALE.innerindex (tally SO lines es) !! N.to_nat (size_add (line_index SO e.1) 1) = Some a
    ∧ <[N.to_nat (size_add (line_index SO e.1) 1) := size_add a 1]>
        (YALE.innerindex (tally SO lines es))
      = YALE.innerindex (tally SO lines (es ++ [e])).
Proof.
  intros Hline Hlines Hfit.
  assert (size_add (line_index SO e.1) 1 = line_index SO e.1 + 1) as ->
    by (apply size_add_1; lia).
  set (p := N.to_nat (line_index SO e.1)).
  replace (N.to_nat (line_index SO e.1 + 1)) with (S p) by lia.
  exists (N.of_nat (line_count SO es.*1 p)). simpl. split.
  { rewrite list_lookup_fmap, lookup_seq_lt by lia. done. }
  f_equal. pose proof (line_count_le SO es.*1 p) as Hle. rewrite length_fmap in Hle.
  rewrite size_add_1 by lia.
  apply list_eq. intros k. rewrite fmap_app. simpl.
  destruct (decide (k = p)) as [->|Hne].
  - rewrite list_lookup_insert_eq by (rewrite length_fmap, length_seq; lia).
    rewrite list_lookup_fmap, lookup_seq_lt by lia. simpl. f_equal.
    rewrite line_count_snoc. destruct (decide _) as [|Hno]; [lia|]. destruct Hno. lia.
  - rewrite list_lookup_insert_ne by done. rewrite !list_lookup_fmap.
    destruct (seq 0 (N.to_nat lines) !! k) as [l|] eqn:Hl; simpl; [|done].
    apply lookup_seq in Hl as [-> _]. f_equal. f_equal.
    rewrite line_count_snoc. destruct (decide _) as [Heq|]; [|lia]. lia.
Qed.

Lemma compress_from_triplets_step es e :
  line_index SO e.1 < lines →
  lines + 1 < SIZE_MOD →
  N.of_nat (length es) + 1 < SIZE_MOD →
  YALE.compress_from_triplets SO false (e.1.1, e.1.2, e.2) (tally SO lines es)
  = Done (tally SO lines (es ++ [e])).
Proof.
  intros Hline Hlines Hfit. unfold YALE.compress_from_triplets. cbn [fst snd].
  destruct (tally_bump es e Hline Hlines Hfit) as (a & Ha & Hins).
  unfold line_index in Ha, Hins.
  destruct (YALE.inner_outer SO e.1.1 e.1.2) as [line out] eqn:Hio. cbn [fst snd] in *.
  rewrite (at_Some _ _ _ Ha). simpl.
  rewrite put_lt by (by eapply lookup_lt_Some). simpl.
  simpl in Hins. rewrite Hins. unfold tally. rewrite !fmap_app. simpl.
  unfold outer_index. by rewrite Hio.
Qed.

Lemma compress_from_triplets_last es e :
  line_index SO e.1 < lines →
  lines + 1 < SIZE_MOD →
  N.of_nat (length es) + 1 < SIZE_MOD →
  YALE.compress_from_triplets SO true (e.1.1, e.1.2, e.2) (tally SO lines es)
  = Done (csr SO lines (es ++ [e])).
Proof.
  intros Hline Hlines Hfit. unfold YALE.compress_from_triplets. cbn [fst snd].
  destruct (tally_bump es e Hline Hlines Hfit) as (a & Ha & Hins).
  unfold line_index in Ha, Hins.
  destruct (YALE.inner_outer SO e.1.1 e.1.2) as [line out] eqn:Hio. cbn [fst snd] in *.
  rewrite (at_Some _ _ _ Ha). simpl.
  rewrite put_lt by (by eapply lookup_lt_Some). simpl.
  simpl in Hins. rewrite Hins. simpl.
  unfold csr. rewrite !fmap_app. simpl. f_equal. f_equal.
  - unfold outer_index. by rewrite Hio.
  - f_equal; [by rewrite line_start_0|].
    pose proof (running_sum_counts SO (es.*1 ++ [e.1]) 0 (N.to_nat lines)) as Hrs.
    rewrite line_start_0 in Hrs. change (N.of_nat 0) with 0 in Hrs.
    rewrite Hrs.
    + by rewrite <- fmap_S_seq, <- list_fmap_compose.
    + rewrite length_app, length_fmap. simpl. lia.
Qed.
End compress_steps.

Section compress_loop.
Context {T D Dyn : Type} `{!DoubleOps D} `{!NumericOrComplex T D}.
Context (SO : StorageOrder) `{!Dynamic SO T D Dyn}.
Context (ent : Dyn → list (index * T)) (wf : Dyn → Prop).
Context `{!AssociationList SO ent wf}.
Implicit Types (m : @Matrix.t T Dyn) (c : Dyn).

Lemma compress_rounds c (lines : size_t) (k i : nat) :
  wf c →
  Forall (fun e => line_index SO e.1 < lines) (ent c) →
  lines + 1 < SIZE_MOD →
  N.of_nat (length (ent c)) < SIZE_MOD →
  (i + k = length (ent c))%nat → (0 < k)%nat →
  for_each (seq i k)
    (fun i '(cursor, y) =>
       '(cursor, tuple) ← compress_from_dynamic (bool_decide (i = 0%nat)) cursor c;
       y ← YALE.compress_from_triplets SO
             (bool_decide (N.of_nat i = N.of_nat (length (ent c)) - 1)) tuple y;
       Done (cursor, y))
    (i, tally SO lines (take i (ent c)))
  = Done (length (ent c), csr SO lines (ent c)).
Proof.
  intros Hwf Hlines Hfit Hn. revert i.
  induction k as [|k IH]; intros i Hik Hk; [lia|].
  cbn [seq for_each]. rewrite law_compress by done.
  assert ((if bool_decide (i = 0%nat) then 0%nat else i) = i) as ->
    by (by destruct (decide (i = 0%nat)) as [->|]; [|rewrite bool_decide_eq_false_2]).
  assert (is_Some (ent c !! i)) as [e He] by (apply lookup_lt_is_Some; lia).
  cbv zeta. rewrite (at_Some _ _ _ He). cbn [mbind outcome_bind].
  assert (line_index SO e.1 < lines) as Hline.
  { rewrite Forall_forall in Hlines. apply Hlines. by eapply list_elem_of_lookup_2. }
  assert (N.of_nat (length (take i (ent c))) + 1 < SIZE_MOD) as Hfit'
    by (rewrite length_take; lia).
  destruct (decide (k = 0%nat)) as [->|Hk0].
  - rewrite bool_decide_eq_true_2 by lia.
    rewrite compress_from_triplets_last by done. cbn [mbind outcome_bind seq for_each].
    rewrite <- (take_S_r _ _ _ He), take_ge by lia. do 2 f_equal. lia.
  - rewrite bool_decide_eq_false_2 by lia.
    rewrite compress_from_triplets_step by done. cbn [mbind outcome_bind].
    rewrite <- (take_S_r _ _ _ He). apply IH; lia.
Qed.

Lemma G_compress DEBUG m c :
  dynamic_state m c → wf c →
  Forall (fun e => line_index SO e.1 < num_lines SO (Matrix.dims m)) (ent c) →
  num_lines SO (Matrix.dims m) + 1 < SIZE_MOD →
  N.of_nat (length (ent c)) < SIZE_MOD →
  Matrix.compress SO DEBUG m
  = Done {| Matrix.dims := Matrix.dims m;
            Matrix.compressed := Some (csr SO (num_lines SO (Matrix.dims m)) (ent c));
            Matrix.dynamic := None; Matrix.isCompressed := Some true |}.
Proof.
  intros [Hf Hd] Hwf Hlines Hfit Hn. unfold Matrix.compress, Matrix.flag. rewrite Hf. simpl.
  rewrite (assert_guard DEBUG) by done. simpl.
  unfold Matrix.get_num_elements, Matrix.flag. rewrite Hf, Hd. simpl.
  rewrite law_count by done. unfold range. rewrite Nat2N.id, Nat.sub_0_r.
  fold (num_lines SO (Matrix.dims m)).
  destruct (decide (length (ent c) = 0%nat)) as [Hz|Hnz].
  - rewrite Hz. simpl. do 3 f_equal.
    apply nil_length_inv in Hz. rewrite Hz, csr_nil.
    unfold YALE.initialize_compressed. do 2 f_equal. rewrite size_add_1 by done. lia.
  - pose proof (compress_rounds c (num_lines SO (Matrix.dims m)) (length (ent c)) 0
                  Hwf Hlines Hfit Hn) as Hloop.
    rewrite take_0, tally_nil in Hloop.
    unfold YALE.initialize_compressed. rewrite size_add_1 by done.
    replace (N.to_nat (num_lines SO (Matrix.dims m) + 1))
      with (S (N.to_nat (num_lines SO (Matrix.dims m)))) by lia.
    rewrite size_sub_1 by lia.
    rewrite Hloop by lia. done.
Qed.
End compress_loop.

(** ** Coordinates in ascending order, line by line *)

Section lines.
Context (SO : StorageOrder).
Implicit Types (keys : list index) (x y : index) (l p q : nat).

Lemma Comparator_line_outer x y :
  Comparator SO x y = true
  ↔ line_index SO x < line_index SO y
    ∨ (line_index SO x = line_index SO y ∧ outer_index SO x < outer_index SO y).
Proof.
  unfold Comparator, line_index, outer_index, YALE.inner_outer.
  destruct SO, x as [x1 x2], y as [y1 y2]; simpl.
  - destruct (N.eqb_spec x1 y1); simpl; rewrite N.ltb_lt; lia.
  - destruct (N.eqb_spec x2 y2); simpl; rewrite N.ltb_lt; lia.
Qed.


Lemma ascending_lookup keys p q x y :
  ascending SO keys → keys !! p = Some x → keys !! q = Some y → (p < q)%nat →
  Comparator SO x y = true.
Proof.
  unfold ascending. intros Hs. revert p q.
  induction Hs as [|z keys Hs IH Hz]; intros p q Hp Hq Hpq; [done|].
  destruct q as [|q]; [lia|]. simpl in Hq. destruct p as [|p]; simpl in Hp.
  - injection Hp as ->. rewrite Forall_forall in Hz. apply Hz.
    by eapply list_elem_of_lookup_2.
  - eapply IH; [done..|lia].
Qed.

Lemma ascending_lines keys p q x y :
  ascending SO keys → keys !! p = Some x → keys !! q = Some y → (p ≤ q)%nat →
  line_index SO x ≤ line_index SO y.
Proof.
  intros Hs Hp Hq Hpq. destruct (decide (p = q)) as [->|Hne].
  - rewrite Hp in Hq. injection Hq as ->. lia.
  - assert (Comparator SO x y = true) as Hc
      by (eapply (ascending_lookup keys p q); [done..|lia]).
    apply Comparator_line_outer in Hc. lia.
Qed.

Lemma line_start_none keys l :
  Forall (fun x => N.of_nat l ≤ line_index SO x) keys → line_start SO keys l = 0%nat.
Proof.
  unfold line_start. induction 1 as [|x keys Hx Hkeys IH]; [done|].
  rewrite filter_cons. destruct (decide _); [lia|done].
Qed.

Lemma line_start_cons x keys l :
  line_start SO (x :: keys) l
  = ((if decide (line_index SO x < N.of_nat l)%N then 1 else 0) + line_start SO keys l)%nat.
Proof. unfold line_start. rewrite filter_cons. by destruct (decide _). Qed.

Lemma line_start_position keys p x l :
  ascending SO keys → keys !! p = Some x →
  (p < line_start SO keys l)%nat ↔ line_index SO x < N.of_nat l.
Proof.
  intros Hs. revert p. induction keys as [|y keys IH]; intros p Hp; [done|].
  assert (ascending SO keys) as Hs' by (by apply StronglySorted_cons in Hs as [_ ?]).
  rewrite line_start_cons. destruct p as [|p]; simpl in Hp.
  - injection Hp as ->. destruct (decide _) as [Hlt|Hge]; [split; [done|lia]|].
    rewrite line_start_none; [split; [lia|done]|].
    apply Forall_forall. intros z Hz. apply list_elem_of_lookup in Hz as [q Hq].
    pose proof (ascending_lines (x :: keys) 0 (S q) x z Hs eq_refl Hq). lia.
  - destruct (decide _) as [Hlt|Hge].
    + rewrite <- (IH Hs' p Hp). lia.
    + pose proof (ascending_lines (y :: keys) 0 (S p) y x Hs eq_refl Hp) as Hyx.
      rewrite line_start_none; [split; lia|].
      apply Forall_forall. intros z Hz. apply list_elem_of_lookup in Hz as [q Hq].
      pose proof (ascending_lines (y :: keys) 0 (S q) y z Hs eq_refl Hq). lia.
Qed.

Lemma line_start_mono keys l l' :
  (l ≤ l')%nat → (line_start SO keys l ≤ line_start SO keys l')%nat.
Proof.
  intros Hl. unfold line_start. induction keys as [|x keys IH]; [done|].
  rewrite !filter_cons.
  destruct (decide (line_index SO x < N.of_nat l)),
    (decide (line_index SO x < N.of_nat l')); simpl; lia.
Qed.

Lemma line_segment keys p x l :
  ascending SO keys → keys !! p = Some x →
  line_index SO x = N.of_nat l
  ↔ (line_start SO keys l ≤ p < line_start SO keys (S l))%nat.
Proof.
  intros Hs Hp.
  pose proof (line_start_position keys p x l Hs Hp).
  pose proof (line_start_position keys p x (S l) Hs Hp). lia.
Qed.

Lemma first_line keys x :
  ascending SO keys → no_line_skipped SO keys → keys !! 0%nat = Some x →
  line_index SO x = 0.
Proof.
  intros Hs Hno Hx. destruct (decide (line_index SO x = 0)) as [|Hne]; [done|].
  destruct (Hno 0%nat x) as (y & Hy & Hly); [by eapply list_elem_of_lookup_2|lia|].
  apply list_elem_of_lookup in Hy as [q Hq].
  pose proof (ascending_lines keys 0 q x y Hs Hx Hq). lia.
Qed.

Lemma next_line_step keys p x y :
  ascending SO keys → no_line_skipped SO keys →
  keys !! p = Some x → keys !! S p = Some y →
  line_index SO y = line_index SO x ∨ line_index SO y = line_index SO x + 1.
Proof.
  intros Hs Hno Hx Hy.
  pose proof (ascending_lines keys p (S p) x y Hs Hx Hy) as Hle.
  destruct (decide (line_index SO y ≤ line_index SO x + 1)) as [|Hgt]; [lia|].
  destruct (Hno (N.to_nat (line_index SO x + 1)) y) as (z & Hz & Hlz);
    [by eapply list_elem_of_lookup_2|lia|].
  apply list_elem_of_lookup in Hz as [q Hq].
  destruct (decide (q ≤ p)%nat).
  - pose proof (ascending_lines keys q p z x Hs Hq Hx). lia.
  - pose proof (ascending_lines keys (S p) q y z Hs Hy Hq). lia.
Qed.
End lines.

(** ** [uncompress()] gives back the entries *)

Section uncompress_steps.
Context {T : Type} (SO : StorageOrder) (lines : size_t).
Implicit Types (es : list (index * T)) (e : index * T).

Lemma uncompress_from_compressed_step es e (i : nat) (first_it : bool)
    (cursor : nat * nat * nat) :
  ascending SO es.*1 → no_line_skipped SO es.*1 →
  Forall (fun e => line_index SO e.1 < lines) es →
  es !! i = Some e →
  (if first_it then (0, 0, 0)%nat else cursor) = (N.to_nat (line_index SO e.1), i, i) →
  ∃ innerit',
    YALE.uncompress_from_compressed SO first_it cursor (csr SO lines es)
    = Done (innerit', S i, S i, (e.1.1, e.1.2, e.2))
    ∧ ∀ e', es !! S i = Some e' → innerit' = N.to_nat (line_index SO e'.1).
Proof.
  intros Hs Hno Hlines He Hcur. unfold YALE.uncompress_from_compressed. rewrite Hcur.
  assert (line_index SO e.1 < lines) as Hline.
  { rewrite Forall_forall in Hlines. apply Hlines. by eapply list_elem_of_lookup_2. }
  assert (es.*1 !! i = Some e.1) as Hk by (by rewrite list_lookup_fmap, He).
  set (l := N.to_nat (line_index SO e.1)).
  assert (YALE.outerindex (csr SO lines es) !! i = Some (outer_index SO e.1)) as Ho
    by (simpl; by rewrite list_lookup_fmap, He).
  assert (YALE.values (csr SO lines es) !! i = Some e.2) as Hv
    by (simpl; by rewrite list_lookup_fmap, He).
  assert (YALE.innerindex (csr SO lines es) !! S l
          = Some (N.of_nat (line_start SO es.*1 (S l)))) as Hi.
  { simpl. rewrite list_lookup_fmap, lookup_seq_lt by lia. done. }
  rewrite (at_Some _ _ _ Ho). cbn [mbind outcome_bind].
  rewrite (at_Some _ _ _ Hv). cbn [mbind outcome_bind].
  rewrite (at_Some _ _ _ Hi). cbn [mbind outcome_bind].
  eexists. split.
  - f_equal. f_equal. unfold l, line_index, outer_index, YALE.inner_outer.
    rewrite N2Nat.id. by destruct SO.
  - intros e' He'.
    assert (es.*1 !! S i = Some e'.1) as Hk' by (by rewrite list_lookup_fmap, He').
    pose proof (line_start_position SO es.*1 (S i) e'.1 (S l) Hs Hk') as Hpos.
    pose proof (ascending_lines SO es.*1 i (S i) e.1 e'.1 Hs Hk Hk') as Hle.
    pose proof (next_line_step SO es.*1 i e.1 e'.1 Hs Hno Hk Hk') as Hstep.
    destruct (N.leb_spec (N.of_nat (line_start SO es.*1 (S l))) (N.of_nat (S i))); lia.
Qed.
End uncompress_steps.

Section uncompress_loop.
Context {T D Dyn : Type} `{!DoubleOps D} `{!NumericOrComplex T D}.
Context (SO : StorageOrder) `{!Dynamic SO T D Dyn}.
Context (ent : Dyn → list (index * T)) (wf : Dyn → Prop).
Context `{!AssociationList SO ent wf}.
Implicit Types (m : @Matrix.t T Dyn) (c : Dyn).

Lemma uncompress_rounds (cur : nat → Dyn → Prop) (lines : size_t)
    (es : list (index * T)) (k i : nat) ycursor dcursor dyn :
  (∀ (first_it : bool) cursor k v c,
      wf c → (if first_it then ent c = [] else cur cursor c) →
      map_sorted SO (ent c ++ [(k, v)]) →
      ∃ cursor' c',
        uncompress_from_triplets first_it cursor (k.1, k.2, v) c = Done (cursor', c')
        ∧ ent c' = ent c ++ [(k, v)] ∧ wf c' ∧ cur cursor' c') →
  map_sorted SO es → no_line_skipped SO es.*1 →
  Forall (fun e => line_index SO e.1 < lines) es →
  (i + k = length es)%nat →
  (∀ e, es !! i = Some e →
        (if bool_decide (i = 0%nat) then (0, 0, 0)%nat else ycursor)
        = (N.to_nat (line_index SO e.1), i, i)) →
  wf dyn → ent dyn = take i es →
  (if bool_decide (i = 0%nat) then True else cur dcursor dyn) →
  ∃ ycursor' dcursor' dyn',
    for_each (seq i k)
      (fun i '(ycursor, dcursor, dyn) =>
         y ← deref (Some (csr SO lines es));
         '(ycursor, tuple) ← YALE.uncompress_from_compressed SO
                                (bool_decide (i = 0%nat)) ycursor y;
         '(dcursor, dyn) ← uncompress_from_triplets
                              (bool_decide (i = 0%nat)) dcursor tuple dyn;
         Done (ycursor, dcursor, dyn))
      (ycursor, dcursor, dyn)
    = Done (ycursor', dcursor', dyn')
    ∧ wf dyn' ∧ ent dyn' = es.
Proof.
  intros Hlaw Hs Hno Hlines. revert i ycursor dcursor dyn.
  assert (ascending SO es.*1) as Hasc.
  { unfold ascending, map_sorted in *. eapply StronglySorted_fmap; [|exact Hs]. done. }
  induction k as [|k IH]; intros i ycursor dcursor dyn Hik Hy Hwf Hent Hcur.
  { exists ycursor, dcursor, dyn. split; [done|]. split; [done|].
    rewrite Hent. apply take_ge. lia. }
  assert (is_Some (es !! i)) as [e He] by (apply lookup_lt_is_Some; lia).
  destruct (uncompress_from_compressed_step SO lines es e i (bool_decide (i = 0%nat))
              ycursor Hasc Hno Hlines He (Hy e He)) as (innerit' & Hstep & Hnext).
  destruct (Hlaw (bool_decide (i = 0%nat)) dcursor e.1 e.2 dyn Hwf)
    as (dcursor' & dyn' & Hput & Hent' & Hwf' & Hcur').
  { destruct (decide (i = 0%nat)) as [->|Hne].
    - by rewrite Hent, take_0.
    - rewrite bool_decide_eq_false_2 in Hcur |- * by done. done. }
  { rewrite Hent. replace (e.1, e.2) with e by (by destruct e).
    rewrite <- (take_S_r _ _ _ He). unfold map_sorted in *.
    rewrite <- (take_drop (S i) es) in Hs. by apply StronglySorted_app_1_l in Hs. }
  destruct (IH (S i) (innerit', S i, S i) dcursor' dyn') as (y' & d' & c' & Hrun & Hres).
  - lia.
  - intros e' He'. rewrite bool_decide_eq_false_2 by done. by rewrite (Hnext e' He').
  - done.
  - rewrite Hent', Hent. replace (e.1, e.2) with e by (by destruct e).
    by rewrite <- (take_S_r _ _ _ He).
  - by rewrite bool_decide_eq_false_2.
  - exists y', d', c'. split; [|done].
    cbn [seq for_each deref mbind outcome_bind].
    rewrite Hstep. cbn [mbind outcome_bind]. rewrite Hput. cbn [mbind outcome_bind].
    exact Hrun.
Qed.

Lemma G_uncompress DEBUG m (es : list (index * T)) :
  Matrix.isCompressed m = Some true →
  Matrix.compressed m = Some (csr SO (num_lines SO (Matrix.dims m)) es) →
  map_sorted SO es → no_line_skipped SO es.*1 →
  Forall (fun e => line_index SO e.1 < num_lines SO (Matrix.dims m)) es →
  ∃ c,
    Matrix.uncompress SO DEBUG m
    = Done {| Matrix.dims := Matrix.dims m; Matrix.compressed := None;
              Matrix.dynamic := Some c; Matrix.isCompressed := Some false |}
    ∧ wf c ∧ ent c = es.
Proof.
  intros Hf Hc Hs Hno Hlines. unfold Matrix.uncompress, Matrix.flag. rewrite Hf. simpl.
  rewrite (assert_guard DEBUG) by done. simpl.
  unfold Matrix.get_num_elements, Matrix.flag. rewrite Hf, Hc. simpl.
  unfold range, YALE.get_num_elements_compressed. cbn [csr YALE.values].
  rewrite length_fmap, Nat2N.id, Nat.sub_0_r.
  destruct law_uncompress as [cur Hlaw].
  destruct law_initialize as [Hwf0 Hent0].
  destruct (uncompress_rounds cur (num_lines SO (Matrix.dims m)) es (length es) 0
              (0, 0, 0)%nat 0%nat initialize_dynamic Hlaw Hs Hno Hlines)
    as (y' & d' & c' & Hrun & Hwf & Hent); [done| |done|by rewrite take_0|done|].
  { intros e He. simpl. f_equal. f_equal.
    assert (ascending SO es.*1) as Hasc.
    { unfold ascending, map_sorted in *. eapply StronglySorted_fmap; [|exact Hs]. done. }
    rewrite (first_line SO es.*1 e.1 Hasc Hno); [done|].
    by rewrite list_lookup_fmap, He. }
  cbn [deref mbind outcome_bind] in Hrun.
  exists c'. split; [|done].
  match goal with |- context [for_each ?ks ?body ?st] =>
    assert (for_each ks body st = Done (y', d', c')) as -> by exact Hrun end.
  done.
Qed.
End uncompress_loop.

Lemma entries_inj {T} (c c' : @COO.t T) :
  aligned c → aligned c' → entries c' = entries c → c' = c.
Proof.
  intros Hc Hc' He. destruct c as [il vl], c' as [il' vl'].
  pose proof (f_equal (fmap fst) He) as H1. pose proof (f_equal (fmap snd) He) as H2.
  rewrite !entries_fst in H1 by done. rewrite !entries_snd in H2 by done.
  simpl in *. by subst.
Qed.

(** ** Compression and the round trip *)

(** X4. [compress()] on a matrix in dynamic state whose coordinates all lie
    in lines the matrix has ends in compressed state with the same
    dimensions, the dynamic side released and the arrays [csr]: the outer
    indices and the values in storage order and, for every line, the
    number of entries before it. This holds on both backends, whatever
    the order of the entries and whether or not lines are empty, as long
    as the number of lines plus one and the number of entries fit
    [size_t]. *)
Theorem compress_yields_the_compressed_arrays :
  ∀ {T D : Type} `{!DoubleOps D} `{!NumericOrComplex T D}
    (SO : StorageOrder) (DEBUG : bool),
  (∀ (m : @Matrix.t T COO.t) (c : COO.t),
     dynamic_state m c → aligned c →
     Forall (fun x => line_index SO x < num_lines SO (Matrix.dims m)) (COO.indexlist c) →
     num_lines SO (Matrix.dims m) + 1 < SIZE_MOD →
     N.of_nat (length (COO.valueslist c)) < SIZE_MOD →
     Matrix.compress SO DEBUG m
     = Done {| Matrix.dims := Matrix.dims m;
               Matrix.compressed :=
                 Some (csr SO (num_lines SO (Matrix.dims m)) (entries c));
               Matrix.dynamic := None; Matrix.isCompressed := Some true |})
  ∧ (∀ (m : @Matrix.t T COOmap.t) (c : COOmap.t),
     dynamic_state m c →
     Forall (fun x => line_index SO x < num_lines SO (Matrix.dims m)) c.*1 →
     num_lines SO (Matrix.dims m) + 1 < SIZE_MOD →
     N.of_nat (length c) < SIZE_MOD →
     Matrix.compress SO DEBUG m
     = Done {| Matrix.dims := Matrix.dims m;
               Matrix.compressed := Some (csr SO (num_lines SO (Matrix.dims m)) c);
               Matrix.dynamic := None; Matrix.isCompressed := Some true |}).
Proof.
  intros T D HD HT SO DEBUG. split.
  - intros m c Hst Hwf Hlines Hfit Hn.
    apply (G_compress SO entries aligned DEBUG m c Hst Hwf); [|done|].
    + rewrite <- (entries_fst c Hwf) in Hlines. by apply Forall_fmap in Hlines.
    + by rewrite length_entries.
  - intros m c Hst Hlines Hfit Hn.
    apply (G_compress (Dyn:=COOmap.t) SO id (fun _ => True) DEBUG m c Hst I); [|done|done].
    by apply Forall_fmap in Hlines.
Qed.

(** X5. [compress()] followed by [uncompress()] gives back the storage it
    started from, on both backends, when the storage is in ascending
    order, every coordinate lies in a line the matrix has and no empty
    line comes before a stored entry (empty lines after the last entry
    do no harm). *)
Theorem round_trip_gives_back_the_storage :
  ∀ {T D : Type} `{!DoubleOps D} `{!NumericOrComplex T D}
    (SO : StorageOrder) (DEBUG : bool),
  (∀ (m : @Matrix.t T COO.t) (c : COO.t),
     dynamic_state m c → aligned c →
     ascending SO (COO.indexlist c) → no_line_skipped SO (COO.indexlist c) →
     Forall (fun x => line_index SO x < num_lines SO (Matrix.dims m)) (COO.indexlist c) →
     num_lines SO (Matrix.dims m) + 1 < SIZE_MOD →
     N.of_nat (length (COO.valueslist c)) < SIZE_MOD →
     (mc ← Matrix.compress SO DEBUG m; Matrix.uncompress SO DEBUG mc)
     = Done {| Matrix.dims := Matrix.dims m; Matrix.compressed := None;
               Matrix.dynamic := Some c; Matrix.isCompressed := Some false |})
  ∧ (∀ (m : @Matrix.t T COOmap.t) (c : COOmap.t),
     dynamic_state m c →
     map_sorted SO c → no_line_skipped SO c.*1 →
     Forall (fun x => line_index SO x < num_lines SO (Matrix.dims m)) c.*1 →
     num_lines SO (Matrix.dims m) + 1 < SIZE_MOD →
     N.of_nat (length c) < SIZE_MOD →
     (mc ← Matrix.compress SO DEBUG m; Matrix.uncompress SO DEBUG mc)
     = Done {| Matrix.dims := Matrix.dims m; Matrix.compressed := None;
               Matrix.dynamic := Some c; Matrix.isCompressed := Some false |}).
Proof.
  intros T D HD HT SO DEBUG. split.
  - intros m c Hst Hwf Hasc Hno Hlines Hfit Hn.
    rewrite <- (entries_fst c Hwf) in Hlines, Hno. apply Forall_fmap in Hlines.
    rewrite (G_compress SO entries aligned DEBUG m c Hst Hwf Hlines Hfit)
      by (by rewrite length_entries).
    cbn [mbind outcome_bind].
    destruct (G_uncompress SO entries aligned DEBUG
                {| Matrix.dims := Matrix.dims m;
                   Matrix.compressed :=
                     Some (csr SO (num_lines SO (Matrix.dims m)) (entries c));
                   Matrix.dynamic := None; Matrix.isCompressed := Some true |}
                (entries c)) as (c' & -> & Hwf' & Hent); try done.
    { by apply entries_sorted. }
    simpl. by rewrite (entries_inj c c' Hwf Hwf' Hent).
  - intros m c Hst Hs Hno Hlines Hfit Hn.
    apply Forall_fmap in Hlines.
    rewrite (G_compress (Dyn:=COOmap.t) SO id (fun _ => True) DEBUG m c Hst I Hlines Hfit Hn).
    cbn [mbind outcome_bind]. unfold id.
    destruct (G_uncompress (Dyn:=COOmap.t) SO id (fun _ => True) DEBUG
                {| Matrix.dims := Matrix.dims m;
                   Matrix.compressed := Some (csr SO (num_lines SO (Matrix.dims m)) c);
                   Matrix.dynamic := None; Matrix.isCompressed := Some true |}
                c) as (c' & -> & _ & Hent); try done.
    simpl. unfold id in Hent. by rewrite Hent.
Qed.

(** ** The compressed arrays of a storage in ascending order *)

Section csr_facts.
Context {T : Type} (SO : StorageOrder) (lines : size_t).
Implicit Types (es : list (index * T)).

Lemma map_sorted_ascending es : map_sorted SO es → ascending SO es.*1.
Proof.
  unfold ascending, map_sorted. intros Hs. eapply StronglySorted_fmap; [|exact Hs]. done.
Qed.

Lemma csr_inner_lookup es (l : nat) :
  (l ≤ N.to_nat lines)%nat →
  YALE.innerindex (csr SO lines es) !! l = Some (N.of_nat (line_start SO es.*1 l)).
Proof.
  intros Hl. cbn [csr YALE.innerindex].
  rewrite list_lookup_fmap, lookup_seq_lt by lia. done.
Qed.


End csr_facts.

Section compressed_lookup.
Context {T D Dyn : Type} `{!DoubleOps D} `{!NumericOrComplex T D}.
Context (SO : StorageOrder) `{!Dynamic SO T D Dyn}.
Implicit Types (m : @Matrix.t T Dyn) (es : list (index * T)).


End compressed_lookup.

Section lookup_generic.
Context {T D Dyn : Type} `{!DoubleOps D} `{!NumericOrComplex T D}.
Context (SO : StorageOrder) `{!Dynamic SO T D Dyn}.
Context (ent : Dyn → list (index * T)) (wf : Dyn → Prop).
Context `{!AssociationList SO ent wf}.
Implicit Types (m : @Matrix.t T Dyn) (c : Dyn).

End lookup_generic.


(** ** The invariants of the compressed format *)

Lemma non_decreasing_lookup (l : list size_t) :
  (∀ a x y, l !! a = Some x → l !! S a = Some y → x ≤ y) → non_decreasing l = true.
Proof.
  induction l as [|x l IH]; intros Hl; [done|]. destruct l as [|y l]; [done|].
  change (non_decreasing (x :: y :: l)) with ((x <=? y) && non_decreasing (y :: l)).
  rewrite IH.
  - rewrite andb_true_r. apply N.leb_le. by apply (Hl 0%nat).
  - intros a x' y' Hx' Hy'. by apply (Hl (S a)).
Qed.

Lemma non_decreasing_fmap_seq (f : nat → size_t) (a k : nat) :
  (∀ l, f l ≤ f (S l)) → non_decreasing (f <$> seq a k) = true.
Proof.
  intros Hf. apply non_decreasing_lookup. intros p x y.
  rewrite !list_lookup_fmap.
  destruct (seq a k !! p) as [l|] eqn:Hl; [|done].
  destruct (seq a k !! S p) as [l'|] eqn:Hl'; [|done].
  apply lookup_seq in Hl as [-> _]. apply lookup_seq in Hl' as [-> _].
  simpl. intros [= <-] [= <-]. replace (a + S p)%nat with (S (a + p)) by lia. apply Hf.
Qed.



(** ** The product and the norms after [compress()] *)

Lemma for_each_app {A St} (l1 l2 : list A) (f : A → St → outcome St) (st : St) :
  for_each (l1 ++ l2) f st = (st ← for_each l1 f st; for_each l2 f st).
Proof.
  revert st. induction l1 as [|k l1 IH]; intros st; simpl; [done|].
  destruct (f k st) as [st'| |]; simpl; [|done..]. apply IH.
Qed.

Section product.
Context {T D : Type} `{!DoubleOps D} `{!NumericOrComplex T D} (SO : StorageOrder).
Implicit Types (es : list (index * T)) (v result : list T).

Lemma by_vector_scan_for_each es v result :
  COOmap.by_vector_scan es v result = for_each es (product_step v) result.
Proof.
  revert result. induction es as [|el es IH]; intros result; simpl; [done|].
  unfold product_step.
  destruct (at_ v _) as [vx| |]; simpl; [|done..].
  destruct (at_ result _) as [old| |]; simpl; [|done..].
  destruct (put result _ _) as [r| |]; simpl; [|done..]. apply IH.
Qed.

Lemma inner_product_loop (lines : size_t) es v (l start len : nat) result :
  Forall (fun e => line_index SO e.1 = N.of_nat l) (take len (drop start es)) →
  (start + len ≤ length es)%nat →
  for_each (seq start len)
    (fun j result =>
       outer_index ← at_ (YALE.outerindex (csr SO lines es)) j;
       value ← at_ (YALE.values (csr SO lines es)) j;
       match SO with
       | rowMajor =>
           vx ← at_ v (N.to_nat outer_index);
           old ← at_ result l;
           put result l (t_add old (t_mul value vx))
       | columnMajor =>
           vx ← at_ v l;
           old ← at_ result (N.to_nat outer_index);
           put result (N.to_nat outer_index) (t_add old (t_mul value vx))
       end)
    result
  = for_each (take len (drop start es)) (product_step v) result.
Proof.
  revert start result. induction len as [|len IH]; intros start result Hl Hfit; [done|].
  assert (is_Some (es !! start)) as [e He] by (apply lookup_lt_is_Some; lia).
  rewrite (drop_S _ _ _ He) in Hl |- *. cbn [take seq for_each] in *.
  apply Forall_cons in Hl as [Hle Hl].
  cbn [csr YALE.outerindex YALE.values].
  assert (((fun e0 : index * T => outer_index SO e0.1) <$> es) !! start
          = Some (outer_index SO e.1)) as Ho by (by rewrite list_lookup_fmap, He).
  assert (es.*2 !! start = Some e.2) as Hv by (by rewrite list_lookup_fmap, He).
  rewrite (at_Some _ _ _ Ho), (at_Some _ _ _ Hv). cbn [mbind outcome_bind].
  assert (match SO with
          | rowMajor =>
              vx ← at_ v (N.to_nat (outer_index SO e.1));
              old ← at_ result l;
              put result l (t_add old (t_mul e.2 vx))
          | columnMajor =>
              vx ← at_ v l;
              old ← at_ result (N.to_nat (outer_index SO e.1));
              put result (N.to_nat (outer_index SO e.1)) (t_add old (t_mul e.2 vx))
          end = product_step v e result) as ->.
  { unfold product_step. unfold line_index, outer_index, YALE.inner_outer in *.
    destruct SO; simpl in *; rewrite Hle, ?Nat2N.id; done. }
  destruct (product_step v e result) as [r| |]; cbn [mbind outcome_bind]; [|done..].
  apply (IH (S start) r); [done|lia].
Qed.

Lemma segment_lines es (l : nat) :
  ascending SO es.*1 →
  Forall (fun e => line_index SO e.1 = N.of_nat l)
    (take (line_start SO es.*1 (S l) - line_start SO es.*1 l)
       (drop (line_start SO es.*1 l) es)).
Proof.
  intros Hasc. apply Forall_forall. intros e He. apply list_elem_of_lookup in He as [q Hq].
  apply lookup_take_Some in Hq as [Hq Hlt]. rewrite lookup_drop in Hq.
  apply (line_segment SO es.*1 (line_start SO es.*1 l + q) e.1 l Hasc); [|lia].
  by rewrite list_lookup_fmap, Hq.
Qed.

Lemma outer_product_loop (lines : size_t) es v (L : nat) result :
  ascending SO es.*1 → (L ≤ N.to_nat lines)%nat →
  for_each (seq 0 L)
    (fun i result =>
       start ← at_ (YALE.innerindex (csr SO lines es)) i;
       end_ ← at_ (YALE.innerindex (csr SO lines es)) (S i);
       for_each (range (N.to_nat start) (N.to_nat end_))
         (fun j result =>
            outer_index ← at_ (YALE.outerindex (csr SO lines es)) j;
            value ← at_ (YALE.values (csr SO lines es)) j;
            match SO with
            | rowMajor =>
                vx ← at_ v (N.to_nat outer_index);
                old ← at_ result i;
                put result i (t_add old (t_mul value vx))
            | columnMajor =>
                vx ← at_ v i;
                old ← at_ result (N.to_nat outer_index);
                put result (N.to_nat outer_index) (t_add old (t_mul value vx))
            end)
         result)
    result
  = for_each (take (line_start SO es.*1 L) es) (product_step v) result.
Proof.
  intros Hasc. induction L as [|L IH]; intros HL.
  { by rewrite line_start_0, take_0. }
  rewrite seq_S, for_each_app, IH by lia. cbn [Nat.add].
  pose proof (line_start_mono SO es.*1 L (S L)) as Hmono.
  pose proof (line_start_le SO es.*1 (S L)) as Hle. rewrite length_fmap in Hle.
  replace (take (line_start SO es.*1 (S L)) es)
    with (take (line_start SO es.*1 L) es
          ++ take (line_start SO es.*1 (S L) - line_start SO es.*1 L)
               (drop (line_start SO es.*1 L) es)).
  2: { rewrite take_take_drop. f_equal. lia. }
  rewrite for_each_app.
  destruct (for_each (take (line_start SO es.*1 L) es) (product_step v) result)
    as [r| |]; cbn [mbind outcome_bind]; [|done..].
  cbn [for_each].
  rewrite (at_Some _ _ _ (csr_inner_lookup SO lines es L ltac:(lia))).
  rewrite (at_Some _ _ _ (csr_inner_lookup SO lines es (S L) ltac:(lia))).
  cbn [mbind outcome_bind]. unfold range. rewrite !Nat2N.id.
  rewrite inner_product_loop; [|by apply segment_lines|lia].
  by destruct (for_each _ _ r).
Qed.

Lemma by_vector_compressed_csr (d : Dimensions) es v :
  ascending SO es.*1 →
  Forall (fun e => line_index SO e.1 < num_lines SO d) es →
  rows d = num_lines SO d →
  YALE.by_vector_compressed SO d (csr SO (num_lines SO d) es) v
  = COOmap.by_vector_dynamic d es v.
Proof.
  intros Hasc Hlines Hrows. unfold YALE.by_vector_compressed, COOmap.by_vector_dynamic.
  cbv zeta. unfold range at 1. rewrite Nat.sub_0_r.
  rewrite by_vector_scan_for_each.
  assert (es = take (line_start SO es.*1 (N.to_nat (rows d))) es) as Hall.
  { symmetry. apply take_ge. rewrite line_start_all, length_fmap; [done|].
    apply Forall_fmap. eapply Forall_impl; [exact Hlines|]. intros e He.
    unfold compose. cbn beta in *. lia. }
  rewrite Hrows in Hall |- *.
  rewrite (outer_product_loop (num_lines SO d) es v (N.to_nat (num_lines SO d)))
    by (done || lia).
  by rewrite <- Hall.
Qed.
End product.

Section norms.
Context {T D : Type} `{!DoubleOps D} `{!NumericOrComplex T D} (SO : StorageOrder).
Implicit Types (es : list (index * T)).



End norms.


Section scans_generic.
Context {T D Dyn : Type} `{!DoubleOps D} `{!NumericOrComplex T D}.
Context (SO : StorageOrder) `{!Dynamic SO T D Dyn}.
Context (ent : Dyn → list (index * T)) (wf : Dyn → Prop).
Context `{!AssociationList SO ent wf}.
Implicit Types (m : @Matrix.t T Dyn) (c : Dyn).

Lemma G_times_survives DEBUG m c (v : list T) :
  dynamic_state m c → wf c → map_sorted SO (ent c) →
  Forall (fun e => line_index SO e.1 < num_lines SO (Matrix.dims m)) (ent c) →
  rows (Matrix.dims m) = num_lines SO (Matrix.dims m) →
  num_lines SO (Matrix.dims m) + 1 < SIZE_MOD →
  N.of_nat (length (ent c)) < SIZE_MOD →
  ∃ mc,
    Matrix.compress SO DEBUG m = Done mc
    ∧ Matrix.times SO DEBUG mc v = Matrix.times SO DEBUG m v.
Proof.
  intros Hst Hwf Hs Hlines Hrows Hfit Hn.
  rewrite (G_compress SO ent wf DEBUG m c Hst Hwf Hlines Hfit Hn).
  eexists. split; [done|]. destruct Hst as [Hf Hd].
  unfold Matrix.times, Matrix.flag. rewrite Hf, Hd. simpl.
  destruct (assert DEBUG _ _); cbn [mbind outcome_bind]; [|done..].
  rewrite law_by_vector by done.
  apply by_vector_compressed_csr; [by apply map_sorted_ascending|done..].
Qed.


End scans_generic.

(** X7. The product with a vector is the same after [compress()] as
    before, on both backends, under row-major storage and, under
    column-major storage, for a matrix with as many rows as columns. The
    storage is in ascending order, every coordinate lies in a line the
    matrix has, and the sizes fit [size_t]. *)
Theorem product_survives_compress :
  ∀ {T D : Type} `{!DoubleOps D} `{!NumericOrComplex T D}
    (SO : StorageOrder) (DEBUG : bool) (v : list T),
  (∀ (m : @Matrix.t T COO.t) (c : COO.t),
     dynamic_state m c → aligned c → ascending SO (COO.indexlist c) →
     Forall (fun x => line_index SO x < num_lines SO (Matrix.dims m)) (COO.indexlist c) →
     rows (Matrix.dims m) = num_lines SO (Matrix.dims m) →
     num_lines SO (Matrix.dims m) + 1 < SIZE_MOD →
     N.of_nat (length (COO.valueslist c)) < SIZE_MOD →
     ∃ mc,
       Matrix.compress SO DEBUG m = Done mc
       ∧ Matrix.times SO DEBUG mc v = Matrix.times SO DEBUG m v)
  ∧ (∀ (m : @Matrix.t T COOmap.t) (c : COOmap.t),
     dynamic_state m c → map_sorted SO c →
     Forall (fun x => line_index SO x < num_lines SO (Matrix.dims m)) c.*1 →
     rows (Matrix.dims m) = num_lines SO (Matrix.dims m) →
     num_lines SO (Matrix.dims m) + 1 < SIZE_MOD →
     N.of_nat (length c) < SIZE_MOD →
     ∃ mc,
       Matrix.compress SO DEBUG m = Done mc
       ∧ Matrix.times SO DEBUG mc v = Matrix.times SO DEBUG m v).
Proof.
  intros T D HD HT SO DEBUG v. split.
  - intros m c Hst Hwf Hasc Hlines Hrows Hfit Hn.
    rewrite <- (entries_fst c Hwf) in Hlines. apply Forall_fmap in Hlines.
    apply (G_times_survives SO entries aligned DEBUG m c v); try done.
    + by apply entries_sorted.
    + by rewrite length_entries.
  - intros m c Hst Hs Hlines Hrows Hfit Hn. apply Forall_fmap in Hlines.
    by apply (G_times_survives (Dyn:=COOmap.t) SO id (fun _ => True) DEBUG m c v).
Qed.



(** ** The constructor from compressed arrays *)





Section compressed_constructor.
Context {T : Type} (SO : StorageOrder).
Implicit Types (out rest inner : list size_t) (val : list T) (y : @YALE.t T).

Lemma copy_inner_spec rest (pos : size_t) (k : nat) inner :
  ∃ a : nat,
    (a ≤ length rest)%nat
    ∧ YALE.copy_inner rest pos k inner = ((k + a)%nat, inner ++ take a rest)
    ∧ Forall (fun x => x ≤ pos) (take a rest)
    ∧ (∀ x, rest !! a = Some x → pos < x).
Proof.
  revert k inner. induction rest as [|x rest IH]; intros k inner.
  { exists 0%nat. simpl. rewrite app_nil_r, Nat.add_0_r. by repeat split. }
  simpl. destruct (x <=? pos) eqn:Hx.
  - destruct (IH (S k) (inner ++ [x])) as (a & Ha & -> & Hall & Hstop).
    exists (S a). simpl. rewrite <- app_assoc. simpl.
    split; [lia|]. split; [f_equal; lia|]. split; [|done].
    constructor; [by apply N.leb_le|done].
  - exists 0%nat. simpl. rewrite app_nil_r, Nat.add_0_r.
    split; [lia|]. split; [done|]. split; [done|].
    intros ? [= <-]. by apply N.leb_gt.
Qed.

Lemma copy_inner_in (in_ : list size_t) (pos : size_t) (k : nat) :
  ∃ k' : nat,
    (k ≤ k')%nat
    ∧ YALE.copy_inner (drop k in_) pos k (take k in_) = (k', take k' in_)
    ∧ (∀ q x, (k ≤ q < k')%nat → in_ !! q = Some x → x ≤ pos)
    ∧ (∀ x, in_ !! k' = Some x → pos < x).
Proof.
  destruct (copy_inner_spec (drop k in_) pos k (take k in_)) as (a & Ha & Hc & Hall & Hstop).
  exists (k + a)%nat. split; [lia|]. split; [by rewrite Hc, take_take_drop|]. split.
  - intros q x Hq Hx. rewrite Forall_forall in Hall. apply Hall.
    apply list_elem_of_lookup. exists (q - k)%nat.
    apply lookup_take_Some. split; [|lia]. rewrite lookup_drop.
    by replace (k + (q - k))%nat with q by lia.
  - intros x Hx. apply Hstop. by rewrite lookup_drop.
Qed.




Lemma non_decreasing_step (l : list size_t) (a : nat) (x x' : size_t) :
  non_decreasing l = true → l !! a = Some x → l !! S a = Some x' → x ≤ x'.
Proof.
  revert a. induction l as [|z l IH]; intros a Hl Hx Hx'; [done|].
  destruct l as [|z' l]; [done|].
  change (non_decreasing (z :: z' :: l)) with ((z <=? z') && non_decreasing (z' :: l)) in Hl.
  apply andb_true_iff in Hl as [Hz Hl]. destruct a as [|a].
  - simpl in Hx, Hx'. injection Hx as <-. injection Hx' as <-. by apply N.leb_le.
  - by apply (IH a).
Qed.

Lemma non_decreasing_le (l : list size_t) (a b : nat) (x x' : size_t) :
  non_decreasing l = true → (a ≤ b)%nat → l !! a = Some x → l !! b = Some x' → x ≤ x'.
Proof.
  intros Hl Hab Hx. revert x'. induction Hab as [|b Hab IH]; intros x' Hx'.
  - rewrite Hx in Hx'. injection Hx' as <-. lia.
  - assert (is_Some (l !! b)) as [z Hz].
    { apply lookup_lt_is_Some. apply lookup_lt_Some in Hx'. lia. }
    pose proof (IH z Hz). pose proof (non_decreasing_step l b z x' Hl Hz Hx'). lia.
Qed.

Lemma line_starts_last (in_ : list size_t) (n : nat) :
  line_starts in_ n → in_ !! (length in_ - 1)%nat = Some (N.of_nat n) ∧ (0 < length in_)%nat.
Proof.
  intros (_ & H0 & Hlast). rewrite last_lookup in Hlast.
  split; [by replace (length in_ - 1)%nat with (pred (length in_)) by lia|].
  by apply lookup_lt_Some in H0.
Qed.

Lemma line_starts_le (in_ : list size_t) (n q : nat) (x : size_t) :
  line_starts in_ n → in_ !! q = Some x → x ≤ N.of_nat n.
Proof.
  intros Hls Hx. destruct (line_starts_last in_ n Hls) as [Hlast Hpos].
  destruct Hls as (Hnd & _ & _).
  apply (non_decreasing_le in_ q (length in_ - 1) x _ Hnd); [|done..].
  apply lookup_lt_Some in Hx. lia.
Qed.

Lemma from_arrays_loop_stores DEBUG BD out (in_ : list size_t) val (left pos k : nat)
    (mx : size_t) :
  length out = length val → line_starts in_ (length val) →
  (DEBUG = true → fits_given SO BD out in_) →
  (pos + left = length val)%nat →
  (∀ q x, (q < k)%nat → in_ !! q = Some x → x ≤ N.of_nat pos) →
  (pos ≠ 0%nat → ∀ q x, (k ≤ q)%nat → in_ !! q = Some x → N.of_nat pos < x) →
  (pos = 0%nat → k = 0%nat) →
  (0 < length val)%nat →
  ∃ mx',
    YALE.from_arrays_loop SO DEBUG BD out in_ (drop pos val) pos k mx
      {| YALE.outerindex := take pos out; YALE.innerindex := take k in_;
         YALE.values := take pos val |}
    = Done (mx', {| YALE.outerindex := out; YALE.innerindex := in_; YALE.values := val |})
    ∧ (BD = None → mx' = foldl N.max mx (drop pos out)).
Proof.
  intros Hlen Hls Hfit. revert pos k mx.
  destruct (line_starts_last in_ _ Hls) as [Hlast Hne].
  pose proof Hls as (Hnd & H0 & _).
  induction left as [|left IH]; intros pos k mx Hpos Ha Hb Hc Hn.
  { assert (pos = length val) as -> by lia.
    rewrite drop_all. cbn [YALE.from_arrays_loop].
    exists mx. rewrite <- Hlen at 1 3. rewrite !firstn_all, drop_all.
    split; [|done]. do 3 f_equal.
    apply take_ge. destruct (decide (length in_ ≤ k)%nat) as [|Hk]; [done|].
    assert (N.of_nat (length val) < N.of_nat (length val)); [|lia].
    apply (Hb ltac:(lia) (length in_ - 1)%nat); [lia|done]. }
  assert (is_Some (val !! pos)) as [v Hv] by (apply lookup_lt_is_Some; lia).
  assert (is_Some (out !! pos)) as [o Ho] by (apply lookup_lt_is_Some; lia).
  rewrite (drop_S _ _ _ Hv). cbn [YALE.from_arrays_loop].
  assert (k < length in_)%nat as Hk.
  { destruct (decide (k < length in_)%nat) as [|Hk]; [done|].
    assert (N.of_nat (length val) ≤ N.of_nat pos); [|lia].
    apply (Ha (length in_ - 1)%nat); [lia|done]. }
  apply lookup_lt_is_Some in Hk as [i Hi].
  assert ((if DEBUG then
             o ← at_ out pos;
             _ ← match BD with
                 | Some d =>
                     assert true (o <? match SO with
                                       | rowMajor => columns d
                                       | columnMajor => rows d
                                       end) IndexTooBig
                 | None => Done tt
                 end;
             i ← at_ in_ k;
             _ ← assert true (i <=? N.of_nat (length out)) IndexTooBig;
             _ ← assert true ((0 <=? o) && (0 <=? i)) IndexNegative;
             if decide (pos ≠ 0)%nat then
               prev_outer ← at_ out (pos - 1);
               prev_inner ← (if decide (k = 0)%nat then UB OutOfRange
                             else at_ in_ (k - 1));
               assert true ((prev_outer <? o) || (prev_inner <=? N.of_nat pos)) Redefinition
             else Done tt
           else Done tt) = Done tt) as ->.
  { destruct DEBUG; [|done]. specialize (Hfit eq_refl).
    rewrite (at_Some _ _ _ Ho), (at_Some _ _ _ Hi). cbn [mbind outcome_bind].
    assert (match BD with
            | Some d =>
                assert true (o <? match SO with
                                  | rowMajor => columns d
                                  | columnMajor => rows d
                                  end) IndexTooBig
            | None => Done tt
            end = Done tt) as ->.
    { destruct BD as [d|]; [|done]. destruct Hfit as [_ Hout].
      rewrite Forall_forall in Hout. apply assert_guard. intros _.
      apply N.ltb_lt. apply (Hout o). by eapply list_elem_of_lookup_2. }
    cbn [mbind outcome_bind].
    rewrite (assert_guard true (i <=? _)); [|intros _; apply N.leb_le].
    2: { rewrite Hlen. by eapply line_starts_le. }
    cbn [mbind outcome_bind].
    rewrite (assert_guard true (_ && _)); [|intros _].
    2: { apply andb_true_iff. split; apply N.leb_le; lia. }
    cbn [mbind outcome_bind].
    destruct (decide (pos ≠ 0%nat)) as [Hp|]; [|done].
    assert (is_Some (out !! (pos - 1)%nat)) as [po Hpo] by (apply lookup_lt_is_Some; lia).
    rewrite (at_Some _ _ _ Hpo). cbn [mbind outcome_bind].
    destruct (decide (k = 0%nat)) as [->|Hk0].
    { exfalso. assert (N.of_nat pos < 0); [|lia]. by apply (Hb Hp 0%nat). }
    assert (is_Some (in_ !! (k - 1)%nat)) as [pi Hpi].
    { apply lookup_lt_is_Some. apply lookup_lt_Some in Hi. lia. }
    rewrite (at_Some _ _ _ Hpi). cbn [mbind outcome_bind].
    apply assert_guard. intros _. apply orb_true_iff. right. apply N.leb_le.
    apply (Ha (k - 1)%nat); [lia|done]. }
  cbn [mbind outcome_bind]. rewrite (at_Some _ _ _ Ho). cbn [mbind outcome_bind].
  cbn [YALE.innerindex YALE.outerindex YALE.values].
  destruct (copy_inner_in in_ (N.of_nat (S pos)) k) as (k' & Hkk' & -> & Hin & Hstop).
  rewrite <- (take_S_r _ _ _ Ho), <- (take_S_r _ _ _ Hv).
  destruct (IH (S pos) k' (if BD is None then N.max mx o else mx)) as (mx' & -> & Hmx).
  - lia.
  - intros q x Hq Hx. destruct (decide (q < k)%nat) as [Hqk|Hqk].
    + pose proof (Ha q x Hqk Hx). lia.
    + apply (Hin q x); [lia|done].
  - intros _ q x Hq Hx.
    assert (is_Some (in_ !! k')) as [z Hz].
    { apply lookup_lt_is_Some. apply lookup_lt_Some in Hx. lia. }
    pose proof (Hstop z Hz). pose proof (non_decreasing_le in_ k' q z x Hnd Hq Hz Hx). lia.
  - done.
  - done.
  - exists mx'. split; [done|]. intros ->. rewrite (Hmx eq_refl).
    by rewrite (drop_S _ _ _ Ho).
Qed.

Lemma from_arrays_stores DEBUG BD out (in_ : list size_t) val :
  val ≠ [] → length out = length val → line_starts in_ (length val) →
  (DEBUG = true → fits_given SO BD out in_) →
  YALE.from_arrays SO DEBUG BD out in_ val
  = Done (compressed_dimensions SO BD out in_,
          {| YALE.outerindex := out; YALE.innerindex := in_; YALE.values := val |}).
Proof.
  intros Hne Hlen Hls Hfit. unfold YALE.from_arrays. cbv zeta.
  rewrite assert_guard by (intros _; by apply bool_decide_eq_true_2).
  cbn [mbind outcome_bind].
  assert (match BD with
          | Some d =>
              assert DEBUG (N.of_nat (length in_) =? size_add (match SO with
                                                               | rowMajor => rows d
                                                               | columnMajor => columns d
                                                               end) 1) SizesDontMatch
          | None => Done tt
          end = Done tt) as ->.
  { destruct BD as [d|]; [|done]. apply assert_guard. intros HD.
    destruct (Hfit HD) as [Hin _]. apply N.eqb_eq. rewrite Hin. by destruct SO. }
  cbn [mbind outcome_bind].
  destruct (from_arrays_loop_stores DEBUG BD out in_ val (length val) 0 0 0 Hlen Hls Hfit)
    as (mx' & Hloop & Hmx); try done.
  { intros q x Hq. lia. }
  { destruct val; [done|simpl; lia]. }
  rewrite drop_0, !take_0 in Hloop. rewrite Hloop. cbn [mbind outcome_bind].
  f_equal. f_equal. unfold compressed_dimensions.
  destruct BD as [d|]; [done|]. rewrite (Hmx eq_refl), drop_0. by destruct SO.
Qed.

Lemma from_arrays_nil DEBUG BD (in_ : list size_t) :
  (DEBUG = true → fits_given SO BD [] in_) →
  YALE.from_arrays SO DEBUG BD [] in_ ([] : list T)
  = Done (compressed_dimensions SO BD [] in_,
          {| YALE.outerindex := []; YALE.innerindex := []; YALE.values := [] |}).
Proof.
  intros Hfit. unfold YALE.from_arrays. cbv zeta.
  rewrite assert_guard by done. cbn [mbind outcome_bind].
  assert (match BD with
          | Some d =>
              assert DEBUG (N.of_nat (length in_) =? size_add (match SO with
                                                               | rowMajor => rows d
                                                               | columnMajor => columns d
                                                               end) 1) SizesDontMatch
          | None => Done tt
          end = Done tt) as ->.
  { destruct BD as [d|]; [|done]. apply assert_guard. intros HD.
    destruct (Hfit HD) as [Hin _]. apply N.eqb_eq. rewrite Hin. by destruct SO. }
  cbn [mbind outcome_bind YALE.from_arrays_loop].
  unfold compressed_dimensions. destruct BD as [d|]; [done|]. by destruct SO.
Qed.
End compressed_constructor.

Lemma csr_line_starts {T} SO (lines : size_t) (es : list (index * T)) :
  Forall (fun e => line_index SO e.1 < lines) es →
  line_starts (YALE.innerindex (csr SO lines es)) (length (YALE.values (csr SO lines es))).
Proof.
  intros Hlines. split; [|split].
  - cbn [csr YALE.innerindex]. apply non_decreasing_fmap_seq. intros l.
    pose proof (line_start_mono SO es.*1 l (S l)). lia.
  - rewrite csr_inner_lookup by lia. by rewrite line_start_0.
  - cbn [csr YALE.innerindex YALE.values].
    rewrite seq_S, fmap_snoc, last_snoc. cbn [Nat.add]. f_equal. f_equal.
    rewrite line_start_all, !length_fmap; [done|].
    apply Forall_fmap. eapply Forall_impl; [exact Hlines|]. intros e He.
    unfold compose. cbn beta in *. lia.
Qed.

Section constructor_generic.
Context {T D Dyn : Type} `{!DoubleOps D} `{!NumericOrComplex T D}.
Context (SO : StorageOrder) `{!Dynamic SO T D Dyn}.
Context (ent : Dyn → list (index * T)) (wf : Dyn → Prop).
Context `{!AssociationList SO ent wf}.
Implicit Types (m : @Matrix.t T Dyn) (c : Dyn).

Lemma G_compress_then_construct DEBUG m c :
  dynamic_state m c → wf c → ent c ≠ [] →
  Forall (fun e => line_index SO e.1 < num_lines SO (Matrix.dims m)) (ent c) →
  Forall (fun e => outer_index SO e.1 < outer_bound SO (Matrix.dims m)) (ent c) →
  num_lines SO (Matrix.dims m) + 1 < SIZE_MOD →
  N.of_nat (length (ent c)) < SIZE_MOD →
  ∃ mc y,
    Matrix.compress SO DEBUG m = Done mc
    ∧ Matrix.compressed mc = Some y
    ∧ Matrix.of_compressed SO DEBUG
        (Some (rows (Matrix.dims m), columns (Matrix.dims m)))
        (YALE.outerindex y) (YALE.innerindex y) (YALE.values y)
      = Done mc.
Proof.
  intros Hst Hwf Hne Hlines Houter Hfit Hn.
  rewrite (G_compress SO ent wf DEBUG m c Hst Hwf Hlines Hfit Hn).
  eexists _, _. split; [done|]. split; [done|].
  unfold Matrix.of_compressed. cbv zeta.
  rewrite (from_arrays_stores SO DEBUG).
  - cbn [mbind outcome_bind]. unfold compressed_dimensions, given_dimensions. simpl.
    by destruct (Matrix.dims m).
  - cbn [csr YALE.values]. destruct (ent c); [done|]. done.
  - cbn [csr YALE.values YALE.outerindex]. by rewrite !length_fmap.
  - by apply csr_line_starts.
  - intros _. unfold fits_given, given_dimensions. simpl. split.
    + cbn [csr YALE.innerindex]. rewrite length_fmap, length_seq.
      rewrite Nat2N.inj_succ, N2Nat.id.
      replace (num_lines SO {| rows := rows (Matrix.dims m);
                               columns := columns (Matrix.dims m) |})
        with (num_lines SO (Matrix.dims m)) by (by destruct SO).
      rewrite size_add_1 by done. lia.
    + cbn [csr YALE.outerindex]. apply Forall_fmap.
      eapply Forall_impl; [exact Houter|]. intros e He. unfold compose.
      by destruct SO.
Qed.
End constructor_generic.

(** X10. Given well-formed line starts (non-decreasing, from 0 to the
    number of values), as many outer indices as values and at least one
    value, the constructor from compressed arrays stores the three arrays
    as they are given and ends in compressed state. Without given
    dimensions the matrix gets one line less than [in] has elements and
    one more outer position than the greatest outer index; with given
    dimensions and [DEBUG] the arrays have to fit them. *)
Theorem compressed_constructor_stores_the_arrays :
  ∀ {T D Dyn : Type} `{!DoubleOps D} `{!NumericOrComplex T D}
    (SO : StorageOrder) `{!Dynamic SO T D Dyn} (DEBUG : bool)
    (rc : option (size_t * size_t)) (out in_ : list size_t) (val : list T),
  val ≠ [] → length out = length val → line_starts in_ (length val) →
  (DEBUG = true → fits_given SO (given_dimensions rc) out in_) →
  Matrix.of_compressed (Dyn:=Dyn) SO DEBUG rc out in_ val
  = Done {| Matrix.dims := compressed_dimensions SO (given_dimensions rc) out in_;
            Matrix.compressed :=
              Some {| YALE.outerindex := out; YALE.innerindex := in_;
                      YALE.values := val |};
            Matrix.dynamic := None; Matrix.isCompressed := Some true |}.
Proof.
  intros T D Dyn HD HT SO HDyn DEBUG rc out in_ val Hne Hlen Hls Hfit.
  unfold Matrix.of_compressed. cbv zeta.
  by rewrite (from_arrays_stores SO DEBUG).
Qed.


(** X12. Built from no values, the compressed matrix keeps none of the line
    starts it was given: its three arrays are empty, and the read-only
    access to any coordinate within its dimensions reads outside the
    array of line starts. *)
Theorem compressed_constructor_without_values_drops_the_line_starts :
  ∀ {T D Dyn : Type} `{!DoubleOps D} `{!NumericOrComplex T D}
    (SO : StorageOrder) `{!Dynamic SO T D Dyn} (DEBUG : bool)
    (rc : option (size_t * size_t)) (in_ : list size_t),
  (DEBUG = true → fits_given SO (given_dimensions rc) [] in_) →
  ∃ m : @Matrix.t T Dyn,
    Matrix.of_compressed SO DEBUG rc [] in_ [] = Done m
    ∧ Matrix.compressed m
      = Some {| YALE.outerindex := []; YALE.innerindex := []; YALE.values := [] |}
    ∧ Matrix.get_num_elements SO m = Done 0
    ∧ ∀ i j, Matrix.in_bounds m i j = true →
        Matrix.call_const SO DEBUG m i j = UB OutOfRange.
Proof.
  intros T D Dyn HD HT SO HDyn DEBUG rc in_ Hfit.
  unfold Matrix.of_compressed. cbv zeta.
  rewrite (from_arrays_nil SO DEBUG) by done. cbn [mbind outcome_bind].
  eexists. split; [done|]. split; [done|]. split; [done|].
  intros i j Hin. unfold Matrix.call_const. rewrite Hin.
  rewrite assert_guard by done. simpl.
  unfold YALE.find_compressed_const, YALE.search. by destruct (YALE.inner_outer SO i j).
Qed.

(** X13. The arrays [compress()] produces from a storage with at least one
    entry are accepted by the constructor from compressed arrays, together
    with the dimensions of the matrix, and give the compressed matrix
    back, on both backends. Every coordinate lies within the dimensions
    and the sizes fit [size_t]. *)
Theorem constructor_accepts_what_compress_produces :
  ∀ {T D : Type} `{!DoubleOps D} `{!NumericOrComplex T D}
    (SO : StorageOrder) (DEBUG : bool),
  (∀ (m : @Matrix.t T COO.t) (c : COO.t),
     dynamic_state m c → aligned c → COO.indexlist c ≠ [] →
     Forall (fun x => line_index SO x < num_lines SO (Matrix.dims m)) (COO.indexlist c) →
     Forall (fun x => outer_index SO x < outer_bound SO (Matrix.dims m)) (COO.indexlist c) →
     num_lines SO (Matrix.dims m) + 1 < SIZE_MOD →
     N.of_nat (length (COO.valueslist c)) < SIZE_MOD →
     ∃ mc y,
       Matrix.compress SO DEBUG m = Done mc
       ∧ Matrix.compressed mc = Some y
       ∧ Matrix.of_compressed SO DEBUG
           (Some (rows (Matrix.dims m), columns (Matrix.dims m)))
           (YALE.outerindex y) (YALE.innerindex y) (YALE.values y)
         = Done mc)
  ∧ (∀ (m : @Matrix.t T COOmap.t) (c : COOmap.t),
     dynamic_state m c → c ≠ [] →
     Forall (fun x => line_index SO x < num_lines SO (Matrix.dims m)) c.*1 →
     Forall (fun x => outer_index SO x < outer_bound SO (Matrix.dims m)) c.*1 →
     num_lines SO (Matrix.dims m) + 1 < SIZE_MOD →
     N.of_nat (length c) < SIZE_MOD →
     ∃ mc y,
       Matrix.compress SO DEBUG m = Done mc
       ∧ Matrix.compressed mc = Some y
       ∧ Matrix.of_compressed SO DEBUG
           (Some (rows (Matrix.dims m), columns (Matrix.dims m)))
           (YALE.outerindex y) (YALE.innerindex y) (YALE.values y)
         = Done mc).
Proof.
  intros T D HD HT SO DEBUG. split.
  - intros m c Hst Hwf Hne Hlines Houter Hfit Hn.
    rewrite <- (entries_fst c Hwf) in Hlines, Houter, Hne.
    apply Forall_fmap in Hlines. apply Forall_fmap in Houter.
    apply (G_compress_then_construct SO entries aligned DEBUG m c); try done.
    + intros Hnil. by rewrite Hnil in Hne.
    + by rewrite length_entries.
  - intros m c Hst Hne Hlines Houter Hfit Hn.
    apply Forall_fmap in Hlines. apply Forall_fmap in Houter.
    by apply (G_compress_then_construct (Dyn:=COOmap.t) SO id (fun _ => True) DEBUG m c).
Qed.

(** ** Conversions in the wrong state *)

Section wrong_state.
Context {T D Dyn : Type} `{!DoubleOps D} `{!NumericOrComplex T D}.
Context (SO : StorageOrder) `{!Dynamic SO T D Dyn}.
Context (ent : Dyn → list (index * T)) (wf : Dyn → Prop).
Context `{!AssociationList SO ent wf}.
Implicit Types (m : @Matrix.t T Dyn) (c : Dyn) (y : @YALE.t T).

Lemma for_each_first_fails {St} (n : nat) (body : nat → St → outcome St) (st : St)
    (why : undefined) :
  (0 < n)%nat → body 0%nat st = UB why → for_each (range 0 n) body st = UB why.
Proof.
  intros Hn Hbody. unfold range. rewrite Nat.sub_0_r.
  destruct n as [|n]; [lia|]. simpl. by rewrite Hbody.
Qed.

Lemma compress_in_compressed_state m y :
  Matrix.isCompressed m = Some true → Matrix.compressed m = Some y →
  Matrix.dynamic m = None →
  Matrix.compress SO true m = Abort AlreadyCompressed
  ∧ (YALE.values y ≠ [] → Matrix.compress SO false m = UB NullPointer).
Proof.
  intros Hf Hy Hd. unfold Matrix.compress, Matrix.flag. rewrite Hf. split; [done|].
  intros Hne. cbn [mbind outcome_bind]. unfold assert. cbn [andb mbind outcome_bind].
  unfold Matrix.get_num_elements, Matrix.flag. rewrite Hf, Hy.
  cbn [negb mbind outcome_bind deref]. cbv zeta.
  rewrite for_each_first_fails with (why := NullPointer); [done| |by rewrite Hd].
  unfold YALE.get_num_elements_compressed. rewrite Nat2N.id.
  destruct (YALE.values y); [done|simpl; lia].
Qed.

Lemma G_uncompress_in_dynamic_state m c :
  dynamic_state m c → wf c → Matrix.compressed m = None →
  Matrix.uncompress SO true m = Abort AlreadyUncompressed
  ∧ (ent c ≠ [] → Matrix.uncompress SO false m = UB NullPointer).
Proof.
  intros [Hf Hd] Hwf Hy. unfold Matrix.uncompress, Matrix.flag. rewrite Hf. split; [done|].
  intros Hne. cbn [mbind outcome_bind]. unfold assert. cbn [andb mbind outcome_bind].
  unfold Matrix.get_num_elements, Matrix.flag. rewrite Hf, Hd.
  cbn [negb mbind outcome_bind deref]. rewrite law_count by done.
  rewrite for_each_first_fails with (why := NullPointer); [done| |by rewrite Hy].
  rewrite Nat2N.id. destruct (ent c); [done|simpl; lia].
Qed.
End wrong_state.

(** X14. A conversion asked of a matrix that is already in the target state
    does not return it unchanged. [compress()] on a compressed matrix
    stops on its assertion in a DEBUG build; without DEBUG, holding at
    least one value, it dereferences the released dynamic storage.
    [uncompress()] on a matrix in dynamic state does the same with the
    compressed storage, on both backends. *)
Theorem conversion_in_the_target_state_fails :
  ∀ {T D : Type} `{!DoubleOps D} `{!NumericOrComplex T D} (SO : StorageOrder),
  (∀ (m : @Matrix.t T COO.t) (y : YALE.t),
     Matrix.isCompressed m = Some true → Matrix.compressed m = Some y →
     Matrix.dynamic m = None →
     Matrix.compress SO true m = Abort AlreadyCompressed
     ∧ (YALE.values y ≠ [] → Matrix.compress SO false m = UB NullPointer))
  ∧ (∀ (m : @Matrix.t T COOmap.t) (y : YALE.t),
     Matrix.isCompressed m = Some true → Matrix.compressed m = Some y →
     Matrix.dynamic m = None →
     Matrix.compress SO true m = Abort AlreadyCompressed
     ∧ (YALE.values y ≠ [] → Matrix.compress SO false m = UB NullPointer))
  ∧ (∀ (m : @Matrix.t T COO.t) (c : COO.t),
     dynamic_state m c → aligned c → Matrix.compressed m = None →
     Matrix.uncompress SO true m = Abort AlreadyUncompressed
     ∧ (COO.indexlist c ≠ [] → Matrix.uncompress SO false m = UB NullPointer))
  ∧ (∀ (m : @Matrix.t T COOmap.t) (c : COOmap.t),
     dynamic_state m c → Matrix.compressed m = None →
     Matrix.uncompress SO true m = Abort AlreadyUncompressed
     ∧ (c ≠ [] → Matrix.uncompress SO false m = UB NullPointer)).
Proof.
  intros T D HD HT SO. split; [|split; [|split]].
  - intros m y. apply compress_in_compressed_state.
  - intros m y. apply compress_in_compressed_state.
  - intros m c Hst Hwf Hy.
    destruct (G_uncompress_in_dynamic_state SO entries aligned m c Hst Hwf Hy) as [H1 H2].
    split; [done|]. intros Hne. apply H2. intros Hnil.
    rewrite <- (entries_fst c Hwf), Hnil in Hne. done.
  - intros m c Hst Hy.
    by destruct (G_uncompress_in_dynamic_state (Dyn:=COOmap.t) SO id (fun _ => True) m c Hst I Hy).
Qed.

(** ** Removal in compressed state *)



Section compressed_removal.
Context {T D : Type} `{!DoubleOps D} `{!NumericOrComplex T D} (SO : StorageOrder).
Implicit Types (es : list (index * T)) (keys : list index).





End compressed_removal.

(** ** Changes in compressed state and [compress()] *)

Section stored_entries_search.
Context {T D : Type} `{!DoubleOps D} `{!NumericOrComplex T D} (SO : StorageOrder).
Implicit Types (es : list (index * T)).







End stored_entries_search.

Section compressed_changes.
Context {T D Dyn : Type} `{!DoubleOps D} `{!NumericOrComplex T D}.
Context (SO : StorageOrder) `{!Dynamic SO T D Dyn}.
Context (ent : Dyn → list (index * T)) (wf : Dyn → Prop).
Context `{!AssociationList SO ent wf}.
Implicit Types (m : @Matrix.t T Dyn) (c : Dyn).


End compressed_changes.



(** ** The comparator and the permutations *)

(** X17. [Comparator<S>] is a strict total order on coordinates: the
    lexicographic order by row, then column, under row-major storage, and
    by column, then row, under column-major storage. *)
Theorem comparator_is_a_strict_total_order :
  ∀ SO : StorageOrder,
  (∀ a, Comparator SO a a = false)
  ∧ (∀ a b c, Comparator SO a b = true → Comparator SO b c = true →
       Comparator SO a c = true)
  ∧ (∀ a b, a ≠ b → Comparator SO a b = true ∨ Comparator SO b a = true)
  ∧ (∀ i j i' j' : size_t,
       Comparator rowMajor (i, j) (i', j') = true ↔ i < i' ∨ (i = i' ∧ j < j'))
  ∧ (∀ i j i' j' : size_t,
       Comparator columnMajor (i, j) (i', j') = true ↔ j < j' ∨ (j = j' ∧ i < i')).
Proof.
  intros SO. split; [apply Comparator_irrefl|]. split; [apply Comparator_trans|].
  split; [|split].
  - intros a b Hne. destruct (Comparator SO a b) eqn:Hab; [by left|].
    destruct (Comparator SO b a) eqn:Hba; [by right|].
    destruct Hne. by apply (Comparator_total SO).
  - intros i j i' j'. apply (Comparator_line_outer rowMajor (i, j) (i', j')).
  - intros i j i' j'. apply (Comparator_line_outer columnMajor (i, j) (i', j')).
Qed.

(** X18. [apply_permutation] with a permutation [p] of the positions of
    [vec] returns, and leaves at every position [k] the element that
    [p[k]] points to; the result is a rearrangement of [vec] of the same
    length. *)
Theorem apply_permutation_gathers :
  ∀ {A : Type} (vec : list A) (p : list nat),
  p ≡ₚ seq 0 (length vec) →
  ∃ res, apply_permutation vec p = Done res
         ∧ length res = length vec
         ∧ (∀ k x, p !! k = Some x → res !! k = vec !! x)
         ∧ res ≡ₚ vec.
Proof.
  intros A vec p Hp. destruct vec as [|a vec].
  { destruct (apply_permutation_lookup [] p Hp) as (res & Hrun & Hlen & Hres).
    exists res. do 3 (split; [done|]). by destruct res. }
  assert (Inhabited A) by exact (populate a).
  rewrite (apply_permutation_gather (a :: vec) p Hp).
  eexists. split; [done|]. split; [|split].
  - rewrite length_fmap. by apply Permutation_length in Hp as ->; rewrite length_seq.
  - intros k x Hk. rewrite list_lookup_fmap, Hk. simpl.
    symmetry. apply list_lookup_lookup_total_lt.
    assert (x ∈ seq 0 (length (a :: vec))) as Hx%elem_of_seq; [|lia].
    rewrite <- Hp. by eapply list_elem_of_lookup_2.
  - by apply gather_Permutation.
Qed.

(** X19. Sorting the two temporaries of the list backend by the permutation
    [sort_permutation] computes from the coordinates returns, keeps every
    coordinate with its value, and leaves the coordinates in storage
    order. *)
Theorem temporaries_are_sorted_together :
  ∀ {T : Type} (SO : StorageOrder) (indexes : list index) (values : list T),
  length indexes = length values →
  ∃ ti tv,
    COO.sort_temporaries SO indexes values = Done (ti, tv)
    ∧ length ti = length tv
    ∧ zip ti tv ≡ₚ zip indexes values
    ∧ StronglySorted (fun a b => Comparator SO b a = false) ti
    ∧ (NoDup indexes → ascending SO ti).
Proof.
  intros T SO indexes values Hlen.
  destruct (sort_temporaries_zip SO indexes values Hlen)
    as (ti & tv & Hrun & Hl & Hzip & Hperm & Hsorted).
  exists ti, tv. do 4 (split; [done|]).
  intros Hnd. apply sorted_NoDup_ascending; [done|]. by rewrite Hperm.
Qed.

(** ** What the constructors store *)

(** X20. Given as many values as coordinates, no coordinate twice and, in a
    DEBUG build with given dimensions, every coordinate within them, the
    constructor from coordinates and values returns a matrix in dynamic
    state that holds exactly the given entries, in ascending storage
    order, on both backends. *)
Theorem triplet_constructor_stores_the_input_in_storage_order :
  ∀ {T D : Type} `{!DoubleOps D} `{!NumericOrComplex T D}
    (SO : StorageOrder) (DEBUG : bool) (rc : option (size_t * size_t))
    (indexes : list index) (values : list T),
  length indexes = length values → NoDup indexes →
  (DEBUG = true → Forall (fits (given_dimensions rc)) indexes) →
  (∃ c : COO.t,
     Matrix.of_triplets SO DEBUG rc indexes values
     = Done {| Matrix.dims := constructed_dimensions (given_dimensions rc) indexes;
               Matrix.compressed := None; Matrix.dynamic := Some c;
               Matrix.isCompressed := Some false |}
     ∧ aligned c ∧ entries c ≡ₚ zip indexes values
     ∧ ascending SO (COO.indexlist c))
  ∧ (∃ m : COOmap.t,
     Matrix.of_triplets SO DEBUG rc indexes values
     = Done {| Matrix.dims := constructed_dimensions (given_dimensions rc) indexes;
               Matrix.compressed := None; Matrix.dynamic := Some m;
               Matrix.isCompressed := Some false |}
     ∧ m ≡ₚ zip indexes values ∧ map_sorted SO m).
Proof.
  intros T D HD HT SO DEBUG rc indexes values Hlen Hnd Hfit. split.
  - destruct (COO_from_triplets_stores SO DEBUG (given_dimensions rc) indexes values Hlen)
      as (c & Hrun & Hal & Hperm & _ & Hasc); [by intros ?; split; [|apply Hfit]|].
    exists c. unfold Matrix.of_triplets. cbv zeta. cbn [from_triplets COO_Dynamic].
    rewrite Hrun. split; [done|]. split; [done|]. split; [done|]. by apply Hasc.
  - destruct (COOmap_from_triplets_stores SO DEBUG (given_dimensions rc) indexes values
                Hlen Hnd Hfit) as (m & Hrun & Hperm & Hs).
    exists m. unfold Matrix.of_triplets. cbv zeta. cbn [from_triplets COOmap_Dynamic].
    by rewrite Hrun.
Qed.

(** X21. Given a map whose coordinates are, in a DEBUG build with given
    dimensions, within them, the constructor from a map returns a matrix
    in dynamic state that holds exactly the elements of the map, in
    ascending storage order, on both backends. *)
Theorem map_constructor_stores_the_input_in_storage_order :
  ∀ {T D : Type} `{!DoubleOps D} `{!NumericOrComplex T D}
    (SO : StorageOrder) (DEBUG : bool) (rc : option (size_t * size_t))
    (src : list (index * T)),
  NoDup src.*1 →
  (DEBUG = true → Forall (fits (given_dimensions rc)) src.*1) →
  (∃ c : COO.t,
     Matrix.of_map SO DEBUG rc src
     = Done {| Matrix.dims := constructed_dimensions (given_dimensions rc) src.*1;
               Matrix.compressed := None; Matrix.dynamic := Some c;
               Matrix.isCompressed := Some false |}
     ∧ aligned c ∧ entries c ≡ₚ src ∧ ascending SO (COO.indexlist c))
  ∧ (∃ m : COOmap.t,
     Matrix.of_map SO DEBUG rc src
     = Done {| Matrix.dims := constructed_dimensions (given_dimensions rc) src.*1;
               Matrix.compressed := None; Matrix.dynamic := Some m;
               Matrix.isCompressed := Some false |}
     ∧ m ≡ₚ src ∧ map_sorted SO m).
Proof.
  intros T D HD HT SO DEBUG rc src Hnd Hfit. split.
  - destruct (COO_from_map_stores SO DEBUG (given_dimensions rc) src Hfit)
      as (c & Hrun & Hal & Hperm & _ & Hasc).
    exists c. unfold Matrix.of_map. cbv zeta. cbn [from_map COO_Dynamic].
    rewrite Hrun. split; [done|]. split; [done|]. split; [done|]. by apply Hasc.
  - destruct (COOmap_from_map_stores SO DEBUG (given_dimensions rc) src Hnd Hfit)
      as (m & Hrun & Hperm & Hs).
    exists m. unfold Matrix.of_map. cbv zeta. cbn [from_map COOmap_Dynamic].
    by rewrite Hrun.
Qed.

(** X22. From the same coordinates and values the two backends build the
    same matrix: the same dimensions and, position by position, the same
    entries. *)
Theorem backends_build_the_same_storage :
  ∀ {T D : Type} `{!DoubleOps D} `{!NumericOrComplex T D}
    (SO : StorageOrder) (DEBUG : bool) (rc : option (size_t * size_t))
    (indexes : list index) (values : list T),
  length indexes = length values → NoDup indexes →
  (DEBUG = true → Forall (fits (given_dimensions rc)) indexes) →
  ∃ (d : Dimensions) (c : COO.t),
    Matrix.of_triplets SO DEBUG rc indexes values
    = Done {| Matrix.dims := d; Matrix.compressed := None; Matrix.dynamic := Some c;
              Matrix.isCompressed := Some false |}
    ∧ Matrix.of_triplets (Dyn:=COOmap.t) SO DEBUG rc indexes values
      = Done {| Matrix.dims := d; Matrix.compressed := None;
                Matrix.dynamic := Some (entries c);
                Matrix.isCompressed := Some false |}
    ∧ aligned c.
Proof.
  intros T D HD HT SO DEBUG rc indexes values Hlen Hnd Hfit.
  destruct (COO_from_triplets_stores SO DEBUG (given_dimensions rc) indexes values Hlen)
    as (c & Hrun & Hal & Hperm & _ & Hasc); [by intros ?; split; [|apply Hfit]|].
  destruct (COOmap_from_triplets_stores SO DEBUG (given_dimensions rc) indexes values
              Hlen Hnd Hfit) as (m & Hrun' & Hperm' & Hs).
  exists (constructed_dimensions (given_dimensions rc) indexes), c.
  unfold Matrix.of_triplets. cbv zeta. cbn [from_triplets COO_Dynamic COOmap_Dynamic].
  rewrite Hrun, Hrun'. split; [done|]. split; [|done].
  cbn [mbind outcome_bind]. do 3 f_equal.
  apply (map_sorted_unique SO m (entries c) Hs); [|by rewrite Hperm, Hperm'].
  apply ascending_map_sorted. by apply Hasc.
Qed.

(** ** The two backends side by side *)

(** X23. In dynamic state the two backends are interchangeable. A matrix
    over the list backend and one over the map backend that hold the same
    entries in ascending order, with the same dimensions, return the same
    value at every coordinate, the same number of entries, the same
    product and the same Frobenius norm; the same assignment or removal
    returns on both, with the same answer, and leaves them holding the
    same entries again. *)
Theorem backends_are_interchangeable_in_dynamic_state :
  ∀ {T D : Type} `{!DoubleOps D} `{!NumericOrComplex T D}
    (SO : StorageOrder) (DEBUG : bool)
    (m1 : @Matrix.t T COO.t) (m2 : @Matrix.t T COOmap.t) (c : COO.t),
  alike SO m1 m2 c →
  (∀ i j, result (Matrix.call_const SO DEBUG m1 i j)
          = result (Matrix.call_const SO DEBUG m2 i j))
  ∧ Matrix.get_num_elements SO m1 = Matrix.get_num_elements SO m2
  ∧ (∀ v, Matrix.times SO DEBUG m1 v = Matrix.times SO DEBUG m2 v)
  ∧ Matrix.norm SO Frobenius m1 = Matrix.norm SO Frobenius m2
  ∧ (∀ i j v, (DEBUG = true → Matrix.in_bounds m1 i j = true) →
       ∃ m1' m2' c',
         Matrix.assign SO DEBUG m1 i j v = Done m1'
         ∧ Matrix.assign SO DEBUG m2 i j v = Done m2'
         ∧ alike SO m1' m2' c')
  ∧ (∀ i j, (DEBUG = true → Matrix.in_bounds m1 i j = true) →
       ∃ m1' m2' c' b,
         Matrix.remove SO DEBUG m1 i j = Done (m1', b)
         ∧ Matrix.remove SO DEBUG m2 i j = Done (m2', b)
         ∧ alike SO m1' m2' c').
Proof.
  intros T D HD HT SO DEBUG m1 m2 c (Hst1 & Hst2 & Hwf & Hasc & Hdims).
  pose proof (proj2 (entries_sorted SO c Hwf) Hasc) as Hs.
  assert (∀ i j, Matrix.in_bounds m2 i j = Matrix.in_bounds m1 i j) as Hin
    by (intros i j; unfold Matrix.in_bounds; by rewrite Hdims).
  split; [|split; [|split; [|split; [|split]]]].
  - intros i j.
    rewrite (result_call_const SO entries aligned DEBUG m1 c i j Hst1 Hwf).
    rewrite (result_call_const (Dyn:=COOmap.t) SO id (fun _ => True) DEBUG m2 _ i j Hst2 I).
    by rewrite Hin.
  - rewrite (G_count SO entries aligned m1 c Hst1 Hwf).
    by rewrite (G_count (Dyn:=COOmap.t) SO id (fun _ => True) m2 _ Hst2 I).
  - intros v. destruct Hst1 as [Hf1 Hd1], Hst2 as [Hf2 Hd2].
    unfold Matrix.times, Matrix.flag. rewrite Hf1, Hd1, Hf2, Hd2, Hdims. simpl.
    destruct (assert DEBUG _ _); cbn [mbind outcome_bind]; [|done..].
    by destruct (backends_agree_on_shared_scans (Matrix.dims m2) c v Hwf) as (_ & ? & _).
  - destruct Hst1 as [Hf1 Hd1], Hst2 as [Hf2 Hd2].
    unfold Matrix.norm, Matrix.flag. rewrite Hf1, Hd1, Hf2, Hd2, Hdims. simpl.
    destruct (backends_agree_on_shared_scans (Matrix.dims m2) c [] Hwf) as (_ & _ & Hf & _).
    apply (Hf SO).
  - intros i j v Hb.
    destruct (G_assign SO entries aligned DEBUG m1 c i j v Hst1 Hwf Hb)
      as (m1' & c' & Hrun1 & Hst1' & Hwf' & Hdims1 & _ & Hent1).
    destruct (G_assign (Dyn:=COOmap.t) SO id (fun _ => True) DEBUG m2 _ i j v Hst2 I)
      as (m2' & c2' & Hrun2 & Hst2' & _ & Hdims2 & _ & Hent2).
    { intros HD'. rewrite Hin. by apply Hb. }
    exists m1', m2', c'. split; [done|]. split; [done|].
    unfold id in Hent2. rewrite <- Hent1 in Hent2. subst c2'.
    split; [done|]. split; [done|]. split; [done|]. split; [|congruence].
    apply (entries_sorted SO c' Hwf'). rewrite Hent1. by apply map_assign_sorted.
  - intros i j Hb.
    destruct (G_remove SO entries aligned DEBUG m1 c i j Hst1 Hwf Hs Hb)
      as (m1' & c' & Hrun1 & Hst1' & Hwf' & Hdims1 & _ & Hent1).
    destruct (G_remove (Dyn:=COOmap.t) SO id (fun _ => True) DEBUG m2 _ i j Hst2 I Hs)
      as (m2' & c2' & Hrun2 & Hst2' & _ & Hdims2 & _ & Hent2).
    { intros HD'. rewrite Hin. by apply Hb. }
    exists m1', m2', c',
      (bool_decide ((map_erase (Comparator SO) (entries c) (i, j)).2 ≠ 0%nat)).
    split; [done|]. split; [done|].
    unfold id in Hent2. rewrite <- Hent1 in Hent2. subst c2'.
    split; [done|]. split; [done|]. split; [done|]. split; [|congruence].
    apply (entries_sorted SO c' Hwf'). rewrite Hent1. by apply map_erase_sorted.
Qed.

(** ** The constructors from a file *)

Section file_constructors.
Context {T D : Type} `{!DoubleOps D} `{!NumericOrComplex T D} (SO : StorageOrder).



End file_constructors.


(** ** The further statements at concrete inputs *)

(** The hypotheses of the statements at the sample matrices, each decided
    by evaluation. *)
Ltac sample_fact :=
  lazymatch goal with
  | |- dynamic_state _ _ => split; reflexivity
  | |- aligned _ => reflexivity
  | |- ascending _ _ => repeat constructor
  | |- map_sorted _ _ => repeat constructor
  | |- Forall _ _ => repeat constructor
  | |- NoDup ?l => apply (bool_decide_eq_true_1 (NoDup l)); reflexivity
  | |- _ ∈ _ => repeat constructor
  | |- _ = true → _ => intros _; first [reflexivity | repeat constructor]
  | |- _ ≠ _ => discriminate
  | |- line_starts _ _ => repeat split
  | |- _ => reflexivity
  end.

Lemma sample_no_line_skipped : no_line_skipped rowMajor [(0, 0); (1, 1)].
Proof.
  intros l x Hx Hl. exists (0, 0). split; [repeat constructor|].
  apply elem_of_cons in Hx as [->|Hx].
  - unfold line_index in Hl. simpl in Hl. lia.
  - apply list_elem_of_singleton in Hx as ->. unfold line_index in *. simpl in *. lia.
Defined.

Lemma assignment_is_read_back_witness :
  let m := Samples.dynamic_matrix Samples.diagonal_list in
  let mm := Samples.dynamic_matrix Samples.diagonal_map in
  (∃ m', Matrix.assign rowMajor true m 0 1 7%Z = Done m'
         ∧ Matrix.call_const rowMajor true m' 0 1 = Done (m', 7%Z))
  ∧ (∃ m', Matrix.assign rowMajor true mm 0 1 7%Z = Done m'
           ∧ Matrix.call_const rowMajor true m' 0 1 = Done (m', 7%Z)).
Proof.
  intros m mm.
  destruct (assignment_is_read_back (T:=Z) (D:=Z) rowMajor true 0 1 7%Z) as [Hlist Hmap].
  split.
  - destruct (Hlist m Samples.diagonal_list) as (m' & c' & Hrun & _ & _ & _ & Hread & _);
      [sample_fact..|].
    exists m'. exact (conj Hrun Hread).
  - destruct (Hmap mm Samples.diagonal_map) as (m' & c' & Hrun & _ & _ & Hread & _);
      [sample_fact..|].
    exists m'. exact (conj Hrun Hread).
Defined.

Lemma mutable_access_reads_the_stored_value_witness :
  let m := Samples.dynamic_matrix Samples.diagonal_list in
  let mm := Samples.dynamic_matrix Samples.diagonal_map in
  (∃ m' c' k, Matrix.call rowMajor true m 1 1 = Done (m', k)
              ∧ COO.read_slot c' k = result (Matrix.call_const rowMajor true m 1 1))
  ∧ (∃ m' c' k, Matrix.call rowMajor true mm 1 1 = Done (m', k)
                ∧ COOmap.read_slot c' k = result (Matrix.call_const rowMajor true mm 1 1)).
Proof.
  intros m mm.
  destruct (mutable_access_reads_the_stored_value (T:=Z) (D:=Z) rowMajor true 1 1)
    as [Hlist Hmap].
  split.
  - destruct (Hlist m Samples.diagonal_list) as (m' & c' & k & Hrun & _ & _ & _ & Hread & _);
      [sample_fact..|].
    exists m', c', k. exact (conj Hrun Hread).
  - destruct (Hmap mm Samples.diagonal_map) as (m' & c' & k & Hrun & _ & _ & Hread & _);
      [sample_fact..|].
    exists m', c', k. exact (conj Hrun Hread).
Defined.

Lemma removal_erases_the_entry_witness :
  let m := Samples.dynamic_matrix Samples.diagonal_list in
  let mm := Samples.dynamic_matrix Samples.diagonal_map in
  (∃ m' b, Matrix.remove rowMajor true m 1 1 = Done (m', b)
           ∧ Matrix.call_const rowMajor true m' 1 1 = Done (m', 0%Z))
  ∧ (∃ m' b, Matrix.remove rowMajor true mm 1 1 = Done (m', b)
             ∧ Matrix.call_const rowMajor true m' 1 1 = Done (m', 0%Z)).
Proof.
  intros m mm.
  destruct (removal_erases_the_entry (T:=Z) (D:=Z) rowMajor true 1 1) as [Hlist Hmap].
  split.
  - destruct (Hlist m Samples.diagonal_list)
      as (m' & c' & Hrun & _ & _ & _ & _ & Hread & _); [sample_fact..|].
    exists m'. eexists. exact (conj Hrun Hread).
  - destruct (Hmap mm Samples.diagonal_map)
      as (m' & c' & Hrun & _ & _ & _ & Hread & _); [sample_fact..|].
    exists m'. eexists. exact (conj Hrun Hread).
Defined.

Lemma compress_yields_the_compressed_arrays_witness :
  Matrix.compress rowMajor true (Samples.dynamic_matrix Samples.diagonal_list)
  = Done (Samples.compressed_matrix (@COO.t Z) Samples.diagonal_arrays)
  ∧ Matrix.compress rowMajor true (Samples.dynamic_matrix Samples.diagonal_map)
    = Done (Samples.compressed_matrix (@COOmap.t Z) Samples.diagonal_arrays).
Proof.
  destruct (compress_yields_the_compressed_arrays (T:=Z) (D:=Z) rowMajor true)
    as [Hlist Hmap].
  split.
  - apply (Hlist (Samples.dynamic_matrix Samples.diagonal_list) Samples.diagonal_list);
      sample_fact.
  - apply (Hmap (Samples.dynamic_matrix Samples.diagonal_map) Samples.diagonal_map);
      sample_fact.
Defined.

Lemma round_trip_gives_back_the_storage_witness :
  let m := Samples.dynamic_matrix Samples.diagonal_list in
  let mm := Samples.dynamic_matrix Samples.diagonal_map in
  (mc ← Matrix.compress rowMajor true m; Matrix.uncompress rowMajor true mc) = Done m
  ∧ (mc ← Matrix.compress rowMajor true mm; Matrix.uncompress rowMajor true mc) = Done mm.
Proof.
  intros m mm.
  destruct (round_trip_gives_back_the_storage (T:=Z) (D:=Z) rowMajor true) as [Hlist Hmap].
  split.
  - apply (Hlist m Samples.diagonal_list);
      first [exact sample_no_line_skipped | sample_fact].
  - apply (Hmap mm Samples.diagonal_map);
      first [exact sample_no_line_skipped | sample_fact].
Defined.


Lemma product_survives_compress_witness :
  let m := Samples.dynamic_matrix Samples.diagonal_list in
  let mm := Samples.dynamic_matrix Samples.diagonal_map in
  (∃ mc, Matrix.compress rowMajor true m = Done mc
         ∧ Matrix.times rowMajor true mc [2; 3]%Z = Matrix.times rowMajor true m [2; 3]%Z)
  ∧ (∃ mc, Matrix.compress rowMajor true mm = Done mc
           ∧ Matrix.times rowMajor true mc [2; 3]%Z
             = Matrix.times rowMajor true mm [2; 3]%Z).
Proof.
  intros m mm.
  destruct (product_survives_compress (T:=Z) (D:=Z) rowMajor true [2; 3]%Z)
    as [Hlist Hmap].
  split.
  - apply (Hlist m Samples.diagonal_list); sample_fact.
  - apply (Hmap mm Samples.diagonal_map); sample_fact.
Defined.



Lemma compressed_constructor_stores_the_arrays_witness :
  Matrix.of_compressed rowMajor true (Some (2, 2)) [0; 1] [0; 1; 2] [1; 5]%Z
  = Done (Samples.compressed_matrix (@COO.t Z) Samples.diagonal_arrays).
Proof.
  apply (compressed_constructor_stores_the_arrays (T:=Z) (D:=Z) (Dyn:=COO.t) rowMajor true
           (Some (2, 2)) [0; 1] [0; 1; 2] [1; 5]%Z);
    first [by intros _; split; [|repeat constructor] | sample_fact].
Defined.


Lemma compressed_constructor_without_values_drops_the_line_starts_witness :
  ∃ m : @Matrix.t Z COO.t,
    Matrix.of_compressed rowMajor true (Some (2, 2)) [] [0; 0; 0] [] = Done m
    ∧ Matrix.compressed m
      = Some {| YALE.outerindex := []; YALE.innerindex := []; YALE.values := [] |}
    ∧ Matrix.get_num_elements rowMajor m = Done 0
    ∧ ∀ i j, Matrix.in_bounds m i j = true →
        Matrix.call_const rowMajor true m i j = UB OutOfRange.
Proof.
  apply (compressed_constructor_without_values_drops_the_line_starts (T:=Z) (D:=Z)
           (Dyn:=COO.t) rowMajor true (Some (2, 2)) [0; 0; 0]).
  intros _. split; [reflexivity|constructor].
Defined.

Lemma constructor_accepts_what_compress_produces_witness :
  let m := Samples.dynamic_matrix Samples.diagonal_list in
  let mm := Samples.dynamic_matrix Samples.diagonal_map in
  (∃ mc y, Matrix.compress rowMajor true m = Done mc
           ∧ Matrix.compressed mc = Some y
           ∧ Matrix.of_compressed rowMajor true (Some (2, 2))
               (YALE.outerindex y) (YALE.innerindex y) (YALE.values y) = Done mc)
  ∧ (∃ mc y, Matrix.compress rowMajor true mm = Done mc
             ∧ Matrix.compressed mc = Some y
             ∧ Matrix.of_compressed rowMajor true (Some (2, 2))
                 (YALE.outerindex y) (YALE.innerindex y) (YALE.values y) = Done mc).
Proof.
  intros m mm.
  destruct (constructor_accepts_what_compress_produces (T:=Z) (D:=Z) rowMajor true)
    as [Hlist Hmap].
  split.
  - apply (Hlist m Samples.diagonal_list); sample_fact.
  - apply (Hmap mm Samples.diagonal_map); sample_fact.
Defined.

Lemma conversion_in_the_target_state_fails_witness :
  let mc := Samples.compressed_matrix (@COO.t Z) Samples.diagonal_arrays in
  let m := Samples.dynamic_matrix Samples.diagonal_list in
  (Matrix.compress rowMajor true mc = Abort AlreadyCompressed
   ∧ Matrix.compress rowMajor false mc = UB NullPointer)
  ∧ (Matrix.uncompress rowMajor true m = Abort AlreadyUncompressed
     ∧ Matrix.uncompress rowMajor false m = UB NullPointer).
Proof.
  intros mc m.
  destruct (conversion_in_the_target_state_fails (T:=Z) (D:=Z) rowMajor)
    as (Hcompress & _ & Huncompress & _).
  destruct (Hcompress mc Samples.diagonal_arrays eq_refl eq_refl eq_refl) as [H1 H2].
  destruct (Huncompress m Samples.diagonal_list) as [H3 H4]; [sample_fact..|].
  split; (split; [done|]); [apply H2|apply H4]; discriminate.
Defined.



Lemma apply_permutation_gathers_witness :
  ∃ res, apply_permutation [10; 20; 30]%Z [1; 0; 2]%nat = Done res
         ∧ length res = 3%nat
         ∧ (∀ k x, [1; 0; 2]%nat !! k = Some x → res !! k = [10; 20; 30]%Z !! x)
         ∧ res ≡ₚ [10; 20; 30]%Z.
Proof.
  apply (apply_permutation_gathers [10; 20; 30]%Z [1; 0; 2]%nat).
  apply perm_swap.
Defined.

Lemma temporaries_are_sorted_together_witness :
  ∃ ti tv,
    COO.sort_temporaries rowMajor [(1, 1); (0, 0)] [5; 1]%Z = Done (ti, tv)
    ∧ length ti = length tv
    ∧ zip ti tv ≡ₚ zip [(1, 1); (0, 0)] [5; 1]%Z
    ∧ StronglySorted (fun a b => Comparator rowMajor b a = false) ti
    ∧ (NoDup [(1, 1); (0, 0)] → ascending rowMajor ti).
Proof.
  apply (temporaries_are_sorted_together rowMajor [(1, 1); (0, 0)] [5; 1]%Z).
  reflexivity.
Defined.

Lemma triplet_constructor_stores_the_input_in_storage_order_witness :
  (∃ c : COO.t,
     Matrix.of_triplets rowMajor true (Some (2, 2)) [(1, 1); (0, 0)] [5; 1]%Z
     = Done (Samples.dynamic_matrix c)
     ∧ aligned c ∧ entries c ≡ₚ zip [(1, 1); (0, 0)] [5; 1]%Z
     ∧ ascending rowMajor (COO.indexlist c))
  ∧ (∃ m : COOmap.t,
       Matrix.of_triplets rowMajor true (Some (2, 2)) [(1, 1); (0, 0)] [5; 1]%Z
       = Done (Samples.dynamic_matrix m)
       ∧ m ≡ₚ zip [(1, 1); (0, 0)] [5; 1]%Z ∧ map_sorted rowMajor m).
Proof.
  apply (triplet_constructor_stores_the_input_in_storage_order (T:=Z) (D:=Z)
           rowMajor true (Some (2, 2)) [(1, 1); (0, 0)] [5; 1]%Z);
    first [by intros _; repeat constructor | sample_fact].
Defined.

Lemma map_constructor_stores_the_input_in_storage_order_witness :
  (∃ c : COO.t,
     Matrix.of_map rowMajor true (Some (2, 2)) [((1, 1), 5%Z); ((0, 0), 1%Z)]
     = Done (Samples.dynamic_matrix c)
     ∧ aligned c ∧ entries c ≡ₚ [((1, 1), 5%Z); ((0, 0), 1%Z)]
     ∧ ascending rowMajor (COO.indexlist c))
  ∧ (∃ m : COOmap.t,
       Matrix.of_map rowMajor true (Some (2, 2)) [((1, 1), 5%Z); ((0, 0), 1%Z)]
       = Done (Samples.dynamic_matrix m)
       ∧ m ≡ₚ [((1, 1), 5%Z); ((0, 0), 1%Z)] ∧ map_sorted rowMajor m).
Proof.
  apply (map_constructor_stores_the_input_in_storage_order (T:=Z) (D:=Z)
           rowMajor true (Some (2, 2)) [((1, 1), 5%Z); ((0, 0), 1%Z)]).
  - apply (bool_decide_eq_true_1 (NoDup [(1, 1); (0, 0)])). reflexivity.
  - intros _. repeat constructor.
Defined.

Lemma backends_build_the_same_storage_witness :
  ∃ (d : Dimensions) (c : COO.t),
    Matrix.of_triplets rowMajor true (Some (2, 2)) [(1, 1); (0, 0)] [5; 1]%Z
    = Done {| Matrix.dims := d; Matrix.compressed := None; Matrix.dynamic := Some c;
              Matrix.isCompressed := Some false |}
    ∧ Matrix.of_triplets (Dyn:=COOmap.t) rowMajor true (Some (2, 2))
        [(1, 1); (0, 0)] [5; 1]%Z
      = Done {| Matrix.dims := d; Matrix.compressed := None;
                Matrix.dynamic := Some (entries c);
                Matrix.isCompressed := Some false |}
    ∧ aligned c.
Proof.
  apply (backends_build_the_same_storage (T:=Z) (D:=Z)
           rowMajor true (Some (2, 2)) [(1, 1); (0, 0)] [5; 1]%Z);
    first [by intros _; repeat constructor | sample_fact].
Defined.

Lemma backends_are_interchangeable_in_dynamic_state_witness :
  let m1 := Samples.dynamic_matrix Samples.diagonal_list in
  let m2 := Samples.dynamic_matrix Samples.diagonal_map in
  alike rowMajor m1 m2 Samples.diagonal_list
  ∧ (∀ i j, result (Matrix.call_const rowMajor true m1 i j)
            = result (Matrix.call_const rowMajor true m2 i j))
  ∧ (∀ v, Matrix.times rowMajor true m1 v = Matrix.times rowMajor true m2 v)
  ∧ (∃ m1' m2' c',
       Matrix.assign rowMajor true m1 0 1 7%Z = Done m1'
       ∧ Matrix.assign rowMajor true m2 0 1 7%Z = Done m2'
       ∧ alike rowMajor m1' m2' c').
Proof.
  intros m1 m2.
  assert (alike rowMajor m1 m2 Samples.diagonal_list) as Halike.
  { repeat split; repeat constructor. }
  destruct (backends_are_interchangeable_in_dynamic_state (T:=Z) (D:=Z) rowMajor true
              m1 m2 Samples.diagonal_list Halike)
    as (Hread & _ & Htimes & _ & Hassign & _).
  split; [exact Halike|]. split; [exact Hread|]. split; [exact Htimes|].
  apply (Hassign 0 1 7%Z). intros _. reflexivity.
Defined.

